(** * graphmaster: the attribute-bearing graph engine

    A shallow embedding of [scripts/graphmaster.py] (class [Graph]) and the
    properties of its storage, traversal and ordering operations.

    Python dictionaries keep insertion order and the traversals iterate them,
    so a dictionary is an association list with update in place; attribute
    mappings are Python objects and are held by reference into a store. *)

From Stdlib Require Import List String Bool Arith Lia PeanoNat Permutation Sorted.
Import ListNotations.
Local Open Scope string_scope.
Local Open Scope list_scope.

(** ** Outcomes of a call *)

(** The exceptions the engine can raise. *)
Inductive exn : Type :=
| KeyError
| ValueError.

(** A call returns a value, raises, or (in the model only) exhausts the
    iteration budget given to it. *)
Inductive result (A : Type) : Type :=
| Ok (a : A)
| Raise (e : exn)
| OutOfFuel.

Arguments Ok {A} a.
Arguments Raise {A} e.
Arguments OutOfFuel {A}.

Definition bind {A B : Type} (c : result A) (k : A -> result B) : result B :=
  match c with
  | Ok a => k a
  | Raise e => Raise e
  | OutOfFuel => OutOfFuel
  end.

Notation "x <- c ;; k" := (bind c (fun x => k))
  (at level 61, c at next level, right associativity).
Notation "' p <- c ;; k" := (bind c (fun x => let p := x in k))
  (at level 61, p pattern, c at next level, right associativity).

(** [for x in l: s = f x s], stopping at the first exception. *)
Fixpoint foldM {A S : Type} (f : A -> S -> result S) (l : list A) (s : S)
  : result S :=
  match l with
  | [] => Ok s
  | x :: rest => s1 <- f x s ;; foldM f rest s1
  end.

(** ** Hashable keys *)

Class Key (K : Type) : Type := {
  key_eqb : K -> K -> bool;
  key_eqb_eq : forall x y, key_eqb x y = true <-> x = y
}.

Arguments key_eqb : simpl never.

#[export] Instance string_Key : Key string :=
  {| key_eqb := String.eqb; key_eqb_eq := String.eqb_eq |}.

#[export] Instance pair_Key (A B : Type) `{Key A} `{Key B} : Key (A * B).
Proof.
  refine {| key_eqb := fun x y =>
              key_eqb (fst x) (fst y) && key_eqb (snd x) (snd y) |}.
  intros [a b] [c d]; simpl.
  rewrite andb_true_iff, !key_eqb_eq.
  split; [intros [-> ->]; reflexivity | intros E; inversion E; auto].
Defined.

(** ** Dictionaries (insertion ordered) *)

Definition dict (K V : Type) : Type := list (K * V).

Section Dict.
Context {K V : Type} `{Key K}.

(** [d[k]], [None] standing for the KeyError of a missing key. *)
Fixpoint dget (k : K) (d : dict K V) : option V :=
  match d with
  | [] => None
  | (k', v) :: rest => if key_eqb k' k then Some v else dget k rest
  end.

(** [d[k] = v]: an existing key keeps its position, a new one goes last. *)
Fixpoint dset (k : K) (v : V) (d : dict K V) : dict K V :=
  match d with
  | [] => [(k, v)]
  | (k', v') :: rest =>
      if key_eqb k' k then (k', v) :: rest else (k', v') :: dset k v rest
  end.

(** [k in d] *)
Definition dmem (k : K) (d : dict K V) : bool :=
  match dget k d with Some _ => true | None => false end.

(** [list(d)], the keys in iteration order. *)
Definition dkeys (d : dict K V) : list K := map fst d.

(** [d.values()] *)
Definition dvalues (d : dict K V) : list V := map snd d.

(** [d[k]] as a call that raises KeyError. *)
Definition lookup (k : K) (d : dict K V) : result V :=
  match dget k d with Some v => Ok v | None => Raise KeyError end.

(** [{k: v for k in l}] *)
Definition dict_from_keys (l : list K) (v : V) : dict K V :=
  fold_left (fun d k => dset k v d) l [].
End Dict.

(** [x in l] and [l.remove(x)] on Python lists. *)
Definition list_mem {K : Type} `{Key K} (x : K) (l : list K) : bool :=
  existsb (key_eqb x) l.

Fixpoint list_remove {K : Type} `{Key K} (x : K) (l : list K) : list K :=
  match l with
  | [] => []
  | y :: rest => if key_eqb y x then rest else y :: list_remove x rest
  end.

(** ** The data model *)

Definition node : Type := string.

(** Attribute payloads are schema free: strings and growable lists. *)
Inductive value : Type :=
| VStr (s : string)
| VList (l : list string).

Definition attrs : Type := dict string value.

(** Attribute mappings are objects: the graph stores references to them. *)
Definition ref : Type := nat.
Definition store : Type := list attrs.

(** [{}]: a fresh empty mapping. *)
Definition alloc (h : store) : store * ref := (h ++ [[]], List.length h).

(** [attributes if attributes is not None else {}] *)
Definition attrs_or_new (h : store) (attributes : option ref) : store * ref :=
  match attributes with
  | Some r => (h, r)
  | None => alloc h
  end.

Record Graph : Type := mkGraph {
  nodes : dict node ref;
  edges : dict node (dict node ref);
  directed : bool;
  weighted : bool;
  weight_attribute : option string;
  alt_id : dict string string;
  roots : list node;
  leaves : list node
}.

(** [Graph.__init__] *)
Definition Graph_init (directed weighted : bool)
    (weight_attribute : option string) : Graph :=
  {| nodes := []; edges := []; directed := directed; weighted := weighted;
     weight_attribute := weight_attribute; alt_id := [];
     roots := []; leaves := [] |}.

(** ** Storage and mutation *)

(** The assignments of [add_node] for a node that is not yet there. *)
Definition with_node (g : Graph) (node_id : node) (r : ref) : Graph :=
  {| nodes := dset node_id r (nodes g);
     edges := dset node_id [] (edges g);
     directed := directed g;
     weighted := weighted g;
     weight_attribute := weight_attribute g;
     alt_id := alt_id g;
     roots := if directed g then roots g ++ [node_id] else roots g;
     leaves := if directed g then leaves g ++ [node_id] else leaves g |}.

(** [Graph.add_node] *)
Definition add_node (h : store) (g : Graph) (node_id : node)
    (attributes : option ref) : store * Graph * ref :=
  match dget node_id (nodes g) with
  | Some r => (h, g, r)
  | None =>
      let '(h1, r) := attrs_or_new h attributes in
      (h1, with_node g node_id r, r)
  end.

(** [Graph.nb_nodes] *)
Definition nb_nodes (g : Graph) : nat := List.length (nodes g).

(** [if node_id not in self.nodes: self.add_node(node_id, attributes)] *)
Definition ensure_node (h : store) (g : Graph) (node_id : node)
    (attributes : option ref) : store * Graph :=
  if dmem node_id (nodes g) then (h, g)
  else fst (add_node h g node_id attributes).

Definition set_edges (g : Graph) (e : dict node (dict node ref)) : Graph :=
  {| nodes := nodes g; edges := e; directed := directed g;
     weighted := weighted g; weight_attribute := weight_attribute g;
     alt_id := alt_id g; roots := roots g; leaves := leaves g |}.

Definition set_roots_leaves (g : Graph) (r l : list node) : Graph :=
  {| nodes := nodes g; edges := edges g; directed := directed g;
     weighted := weighted g; weight_attribute := weight_attribute g;
     alt_id := alt_id g; roots := r; leaves := l |}.

(** [Graph.add_edge], from the test for an existing edge on: both
    endpoints are nodes by now. *)
Definition link_nodes (h : store) (g : Graph) (node_id1 node_id2 : node)
    (attributes : option ref) : result (store * Graph * ref) :=
  adj1 <- lookup node_id1 (edges g) ;;
  match dget node_id2 adj1 with
  | Some r => Ok (h, g, r)
  | None =>
      let '(h1, r) := attrs_or_new h attributes in
      let e1 := dset node_id1 (dset node_id2 r adj1) (edges g) in
      if negb (directed g) then
        adj2 <- lookup node_id2 e1 ;;
        Ok (h1, set_edges g (dset node_id2 (dset node_id1 r adj2) e1), r)
      else
        let g1 := set_edges g e1 in
        let roots1 :=
          if list_mem node_id2 (roots g1)
          then list_remove node_id2 (roots g1) else roots g1 in
        let leaves1 :=
          if list_mem node_id1 (leaves g1)
          then list_remove node_id1 (leaves g1) else leaves g1 in
        Ok (h1, set_roots_leaves g1 roots1 leaves1, r)
  end.

(** [Graph.add_edge] *)
Definition add_edge (h : store) (g : Graph) (node_id1 node_id2 : node)
    (attributes node1_attributes node2_attributes : option ref)
  : result (store * Graph * ref) :=
  let '(h1, g1) := ensure_node h g node_id1 node1_attributes in
  let '(h2, g2) := ensure_node h1 g1 node_id2 node2_attributes in
  link_nodes h2 g2 node_id1 node_id2 attributes.

(** [Graph.nb_edges] *)
Definition nb_edges (g : Graph) : nat :=
  fold_left (fun count adj => count + List.length adj) (dvalues (edges g)) 0.

(** A build script: the calls an external loader makes. *)
Inductive op : Type :=
| AddNode (node_id : node) (attributes : option ref)
| AddEdge (node_id1 node_id2 : node)
          (attributes node1_attributes node2_attributes : option ref).

Definition run_op (o : op) (hg : store * Graph) : result (store * Graph) :=
  match o with
  | AddNode n a => Ok (fst (add_node (fst hg) (snd hg) n a))
  | AddEdge u v a ua va =>
      r <- add_edge (fst hg) (snd hg) u v a ua va ;; Ok (fst r)
  end.

(** The graph a loader obtains from a fresh [Graph(directed)]. *)
Definition build (directed : bool) (ops : list op) : result (store * Graph) :=
  foldM run_op ops ([], Graph_init directed false None).

(** ** Edges as a relation *)

Definition edgeb (g : Graph) (u v : node) : bool :=
  match dget u (edges g) with
  | Some adj => dmem v adj
  | None => false
  end.

Definition edge (g : Graph) (u v : node) : Prop := edgeb g u v = true.

Definition has_node (g : Graph) (n : node) : Prop := In n (dkeys (nodes g)).

(** [reach g x y]: a path of zero or more edges from [x] to [y]. *)
Inductive reach (g : Graph) (x : node) : node -> Prop :=
| reach_refl : reach g x x
| reach_step : forall y z, reach g x y -> edge g y z -> reach g x z.

(** No path is closed by an edge: the graph has no cycle. *)
Definition acyclic (g : Graph) : Prop :=
  forall x y, reach g x y -> edge g y x -> False.

(** Storage invariants of a graph: the node and adjacency tables have the
    same keys, keys are unique, and every edge target is a node. *)
Record WF (g : Graph) : Prop := mkWF {
  wf_nodes_nodup : NoDup (dkeys (nodes g));
  wf_keys : dkeys (edges g) = dkeys (nodes g);
  wf_adj_nodup : forall u adj, dget u (edges g) = Some adj -> NoDup (dkeys adj);
  wf_adj_closed : forall u adj v,
      dget u (edges g) = Some adj -> In v (dkeys adj) -> has_node g v
}.

(** The root and leaf lists hold exactly the nodes without incoming and
    without outgoing edge, each once. *)
Record roots_leaves_exact (g : Graph) : Prop := mkRL {
  rl_roots_nodup : NoDup (roots g);
  rl_leaves_nodup : NoDup (leaves g);
  rl_roots : forall x,
      In x (roots g) <-> has_node g x /\ forall u, edgeb g u x = false;
  rl_leaves : forall x,
      In x (leaves g) <-> has_node g x /\ forall v, edgeb g x v = false
}.

(** Both adjacency directions of an undirected graph hold every edge. *)
Definition symmetric (g : Graph) : Prop :=
  forall x y, edgeb g x y = edgeb g y x.

(** ** Traversal data *)

Inductive color : Type :=
| UNEXPLORED
| DISCOVERED
| FINISHED.

(** A distance is an integer or [float('inf')]. *)
Inductive dist : Type :=
| Fin (n : nat)
| Inf.

(** [d + 1] *)
Definition dist_succ (d : dist) : dist :=
  match d with
  | Fin n => Fin (n + 1)
  | Inf => Inf
  end.

Inductive edge_class : Type :=
| TREE_EDGE
| BACK_EDGE
| CROSS_EDGE
| FORWARD_EDGE.

(** The triple [bfs] returns. *)
Record bfs_maps : Type := mkBfs {
  b_state : dict node color;
  b_distance : dict node dist;
  b_predecessor : dict node (option node)
}.

(** The five dictionaries [dfs] threads through [dfs_visit]. *)
Record dfs_maps : Type := mkDfs {
  d_state : dict node color;
  d_predecessor : dict node (option node);
  d_discovered : dict node nat;
  d_classification : dict (node * node) edge_class;
  d_finished : dict node nat
}.

(** [classification[(u, v)] = c] *)
Definition classify (r : dfs_maps) (u v : node) (c : edge_class) : dfs_maps :=
  {| d_state := d_state r; d_predecessor := d_predecessor r;
     d_discovered := d_discovered r;
     d_classification := dset (u, v) c (d_classification r);
     d_finished := d_finished r |}.

(** [l.pop()]: the last element and the list without it. *)
Definition list_pop {A : Type} (l : list A) : option (A * list A) :=
  match rev l with
  | [] => None
  | x :: r => Some (x, rev r)
  end.

(** ** Traversals of a graph *)

Section Traversal.
Variable g : Graph.

(** *** Breadth-first search *)

(** The body of [for v in self.edges[u]] in [bfs]. *)
Definition bfs_visit (u v : node) (mq : bfs_maps * list node)
  : result (bfs_maps * list node) :=
  let '(m, queue) := mq in
  c <- lookup v (b_state m) ;;
  match c with
  | UNEXPLORED =>
      du <- lookup u (b_distance m) ;;
      Ok ({| b_state := dset v DISCOVERED (b_state m);
             b_distance := dset v (dist_succ du) (b_distance m);
             b_predecessor := dset v (Some u) (b_predecessor m) |},
          queue ++ [v])
  | _ => Ok (m, queue)
  end.

(** [state[u] = 'FINISHED'] *)
Definition bfs_finish (u : node) (m : bfs_maps) : bfs_maps :=
  {| b_state := dset u FINISHED (b_state m);
     b_distance := b_distance m;
     b_predecessor := b_predecessor m |}.

(** [while queue: ...]; [fuel] bounds the number of iterations. *)
Fixpoint bfs_loop (fuel : nat) (m : bfs_maps) (queue : list node)
  : result bfs_maps :=
  match queue with
  | [] => Ok m
  | u :: queue' =>
      match fuel with
      | 0 => OutOfFuel
      | S fuel' =>
          adj <- lookup u (edges g) ;;
          mq <- foldM (bfs_visit u) (dkeys adj) (m, queue') ;;
          bfs_loop fuel' (bfs_finish u (fst mq)) (snd mq)
      end
  end.

Definition bfs_init (start_node_id : node) : bfs_maps :=
  {| b_state :=
       dset start_node_id DISCOVERED
            (dict_from_keys (dkeys (nodes g)) UNEXPLORED);
     b_distance :=
       dset start_node_id (Fin 0) (dict_from_keys (dkeys (nodes g)) Inf);
     b_predecessor := dict_from_keys (dkeys (nodes g)) None |}.

(** [Graph.bfs] *)
Definition bfs (fuel : nat) (start_node_id : node) : result bfs_maps :=
  bfs_loop fuel (bfs_init start_node_id) [start_node_id].

(** *** Depth-first search *)

(** The body of [for v in self.edges[vertex]] in [dfs_visit]; [visit] is
    the recursive call. *)
Definition dfs_edge (visit : node -> nat -> dfs_maps -> result dfs_maps)
    (vertex : node) (time : nat) (v : node) (r : dfs_maps)
  : result dfs_maps :=
  c <- lookup v (d_state r) ;;
  match c with
  | UNEXPLORED =>
      visit v time
        {| d_state := d_state r;
           d_predecessor := dset v (Some vertex) (d_predecessor r);
           d_discovered := d_discovered r;
           d_classification :=
             dset (vertex, v) TREE_EDGE (d_classification r);
           d_finished := d_finished r |}
  | DISCOVERED => Ok (classify r vertex v BACK_EDGE)
  | FINISHED =>
      dvertex <- lookup vertex (d_discovered r) ;;
      dv <- lookup v (d_discovered r) ;;
      if Nat.ltb dv dvertex then Ok (classify r vertex v CROSS_EDGE)
      else Ok (classify r vertex v FORWARD_EDGE)
  end.

(** [state[vertex] = "DISCOVERED"; time += 1; discovered[vertex] = time] *)
Definition dfs_enter (vertex : node) (time : nat) (r : dfs_maps) : dfs_maps :=
  {| d_state := dset vertex DISCOVERED (d_state r);
     d_predecessor := d_predecessor r;
     d_discovered := dset vertex (time + 1) (d_discovered r);
     d_classification := d_classification r;
     d_finished := d_finished r |}.

(** [state[vertex] = "FINISHED"; finished[vertex] = time + 1], with the
    local [time] already incremented on entry. *)
Definition dfs_leave (vertex : node) (time : nat) (r : dfs_maps) : dfs_maps :=
  {| d_state := dset vertex FINISHED (d_state r);
     d_predecessor := d_predecessor r;
     d_discovered := d_discovered r;
     d_classification := d_classification r;
     d_finished := dset vertex (time + 1 + 1) (d_finished r) |}.

(** [Graph.dfs_visit]; [time] is an integer parameter, so the callee's
    increments stay local to it. [fuel] bounds the recursion depth. *)
Fixpoint dfs_visit (fuel : nat) (vertex : node) (time : nat) (r : dfs_maps)
  : result dfs_maps :=
  match fuel with
  | 0 => OutOfFuel
  | S fuel' =>
      let r1 := dfs_enter vertex time r in
      adj <- lookup vertex (edges g) ;;
      r2 <- foldM (dfs_edge (dfs_visit fuel') vertex (time + 1))
                  (dkeys adj) r1 ;;
      Ok (dfs_leave vertex time r2)
  end.

Definition dfs_init : dfs_maps :=
  {| d_state := dict_from_keys (dkeys (nodes g)) UNEXPLORED;
     d_predecessor := dict_from_keys (dkeys (nodes g)) None;
     d_discovered := [];
     d_classification := [];
     d_finished := [] |}.

(** The body of the second loop of [dfs]; [time] is always 0 there. *)
Definition dfs_root (fuel : nat) (vertex : node) (r : dfs_maps)
  : result dfs_maps :=
  c <- lookup vertex (d_state r) ;;
  match c with
  | UNEXPLORED => dfs_visit fuel vertex 0 r
  | _ => Ok r
  end.

(** [Graph.dfs] *)
Definition dfs (fuel : nat) : result dfs_maps :=
  foldM (dfs_root fuel) (dkeys (nodes g)) dfs_init.

(** [Graph.is_acyclic] *)
Definition is_acyclic (fuel : nat) : result bool :=
  res <- dfs fuel ;;
  let classification := d_classification res in
  Ok (fold_left
        (fun acyclic key =>
           match dget key classification with
           | Some BACK_EDGE => false
           | _ => acyclic
           end)
        (dkeys classification) true).

(** *** Shortest path *)

(** [while current_node is not None: ...] of [get_shortest_path]. *)
Fixpoint path_walk (fuel : nat) (predecessor : dict node (option node))
    (current_node : option node) (path : list node) : result (list node) :=
  match current_node with
  | None => Ok path
  | Some c =>
      match fuel with
      | 0 => OutOfFuel
      | S fuel' =>
          p <- lookup c predecessor ;;
          path_walk fuel' predecessor p (path ++ [c])
      end
  end.

(** [Graph.get_shortest_path] *)
Definition get_shortest_path (fuel : nat) (start_node_id end_node_id : node)
  : result (list node) :=
  if negb (dmem start_node_id (nodes g)) then Raise ValueError
  else if negb (dmem end_node_id (nodes g)) then Raise ValueError
  else
    m <- bfs fuel start_node_id ;;
    d <- lookup end_node_id (b_distance m) ;;
    match d with
    | Inf => Ok []
    | Fin _ =>
        path <- path_walk fuel (b_predecessor m) (Some end_node_id) [] ;;
        Ok (rev path)
    end.

(** *** Depth *)

(** The body of the inner loop of [max_depth]. *)
Definition depth_step (fuel : nat) (node_start node_end : node)
    (depths : dict node nat) : result (dict node nat) :=
  let depths := dset node_start 0 depths in
  path <- get_shortest_path fuel node_start node_end ;;
  match path with
  | [] => Ok depths
  | _ :: _ =>
      d <- lookup node_start depths ;;
      Ok (dset node_start (Nat.max d (List.length path - 1)) depths)
  end.

(** [max(l)], a ValueError on an empty sequence. *)
Definition list_max (l : list nat) : result nat :=
  match l with
  | [] => Raise ValueError
  | x :: rest => Ok (fold_left Nat.max rest x)
  end.

(** [Graph.max_depth] *)
Definition max_depth (fuel : nat) : result nat :=
  acyclic <- is_acyclic fuel ;;
  if negb acyclic then Raise ValueError
  else
    depths <- foldM (fun node_start depths =>
                       foldM (depth_step fuel node_start) (leaves g) depths)
                    (roots g) [] ;;
    list_max (dvalues depths).

(** *** Topological sort *)

(** The body of [for neighbor in self.edges[v]] in [dfs_topological]. *)
Definition topo_edge
    (visit : node -> dict node bool * list node
             -> result (dict node bool * list node))
    (neighbor : node) (vs : dict node bool * list node)
  : result (dict node bool * list node) :=
  b <- lookup neighbor (fst vs) ;;
  if negb b then visit neighbor vs else Ok vs.

(** The inner function [dfs_topological] of [topological_sort]; the pair
    is [(visited, stack)]. [fuel] bounds the recursion depth. *)
Fixpoint dfs_topological (fuel : nat) (v : node)
    (vs : dict node bool * list node)
  : result (dict node bool * list node) :=
  match fuel with
  | 0 => OutOfFuel
  | S fuel' =>
      let visited := dset v true (fst vs) in
      adj <- lookup v (edges g) ;;
      vs1 <- foldM (topo_edge (dfs_topological fuel')) (dkeys adj)
                   (visited, snd vs) ;;
      Ok (fst vs1, snd vs1 ++ [v])
  end.

(** [Graph.topological_sort] *)
Definition topological_sort (fuel : nat) : result (list node) :=
  acyclic <- is_acyclic fuel ;;
  if negb acyclic then Raise ValueError
  else
    vs <- foldM (topo_edge (dfs_topological fuel)) (dkeys (nodes g))
                (dict_from_keys (dkeys (nodes g)) false, []) ;;
    Ok (rev (snd vs)).

(** *** Descendants and ascendants *)

(** [while stack: ...] of [get_descendants]. *)
Fixpoint descendants_loop (fuel : nat) (descendants stack : list node)
  : result (list node) :=
  match list_pop stack with
  | None => Ok descendants
  | Some (current_node, stack') =>
      match fuel with
      | 0 => OutOfFuel
      | S fuel' =>
          adj <- lookup current_node (edges g) ;;
          descendants_loop fuel'
            (fold_left (fun l neighbor => l ++ [neighbor]) (dkeys adj)
                       descendants)
            (fold_left (fun l neighbor => l ++ [neighbor]) (dkeys adj)
                       stack')
      end
  end.

(** [Graph.get_descendants] *)
Definition get_descendants (fuel : nat) (node_id : node)
  : result (list node) :=
  if directed g && dmem node_id (edges g)
  then descendants_loop fuel [] [node_id]
  else Raise ValueError.

(** [for node in self.edges: if current_node in self.edges[node]:
    l.append(node)] *)
Definition append_parents (current_node : node) (l : list node) : list node :=
  fold_left
    (fun l na => if dmem current_node (snd na) then l ++ [fst na] else l)
    (edges g) l.

(** [while stack: ...] of [get_ascendants]. *)
Fixpoint ascendants_loop (fuel : nat) (ascendants stack : list node)
  : result (list node) :=
  match list_pop stack with
  | None => Ok ascendants
  | Some (current_node, stack') =>
      match fuel with
      | 0 => OutOfFuel
      | S fuel' =>
          ascendants_loop fuel'
            (append_parents current_node ascendants)
            (append_parents current_node stack')
      end
  end.

(** [Graph.get_ascendants] *)
Definition get_ascendants (fuel : nat) (node_id : node)
  : result (list node) :=
  if directed g && dmem node_id (nodes g)
  then ascendants_loop fuel [] [node_id]
  else Raise ValueError.
End Traversal.

(** ** Reference definitions and sample graphs *)

(** The depth as the specification words it, to compare [max_depth] with:
    the largest shortest-path edge count over every root and every leaf, a
    pair without path counting 0. *)
Definition max_depth_spec (g : Graph) (fuel : nat) : result nat :=
  acyclic <- is_acyclic g fuel ;;
  if negb acyclic then Raise ValueError
  else
    lens <- foldM (fun pair lens =>
                     path <- get_shortest_path g fuel (fst pair) (snd pair) ;;
                     Ok (lens ++ [List.length path - 1]))
                  (list_prod (roots g) (leaves g)) [] ;;
    list_max lens.

(** [g.add_edge(u, v)] with no attribute payloads. *)
Definition plain_edge (u v : node) : op := AddEdge u v None None None.

(** The graph a script builds. *)
Definition graph_of (directed : bool) (ops : list op) : Graph :=
  match build directed ops with
  | Ok (_, g) => g
  | _ => Graph_init directed false None
  end.

(** A -> B, B -> D, A -> C: the leaf reached by the longest path is
    inserted before the other leaf. *)
Definition fork_graph : Graph :=
  graph_of true [plain_edge "A" "B"; plain_edge "B" "D"; plain_edge "A" "C"].

(** A -> B *)
Definition arrow_graph : Graph := graph_of true [plain_edge "A" "B"].

(** A -> A *)
Definition loop_graph : Graph := graph_of true [plain_edge "A" "A"].

(** A -> B, B -> A *)
Definition two_cycle_graph : Graph :=
  graph_of true [plain_edge "A" "B"; plain_edge "B" "A"].

(** A - B, undirected. *)
Definition undirected_pair : Graph := graph_of false [plain_edge "A" "B"].

(** ** Invariants of the traversals *)

(** A node that has left the UNEXPLORED state. *)
Definition explored (c : option color) : Prop :=
  c = Some DISCOVERED \/ c = Some FINISHED.

Definition is_unexplored (c : option color) : bool :=
  match c with
  | Some UNEXPLORED => true
  | _ => false
  end.

(** The number of nodes a state dictionary still holds UNEXPLORED. *)
Definition unexplored_count (g : Graph) (state : dict node color) : nat :=
  List.length
    (filter (fun x => is_unexplored (dget x state)) (dkeys (nodes g))).

(** [l] lists the nodes of a path from [x] to [y], both included. *)
Inductive is_path (g : Graph) (x : node) : node -> list node -> Prop :=
| path_one : is_path g x x [x]
| path_snoc : forall y z l,
    is_path g x y l -> edge g y z -> is_path g x z (l ++ [z]).

(** The invariant of the loop of [bfs] started at [s]: [p] lists the
    DISCOVERED nodes in queue order, [k] is the distance of its front. *)
Record bfs_inv (g : Graph) (s : node) (k : nat) (m : bfs_maps)
    (p : list node) : Prop := mkBfsInv {
  bi_total : forall x, has_node g x -> exists c, dget x (b_state m) = Some c;
  bi_pending_nodup : NoDup p;
  bi_pending : forall x, In x p <-> dget x (b_state m) = Some DISCOVERED;
  bi_unexplored : forall x,
      dget x (b_state m) = Some UNEXPLORED ->
      dget x (b_distance m) = Some Inf /\
      dget x (b_predecessor m) = Some None;
  bi_start :
      dget s (b_distance m) = Some (Fin 0) /\
      dget s (b_predecessor m) = Some None /\
      explored (dget s (b_state m));
  bi_tree : forall x,
      explored (dget x (b_state m)) ->
      has_node g x /\ reach g s x /\
      exists n, dget x (b_distance m) = Some (Fin n) /\
        (x = s \/
         exists u n', dget x (b_predecessor m) = Some (Some u) /\
           edge g u x /\ explored (dget u (b_state m)) /\
           dget u (b_distance m) = Some (Fin n') /\ n = n' + 1);
  bi_closed : forall x y,
      dget x (b_state m) = Some FINISHED -> edge g x y ->
      exists n n', dget x (b_distance m) = Some (Fin n) /\
        dget y (b_distance m) = Some (Fin n') /\ n' <= n + 1;
  bi_finished_level : forall x,
      dget x (b_state m) = Some FINISHED ->
      exists n, dget x (b_distance m) = Some (Fin n) /\ n <= k;
  bi_levels : exists A B, p = A ++ B /\
      (forall x, In x A -> dget x (b_distance m) = Some (Fin k)) /\
      (forall x, In x B -> dget x (b_distance m) = Some (Fin (k + 1)))
}.

(** What a step of [bfs] leaves alone: the entries of explored nodes. *)
Definition bfs_frame (m m' : bfs_maps) : Prop :=
  forall x, explored (dget x (b_state m)) ->
    dget x (b_state m') = dget x (b_state m) /\
    dget x (b_distance m') = dget x (b_distance m) /\
    dget x (b_predecessor m') = dget x (b_predecessor m).

(** The state dictionary of [dfs] covers the nodes, and every explored node
    has a discovery time. *)
Record dfs_ok (g : Graph) (r : dfs_maps) : Prop := mkDfsOk {
  do_total : forall x, has_node g x -> exists c, dget x (d_state r) = Some c;
  do_discovered : forall x,
      explored (dget x (d_state r)) ->
      exists t, dget x (d_discovered r) = Some t
}.

(** What a call of [dfs_visit] leaves alone: the state of the nodes explored
    before it and the classification of the edges leaving them. *)
Definition dfs_frame (r r' : dfs_maps) : Prop :=
  forall x, explored (dget x (d_state r)) ->
    dget x (d_state r') = dget x (d_state r) /\
    forall y, dget (x, y) (d_classification r')
              = dget (x, y) (d_classification r).

(** The postcondition of [dfs_visit vertex] entered at [r]. *)
Record dfs_post (g : Graph) (vertex : node) (r r' : dfs_maps) : Prop :=
  mkDfsPost {
  dp_ok : dfs_ok g r';
  dp_frame : dfs_frame r r';
  dp_finished : dget vertex (d_state r') = Some FINISHED;
  dp_count :
    unexplored_count g (d_state r') < unexplored_count g (d_state r);
  dp_gray : forall x,
      dget x (d_state r') = Some DISCOVERED ->
      dget x (d_state r) = Some DISCOVERED
}.

(** The invariant of the loop over the neighbours of [vertex], entered
    at [r]. *)
Record dfs_inside (g : Graph) (vertex : node) (r rc : dfs_maps) : Prop :=
  mkDfsInside {
  di_ok : dfs_ok g rc;
  di_frame : dfs_frame r rc;
  di_vertex : dget vertex (d_state rc) = Some DISCOVERED;
  di_count :
    unexplored_count g (d_state rc) < unexplored_count g (d_state r);
  di_gray : forall x,
      dget x (d_state rc) = Some DISCOVERED ->
      x = vertex \/ dget x (d_state r) = Some DISCOVERED
}.

(** No edge is classified BACK EDGE. *)
Definition no_back (r : dfs_maps) : Prop :=
  forall key, dget key (d_classification r) <> Some BACK_EDGE.

(** Some edge leaving a finished node is classified BACK EDGE. *)
Definition back_recorded (r : dfs_maps) : Prop :=
  exists a b, dget (a, b) (d_classification r) = Some BACK_EDGE /\
              dget a (d_state r) = Some FINISHED.

(** As soon as a node with an edge is finished, a BACK EDGE is recorded. *)
Definition back_if_finished (g : Graph) (r : dfs_maps) : Prop :=
  (exists x y, dget x (d_state r) = Some FINISHED /\ edge g x y) ->
  back_recorded r.

(** [a] occurs before a later occurrence of [b] in [l]. *)
Definition before {A : Type} (l : list A) (a b : A) : Prop :=
  exists l1 l2 l3, l = l1 ++ a :: l2 ++ b :: l3.

Definition is_unvisited (b : option bool) : bool :=
  match b with
  | Some false => true
  | _ => false
  end.

(** The number of nodes [visited] still maps to False. *)
Definition unvisited_count (g : Graph) (visited : dict node bool) : nat :=
  List.length
    (filter (fun x => is_unvisited (dget x visited)) (dkeys (nodes g))).

(** The invariant of [(visited, stack)] in [topological_sort]: the stack
    holds visited nodes, each once, every one after all its successors. *)
Record topo_ok (g : Graph) (vs : dict node bool * list node) : Prop :=
  mkTopoOk {
  to_total : forall x, has_node g x -> exists b, dget x (fst vs) = Some b;
  to_stack : forall x,
      In x (snd vs) -> dget x (fst vs) = Some true /\ has_node g x;
  to_nodup : NoDup (snd vs);
  to_order : forall u w,
      In u (snd vs) -> edge g u w -> before (snd vs) w u
}.

(** The postcondition of [dfs_topological v] entered at [vs]. *)
Record topo_post (g : Graph) (v : node)
    (vs vs' : dict node bool * list node) : Prop := mkTopoPost {
  tp_ok : topo_ok g vs';
  tp_frame : forall x,
      dget x (fst vs) = Some true -> dget x (fst vs') = Some true;
  tp_stack : exists l, snd vs' = snd vs ++ l /\ In v l /\
      forall x, In x l -> dget x (fst vs) = Some false;
  tp_gray : forall x,
      dget x (fst vs') = Some true ->
      In x (snd vs') \/ dget x (fst vs) = Some true;
  tp_count : unvisited_count g (fst vs') < unvisited_count g (fst vs)
}.

(** The invariant of the loop over the neighbours of [v] in
    [dfs_topological], entered at [vs]. *)
Record topo_inside (g : Graph) (v : node)
    (vs vc : dict node bool * list node) : Prop := mkTopoInside {
  ti_ok : topo_ok g vc;
  ti_vertex : dget v (fst vc) = Some true /\ ~ In v (snd vc);
  ti_frame : forall x,
      dget x (fst vs) = Some true -> dget x (fst vc) = Some true;
  ti_stack : exists l, snd vc = snd vs ++ l /\
      forall x, In x l -> dget x (fst vs) = Some false;
  ti_gray : forall x,
      dget x (fst vc) = Some true ->
      In x (snd vc) \/ x = v \/ dget x (fst vs) = Some true;
  ti_count : unvisited_count g (fst vc) < unvisited_count g (fst vs)
}.

(** The edges of a graph, in table order. *)
Definition edge_list (g : Graph) : list (node * node) :=
  flat_map (fun na => map (fun v => (fst na, v)) (dkeys (snd na))) (edges g).

(** A ranking of the sample nodes: the code of the first character. *)
Definition letter_rank (n : node) : nat :=
  match n with
  | EmptyString => 0
  | String c _ => Ascii.nat_of_ascii c
  end.

(** ** Neighbourhood queries *)

(** [self.edges[u][v]]: the attribute mapping stored for the ordered pair,
    [None] when a key is missing. *)
Definition edge_attr (g : Graph) (u v : node) : option ref :=
  match dget u (edges g) with
  | Some adj => dget v adj
  | None => None
  end.

(** [sorted(l)] on identifiers: strings compare lexicographically by
    character code; the sort is stable. *)
Fixpoint sorted_insert (x : node) (l : list node) : list node :=
  match l with
  | [] => [x]
  | y :: rest =>
      if String.leb x y then x :: l else y :: sorted_insert x rest
  end.

Definition sorted (l : list node) : list node :=
  fold_right sorted_insert [] l.

(** [Graph.neighbors]; the function falls off its end, returning [None],
    when the identifier has no adjacency entry. *)
Definition neighbors (g : Graph) (node_id : node) : option (list node) :=
  match dget node_id (edges g) with
  | Some adj => Some (sorted (dkeys adj))
  | None => None
  end.

(** [Graph.get_successors] *)
Definition get_successors (g : Graph) (node_id : node) : result (list node) :=
  if directed g && dmem node_id (edges g) then
    adj <- lookup node_id (edges g) ;; Ok (sorted (dkeys adj))
  else Raise ValueError.

(** [Graph.get_predecessors] *)
Definition get_predecessors (g : Graph) (node_id : node)
  : result (list node) :=
  if directed g && dmem node_id (nodes g) then
    Ok (append_parents g node_id [])
  else Raise ValueError.

(** The position of the first occurrence of [x] in [l]. *)
Fixpoint index_of (x : node) (l : list node) : nat :=
  match l with
  | [] => 0
  | y :: rest => if key_eqb y x then 0 else S (index_of x rest)
  end.

(** The order [sorted] sorts identifiers by, and its strict part. *)
Definition str_le (a b : node) : Prop := String.leb a b = true.
Definition str_lt (a b : node) : Prop := String.ltb a b = true.

(** Some edge leaving an explored node is classified BACK EDGE. *)
Definition back_seen (r : dfs_maps) : Prop :=
  exists a b, dget (a, b) (d_classification r) = Some BACK_EDGE /\
              explored (dget a (d_state r)).

(** The FINISHED nodes can be listed, each once, every one after all its
    successors. *)
Definition finished_order (g : Graph) (r : dfs_maps) : Prop :=
  exists fl, NoDup fl /\
    (forall x, In x fl <-> dget x (d_state r) = Some FINISHED) /\
    (forall u w, In u fl -> edge g u w -> before fl w u).

(** What [dfs] knows at any moment: a BACK EDGE has been recorded, or none
    has and the finished nodes are ordered. *)
Definition dfs_verdict (g : Graph) (r : dfs_maps) : Prop :=
  back_seen r \/ (no_back r /\ finished_order g r).

(** What the dictionaries of [dfs] record at any moment. *)
Record dfs_records (g : Graph) (r : dfs_maps) : Prop := mkDfsRecords {
  dr_keys : forall x y c,
      dget (x, y) (d_classification r) = Some c ->
      edge g x y /\ explored (dget x (d_state r));
  dr_tree : forall x y,
      dget y (d_predecessor r) = Some (Some x) ->
      dget (x, y) (d_classification r) = Some TREE_EDGE;
  dr_classified : forall x y,
      dget x (d_state r) = Some FINISHED -> edge g x y ->
      dget (x, y) (d_classification r) <> None;
  dr_times : forall x,
      dget x (d_state r) = Some FINISHED ->
      exists td, dget x (d_discovered r) = Some td /\
                 dget x (d_finished r) = Some (td + 1)
}.

(** How [dfs] numbers the nodes it has entered: one more than the
    predecessor, 1 without predecessor. *)
Record dfs_depths (g : Graph) (r : dfs_maps) : Prop := mkDfsDepths {
  dd_node : forall x y,
      dget y (d_predecessor r) = Some (Some x) -> has_node g y;
  dd_src : forall x y,
      dget y (d_predecessor r) = Some (Some x) ->
      explored (dget x (d_state r));
  dd_child : forall x y,
      dget y (d_predecessor r) = Some (Some x) ->
      explored (dget y (d_state r)) ->
      exists td, dget x (d_discovered r) = Some td /\
                 dget y (d_discovered r) = Some (td + 1);
  dd_root : forall y,
      dget y (d_predecessor r) = Some None ->
      explored (dget y (d_state r)) ->
      dget y (d_discovered r) = Some 1
}.

(** * Properties *)

(** ** Dictionary and list facts *)

Section DictFacts.
Context {K V : Type} `{Key K}.
Implicit Types (k x : K) (d : dict K V).

Lemma key_eqb_refl k : key_eqb k k = true.
Proof. apply key_eqb_eq; reflexivity. Qed.

Lemma key_eqb_neq k x : key_eqb k x = false <-> k <> x.
Proof.
  split.
  - intros E ->. rewrite key_eqb_refl in E. discriminate.
  - intros N. destruct (key_eqb k x) eqn:E; auto.
    apply key_eqb_eq in E. contradiction.
Qed.

Lemma key_eqb_sym k x : key_eqb k x = key_eqb x k.
Proof.
  destruct (key_eqb x k) eqn:E.
  - apply key_eqb_eq in E. subst. apply key_eqb_refl.
  - apply key_eqb_neq. apply key_eqb_neq in E. congruence.
Qed.

Lemma key_dec k x : {k = x} + {k <> x}.
Proof.
  destruct (key_eqb k x) eqn:E.
  - left. apply key_eqb_eq. exact E.
  - right. apply key_eqb_neq. exact E.
Qed.

Lemma dget_dset x k (v : V) d :
  dget x (dset k v d) = if key_eqb k x then Some v else dget x d.
Proof.
  induction d as [|[k' v'] rest IH]; simpl.
  - destruct (key_eqb k x); reflexivity.
  - destruct (key_eqb k' k) eqn:E; simpl.
    + apply key_eqb_eq in E. subst k'.
      destruct (key_eqb k x); reflexivity.
    + destruct (key_eqb k' x) eqn:E'.
      * apply key_eqb_eq in E'. subst k'.
        rewrite key_eqb_sym, E. reflexivity.
      * exact IH.
Qed.

Lemma dget_dset_same k (v : V) d : dget k (dset k v d) = Some v.
Proof. rewrite dget_dset, key_eqb_refl. reflexivity. Qed.

Lemma dget_dset_other x k (v : V) d :
  k <> x -> dget x (dset k v d) = dget x d.
Proof.
  intros N. rewrite dget_dset.
  apply key_eqb_neq in N. rewrite N. reflexivity.
Qed.

Lemma dget_None_iff k d : dget k d = None <-> ~ In k (dkeys d).
Proof.
  induction d as [|[k' v'] rest IH]; simpl.
  - tauto.
  - destruct (key_eqb k' k) eqn:E.
    + apply key_eqb_eq in E. split; [discriminate | tauto].
    + apply key_eqb_neq in E. rewrite IH. tauto.
Qed.

Lemma dget_Some_In k d (v : V) : dget k d = Some v -> In k (dkeys d).
Proof.
  intros E. destruct (in_dec key_dec k (dkeys d)) as [I|N]; auto.
  apply dget_None_iff in N. congruence.
Qed.

Lemma In_dget_Some k d : In k (dkeys d) -> exists v : V, dget k d = Some v.
Proof.
  intros I. destruct (dget k d) as [v|] eqn:E; eauto.
  apply dget_None_iff in E. contradiction.
Qed.

Lemma dmem_In k d : dmem k d = true <-> In k (dkeys d).
Proof.
  unfold dmem. split.
  - destruct (dget k d) eqn:E; [intros _; eapply dget_Some_In; eauto
                               | discriminate].
  - intros I. apply In_dget_Some in I. destruct I as [v ->]. reflexivity.
Qed.

Lemma dmem_false k d : dmem k d = false <-> ~ In k (dkeys d).
Proof.
  rewrite <- dmem_In. destruct (dmem k d); split; congruence.
Qed.

Lemma dkeys_dset_old k (v : V) d :
  In k (dkeys d) -> dkeys (dset k v d) = dkeys d.
Proof.
  induction d as [|[k' v'] rest IH]; simpl; [tauto|].
  intros I. destruct (key_eqb k' k) eqn:E; simpl; [reflexivity|].
  apply key_eqb_neq in E. f_equal. apply IH. tauto.
Qed.

Lemma dkeys_dset_new k (v : V) d :
  ~ In k (dkeys d) -> dkeys (dset k v d) = dkeys d ++ [k].
Proof.
  induction d as [|[k' v'] rest IH]; simpl; [reflexivity|].
  intros N. destruct (key_eqb k' k) eqn:E; simpl.
  - apply key_eqb_eq in E. tauto.
  - f_equal. apply IH. tauto.
Qed.

Lemma In_dkeys_dset x k (v : V) d :
  In x (dkeys (dset k v d)) <-> x = k \/ In x (dkeys d).
Proof.
  destruct (in_dec key_dec k (dkeys d)) as [I|N].
  - rewrite dkeys_dset_old by auto. split; [tauto|].
    intros [->|]; auto.
  - rewrite dkeys_dset_new by auto. rewrite in_app_iff. simpl.
    split; intros; intuition auto.
Qed.

Lemma NoDup_dkeys_dset k (v : V) d :
  NoDup (dkeys d) -> NoDup (dkeys (dset k v d)).
Proof.
  intros ND. destruct (in_dec key_dec k (dkeys d)) as [I|N].
  - rewrite dkeys_dset_old by auto. exact ND.
  - rewrite dkeys_dset_new by auto.
    apply NoDup_app; auto.
    + constructor; [simpl; tauto | constructor].
    + intros x Hx [<-|[]]. contradiction.
Qed.

Lemma list_mem_In k (l : list K) : list_mem k l = true <-> In k l.
Proof.
  unfold list_mem. rewrite existsb_exists. split.
  - intros [x [I E]]. apply key_eqb_eq in E. subst. exact I.
  - intros I. exists k. split; auto. apply key_eqb_refl.
Qed.

Lemma list_mem_false k (l : list K) : list_mem k l = false <-> ~ In k l.
Proof.
  rewrite <- list_mem_In. destruct (list_mem k l); split; congruence.
Qed.

Lemma In_list_remove x k (l : list K) :
  NoDup l -> (In x (list_remove k l) <-> In x l /\ x <> k).
Proof.
  induction 1 as [|y l N ND IH]; simpl; [tauto|].
  destruct (key_eqb y k) eqn:E.
  - apply key_eqb_eq in E. subst y. split.
    + intros I. split; auto. intros ->. contradiction.
    + intros [[->|I] N']; [congruence | exact I].
  - apply key_eqb_neq in E. simpl. rewrite IH. split.
    + intros [->|[I N']]; auto.
    + intros [[->|I] N']; auto.
Qed.

Lemma NoDup_list_remove k (l : list K) :
  NoDup l -> NoDup (list_remove k l).
Proof.
  induction 1 as [|y l N ND IH]; simpl; [constructor|].
  destruct (key_eqb y k) eqn:E; auto.
  constructor; auto.
  rewrite In_list_remove by auto. tauto.
Qed.

Lemma dget_dict_from_keys_gen x (l : list K) (v : V) d :
  dget x (fold_left (fun d k => dset k v d) l d) =
  if list_mem x l then Some v else dget x d.
Proof.
  revert d. induction l as [|k l IH]; intros d; simpl; [reflexivity|].
  rewrite IH, dget_dset. rewrite (key_eqb_sym x k).
  destruct (key_eqb k x); simpl; [|reflexivity].
  destruct (list_mem x l); reflexivity.
Qed.

Lemma dget_dict_from_keys x (l : list K) (v : V) :
  dget x (dict_from_keys l v) = if list_mem x l then Some v else None.
Proof. unfold dict_from_keys. rewrite dget_dict_from_keys_gen. reflexivity. Qed.
End DictFacts.

(** Case analysis on a key comparison. *)
Ltac key_cases a b :=
  let E := fresh "E" in
  destruct (key_eqb a b) eqn:E;
  [apply key_eqb_eq in E; try subst | apply key_eqb_neq in E].

(** ** Facts about node and edge insertion *)

Lemma dmem_dset {K V : Type} `{Key K} (x k : K) (v : V) (d : dict K V) :
  dmem x (dset k v d) = key_eqb k x || dmem x d.
Proof.
  unfold dmem. rewrite dget_dset. destruct (key_eqb k x); reflexivity.
Qed.

Lemma edge_iff g u v :
  edge g u v <-> exists adj, dget u (edges g) = Some adj /\ In v (dkeys adj).
Proof.
  unfold edge, edgeb. split.
  - destruct (dget u (edges g)) as [adj|]; [|discriminate].
    intros M. exists adj. split; auto. apply dmem_In. exact M.
  - intros [adj [-> I]]. apply dmem_In. exact I.
Qed.

Lemma has_node_edges g n : WF g -> (has_node g n <-> In n (dkeys (edges g))).
Proof. intros W. unfold has_node. rewrite (wf_keys g W). tauto. Qed.

Lemma has_node_adj g n :
  WF g -> has_node g n -> exists adj, dget n (edges g) = Some adj.
Proof.
  intros W I. apply In_dget_Some. apply (has_node_edges g n W). exact I.
Qed.

Lemma edge_has_nodes g u v : WF g -> edge g u v -> has_node g u /\ has_node g v.
Proof.
  intros W E. apply edge_iff in E. destruct E as [adj [G I]]. split.
  - apply (has_node_edges g u W). eapply dget_Some_In; eauto.
  - eapply wf_adj_closed; eauto.
Qed.

Lemma edgeb_no_node_l g u v : WF g -> ~ has_node g u -> edgeb g u v = false.
Proof.
  intros W N. destruct (edgeb g u v) eqn:E; auto.
  destruct (edge_has_nodes g u v W E). contradiction.
Qed.

Lemma edgeb_no_node_r g u v : WF g -> ~ has_node g v -> edgeb g u v = false.
Proof.
  intros W N. destruct (edgeb g u v) eqn:E; auto.
  destruct (edge_has_nodes g u v W E). contradiction.
Qed.

Lemma WF_init d w wa : WF (Graph_init d w wa).
Proof.
  constructor; simpl; try constructor; intros; discriminate.
Qed.

Lemma has_node_with_node g n r x :
  has_node (with_node g n r) x <-> x = n \/ has_node g x.
Proof. unfold has_node. simpl. apply In_dkeys_dset. Qed.

Lemma WF_with_node g n r : WF g -> ~ has_node g n -> WF (with_node g n r).
Proof.
  intros W N. constructor; simpl.
  - apply NoDup_dkeys_dset. apply (wf_nodes_nodup g W).
  - rewrite !dkeys_dset_new; auto.
    + f_equal. apply (wf_keys g W).
    + rewrite (wf_keys g W). exact N.
  - intros u adj. rewrite dget_dset. key_cases n u.
    + intros E. inversion E. constructor.
    + apply (wf_adj_nodup g W).
  - intros u adj v. rewrite dget_dset. key_cases n u.
    + intros E. inversion E. subst adj. simpl. tauto.
    + intros G I. apply has_node_with_node. right.
      eapply wf_adj_closed; eauto.
Qed.

Lemma edgeb_with_node g n r a b :
  WF g -> ~ has_node g n -> edgeb (with_node g n r) a b = edgeb g a b.
Proof.
  intros W N. unfold edgeb at 1. simpl. rewrite dget_dset. key_cases n a.
  - rewrite edgeb_no_node_l; auto.
  - reflexivity.
Qed.

Lemma add_node_cases h g n a :
  (exists r, dget n (nodes g) = Some r /\ add_node h g n a = (h, g, r)) \/
  (~ has_node g n /\ exists h' r, add_node h g n a = (h', with_node g n r, r)).
Proof.
  unfold add_node. destruct (dget n (nodes g)) as [r|] eqn:E.
  - left. eauto.
  - right. split; [apply dget_None_iff; exact E|].
    destruct (attrs_or_new h a) as [h1 r]. eauto.
Qed.

Lemma ensure_node_cases h g n a :
  (has_node g n /\ ensure_node h g n a = (h, g)) \/
  (~ has_node g n /\ exists h' r, ensure_node h g n a = (h', with_node g n r)).
Proof.
  unfold ensure_node. destruct (dmem n (nodes g)) eqn:M.
  - left. split; auto. apply dmem_In. exact M.
  - right. apply dmem_false in M. split; auto.
    destruct (add_node_cases h g n a) as [[r [G _]]|[_ [h' [r ->]]]].
    + apply dget_Some_In in G. contradiction.
    + simpl. eauto.
Qed.

Lemma WF_set_roots_leaves g r l : WF g -> WF (set_roots_leaves g r l).
Proof. intros [A B C D]. constructor; simpl; auto. Qed.

Lemma WF_set_adj g u adj :
  WF g -> has_node g u -> NoDup (dkeys adj) ->
  (forall y, In y (dkeys adj) -> has_node g y) ->
  WF (set_edges g (dset u adj (edges g))).
Proof.
  intros W I ND CL. constructor; simpl.
  - apply (wf_nodes_nodup g W).
  - rewrite dkeys_dset_old; [apply (wf_keys g W)|].
    apply (has_node_edges g u W). exact I.
  - intros x adj'. rewrite dget_dset. key_cases u x.
    + intros E. inversion E. subst. exact ND.
    + apply (wf_adj_nodup g W).
  - intros x adj' v. rewrite dget_dset. key_cases u x.
    + intros E. inversion E. subst. apply CL.
    + apply (wf_adj_closed g W).
Qed.

Lemma edgeb_set_adj g u adj x y :
  edgeb (set_edges g (dset u adj (edges g))) x y =
  if key_eqb u x then dmem y adj else edgeb g x y.
Proof.
  unfold edgeb. simpl. rewrite dget_dset.
  destruct (key_eqb u x); reflexivity.
Qed.

(** Re-inserting an existing edge changes nothing. *)
Lemma link_nodes_existing h g u v a adj r :
  dget u (edges g) = Some adj -> dget v adj = Some r ->
  link_nodes h g u v a = Ok (h, g, r).
Proof.
  intros G1 G2. unfold link_nodes, lookup. rewrite G1. simpl.
  rewrite G2. reflexivity.
Qed.

(** What inserting a new edge does, once both endpoints are nodes. *)
Lemma link_nodes_new h g u v a :
  WF g -> has_node g u -> has_node g v -> edgeb g u v = false ->
  exists h' g' r,
    link_nodes h g u v a = Ok (h', g', r) /\
    WF g' /\ nodes g' = nodes g /\ directed g' = directed g /\
    (forall x y, edgeb g' x y =
       edgeb g x y || (key_eqb u x && key_eqb v y)
       || (negb (directed g) && key_eqb v x && key_eqb u y)) /\
    roots g' =
      (if directed g && list_mem v (roots g)
       then list_remove v (roots g) else roots g) /\
    leaves g' =
      (if directed g && list_mem u (leaves g)
       then list_remove u (leaves g) else leaves g).
Proof.
  intros W Iu Iv Euv. unfold link_nodes.
  destruct (has_node_adj g u W Iu) as [adj1 G1].
  unfold lookup at 1. rewrite G1. simpl.
  assert (M : dmem v adj1 = false) by (unfold edgeb in Euv; rewrite G1 in Euv; auto).
  destruct (dget v adj1) as [r|] eqn:Gv.
  { unfold dmem in M. rewrite Gv in M. discriminate. }
  destruct (attrs_or_new h a) as [h1 r].
  set (adj1' := dset v r adj1).
  assert (W1 : WF (set_edges g (dset u adj1' (edges g)))).
  { apply WF_set_adj; auto.
    - apply NoDup_dkeys_dset. eapply wf_adj_nodup; eauto.
    - intros y Hy. apply In_dkeys_dset in Hy. destruct Hy as [->|Hy]; auto.
      eapply wf_adj_closed; eauto. }
  assert (E1 : forall x y,
             edgeb (set_edges g (dset u adj1' (edges g))) x y =
             edgeb g x y || (key_eqb u x && key_eqb v y)).
  { intros x y. rewrite edgeb_set_adj. key_cases u x; simpl.
    - unfold adj1'. rewrite dmem_dset. unfold edgeb. rewrite G1.
      apply orb_comm.
    - rewrite orb_false_r. reflexivity. }
  destruct (directed g) eqn:D; simpl negb; cbv iota.
  - (* directed *)
    eexists _, _, r. split; [reflexivity|].
    split; [apply WF_set_roots_leaves; exact W1|].
    split; [reflexivity|]. split; [exact D|].
    split; [|split; reflexivity].
    intros x y. rewrite orb_false_r. apply E1.
  - (* undirected *)
    assert (Iv' : has_node (set_edges g (dset u adj1' (edges g))) v)
      by exact Iv.
    destruct (has_node_adj _ v W1 Iv') as [adj2 G2]. simpl in G2.
    unfold lookup. rewrite G2. simpl.
    eexists _, _, r. split; [reflexivity|].
    split.
    { apply (WF_set_adj (set_edges g (dset u adj1' (edges g))) v
               (dset u r adj2)); auto.
      - apply NoDup_dkeys_dset. eapply (wf_adj_nodup _ W1); eauto.
      - intros y Hy. apply In_dkeys_dset in Hy. destruct Hy as [->|Hy]; auto.
        eapply (wf_adj_closed _ W1); eauto. }
    split; [reflexivity|]. split; [exact D|].
    split; [|split; reflexivity].
    intros x y.
    change (set_edges g (dset v (dset u r adj2) (dset u adj1' (edges g))))
      with (set_edges (set_edges g (dset u adj1' (edges g)))
              (dset v (dset u r adj2)
                 (edges (set_edges g (dset u adj1' (edges g)))))).
    rewrite edgeb_set_adj.
    assert (A2 : forall y, dmem y adj2 =
               edgeb (set_edges g (dset u adj1' (edges g))) v y).
    { intros y'. unfold edgeb. simpl. rewrite G2. reflexivity. }
    key_cases v x.
    + rewrite dmem_dset, A2, E1. simpl.
      destruct (key_eqb u y), (edgeb g x y), (key_eqb u x), (key_eqb x y);
        reflexivity.
    + rewrite E1. simpl. rewrite orb_false_r. reflexivity.
Qed.

(** ** Loop invariants for [foldM] *)

Section FoldM.
Context {A S : Type}.
Variable f : A -> S -> result S.
Variable I : list A -> S -> Prop.

(** Total form: every step returns and re-establishes the invariant for
    the rest of the iteration. *)
Lemma foldM_inv_total l s :
  I l s ->
  (forall x rest s0, I (x :: rest) s0 -> exists s1, f x s0 = Ok s1 /\ I rest s1) ->
  exists s', foldM f l s = Ok s' /\ I [] s'.
Proof.
  intros H0 Hstep. revert s H0.
  induction l as [|x rest IH]; intros s H0; simpl.
  - eauto.
  - destruct (Hstep x rest s H0) as [s1 [E1 H1]].
    rewrite E1. simpl. apply IH. exact H1.
Qed.

(** Partial form: the invariant follows every step that returns. *)
Lemma foldM_inv_partial l s s' :
  foldM f l s = Ok s' ->
  I l s ->
  (forall x rest s0 s1, I (x :: rest) s0 -> f x s0 = Ok s1 -> I rest s1) ->
  I [] s'.
Proof.
  intros E H0 Hstep. revert s E H0.
  induction l as [|x rest IH]; intros s E H0; simpl in E.
  - inversion E. subst. exact H0.
  - destruct (f x s) as [s1| |] eqn:E1; simpl in E; try discriminate.
    eapply IH; eauto.
Qed.
End FoldM.

Lemma bind_Ok {A B : Type} (c : result A) (k : A -> result B) (b : B) :
  bind c k = Ok b -> exists a, c = Ok a /\ k a = Ok b.
Proof. destruct c; simpl; intros E; try discriminate. eauto. Qed.

(** ** Invariants of built graphs *)

Section BuildInvariant.
Variable P : Graph -> Prop.
Hypothesis P_node : forall g n r,
    WF g -> P g -> ~ has_node g n -> P (with_node g n r).
Hypothesis P_link : forall h g u v a h' g' r,
    WF g -> P g -> has_node g u -> has_node g v -> edgeb g u v = false ->
    link_nodes h g u v a = Ok (h', g', r) -> P g'.

Lemma ensure_node_inv h g n a :
  WF g -> P g ->
  WF (snd (ensure_node h g n a)) /\ P (snd (ensure_node h g n a)) /\
  has_node (snd (ensure_node h g n a)) n /\
  forall x, has_node g x -> has_node (snd (ensure_node h g n a)) x.
Proof.
  intros W Pg.
  destruct (ensure_node_cases h g n a) as [[I ->]|[N [h' [r ->]]]]; simpl.
  - auto.
  - split; [apply WF_with_node; auto|].
    split; [apply P_node; auto|].
    split; [apply has_node_with_node; auto|].
    intros x Hx. apply has_node_with_node. auto.
Qed.

Lemma add_node_inv h g n a :
  WF g -> P g ->
  WF (snd (fst (add_node h g n a))) /\ P (snd (fst (add_node h g n a))).
Proof.
  intros W Pg.
  destruct (add_node_cases h g n a) as [[r [_ ->]]|[N [h' [r ->]]]]; simpl.
  - auto.
  - split; [apply WF_with_node; auto | apply P_node; auto].
Qed.

Lemma add_edge_inv h g u v a ua va :
  WF g -> P g ->
  exists h' g' r,
    add_edge h g u v a ua va = Ok (h', g', r) /\ WF g' /\ P g'.
Proof.
  intros W Pg. unfold add_edge.
  destruct (ensure_node_inv h g u ua W Pg) as [W1 [P1 [I1 K1]]].
  destruct (ensure_node h g u ua) as [h1 g1]. simpl in *.
  destruct (ensure_node_inv h1 g1 v va W1 P1) as [W2 [P2 [I2 K2]]].
  destruct (ensure_node h1 g1 v va) as [h2 g2]. simpl in *.
  assert (I1' : has_node g2 u) by auto.
  destruct (edgeb g2 u v) eqn:E.
  - unfold edgeb in E.
    destruct (dget u (edges g2)) as [adj|] eqn:G1; [|discriminate].
    unfold dmem in E.
    destruct (dget v adj) as [r|] eqn:G2; [|discriminate].
    exists h2, g2, r.
    split; [eapply link_nodes_existing; eauto | split; assumption].
  - destruct (link_nodes_new h2 g2 u v a W2 I1' I2 E)
      as [h' [g' [r [L [W' _]]]]].
    exists h', g', r. split; [exact L|]. split; [exact W'|].
    apply (P_link h2 g2 u v a h' g' r); assumption.
Qed.

Lemma run_op_inv o hg :
  WF (snd hg) -> P (snd hg) ->
  exists hg', run_op o hg = Ok hg' /\ WF (snd hg') /\ P (snd hg').
Proof.
  intros W Pg. destruct o as [n a|u v a ua va]; simpl.
  - eexists. split; [reflexivity|]. apply add_node_inv; auto.
  - destruct (add_edge_inv (fst hg) (snd hg) u v a ua va W Pg)
      as [h' [g' [r [E [W' P']]]]].
    rewrite E. simpl. eexists. split; [reflexivity|]. auto.
Qed.

(** Every build script runs to completion and yields a graph that is
    well formed and satisfies [P]. *)
Lemma build_inv d ops :
  P (Graph_init d false None) ->
  exists h g, build d ops = Ok (h, g) /\ WF g /\ P g.
Proof.
  intros P0. unfold build.
  destruct (foldM_inv_total run_op
              (fun _ hg => WF (snd hg) /\ P (snd hg)) ops
              ([], Graph_init d false None)) as [[h g] [E [W Pg]]].
  - split; [apply WF_init | exact P0].
  - intros o rest hg [W Pg].
    destruct (run_op_inv o hg W Pg) as [hg' [E [W' P']]]. eauto.
  - exists h, g. auto.
Qed.
End BuildInvariant.

Lemma build_WF d ops h g : build d ops = Ok (h, g) -> WF g.
Proof.
  intros E.
  destruct (build_inv (fun _ => True) (fun _ _ _ _ _ _ => I)
              (fun _ _ _ _ _ _ _ _ _ _ _ _ _ _ => I) d ops I)
    as [h' [g' [E' [W _]]]].
  rewrite E in E'. inversion E'. subst. exact W.
Qed.

Lemma link_nodes_directed h g u v a h' g' r :
  WF g -> has_node g u -> has_node g v -> edgeb g u v = false ->
  link_nodes h g u v a = Ok (h', g', r) -> directed g' = directed g.
Proof.
  intros W Iu Iv Euv L.
  destruct (link_nodes_new h g u v a W Iu Iv Euv)
    as [h2 [g2 [r2 [L2 [_ [_ [D2 _]]]]]]].
  rewrite L in L2. inversion L2. subst. exact D2.
Qed.

Lemma build_directed d ops h g : build d ops = Ok (h, g) -> directed g = d.
Proof.
  intros E.
  assert (B : exists h g, build d ops = Ok (h, g) /\ WF g /\ directed g = d).
  { apply (build_inv (fun g => directed g = d)).
    - intros g0 n r _ D _. exact D.
    - intros h0 g0 u v a h1 g1 r W D Iu Iv Euv L.
      rewrite (link_nodes_directed h0 g0 u v a h1 g1 r); auto.
    - reflexivity. }
  destruct B as [h' [g' [E' [_ D]]]].
  rewrite E in E'. inversion E'. subst h' g'. exact D.
Qed.

(** ** Root and leaf bookkeeping *)

Lemma In_remove_if_mem (x v : node) (l : list node) :
  NoDup l ->
  (In x (if list_mem v l then list_remove v l else l) <-> In x l /\ x <> v).
Proof.
  intros ND. destruct (list_mem v l) eqn:M.
  - apply In_list_remove. exact ND.
  - apply list_mem_false in M. split.
    + intros I. split; auto. intros ->. contradiction.
    + tauto.
Qed.

Lemma NoDup_remove_if_mem (v : node) (l : list node) :
  NoDup l -> NoDup (if list_mem v l then list_remove v l else l).
Proof.
  intros ND. destruct (list_mem v l); auto. apply NoDup_list_remove. exact ND.
Qed.

Lemma NoDup_snoc (x : node) (l : list node) :
  NoDup l -> ~ In x l -> NoDup (l ++ [x]).
Proof.
  intros ND N. apply NoDup_app; auto.
  - constructor; [simpl; tauto | constructor].
  - intros y Hy [<-|[]]. contradiction.
Qed.

Lemma roots_leaves_with_node g n r :
  WF g -> directed g = true /\ roots_leaves_exact g -> ~ has_node g n ->
  directed (with_node g n r) = true /\ roots_leaves_exact (with_node g n r).
Proof.
  intros W [D [NR NL HR HL]] N. split; [exact D|].
  constructor; simpl; rewrite D.
  - apply NoDup_snoc; auto. rewrite HR. tauto.
  - apply NoDup_snoc; auto. rewrite HL. tauto.
  - intros x. rewrite in_app_iff, has_node_with_node, HR. simpl. split.
    + intros [[I E]|[<-|[]]].
      * split; auto. intros u. rewrite edgeb_with_node; auto.
      * split; auto. intros u. rewrite edgeb_with_node; auto.
        apply edgeb_no_node_r; auto.
    + intros [[->|I] E]; auto.
      left. split; auto. intros u. rewrite <- (edgeb_with_node g n r); auto.
  - intros x. rewrite in_app_iff, has_node_with_node, HL. simpl. split.
    + intros [[I E]|[<-|[]]].
      * split; auto. intros v. rewrite edgeb_with_node; auto.
      * split; auto. intros v. rewrite edgeb_with_node; auto.
        apply edgeb_no_node_l; auto.
    + intros [[->|I] E]; auto.
      left. split; auto. intros v. rewrite <- (edgeb_with_node g n r); auto.
Qed.

Lemma roots_leaves_link h g u v a h' g' r :
  WF g -> directed g = true /\ roots_leaves_exact g ->
  has_node g u -> has_node g v -> edgeb g u v = false ->
  link_nodes h g u v a = Ok (h', g', r) ->
  directed g' = true /\ roots_leaves_exact g'.
Proof.
  intros W [D [NR NL HR HL]] Iu Iv Euv L.
  destruct (link_nodes_new h g u v a W Iu Iv Euv)
    as [h2 [g2 [r2 [L2 [W2 [EN [D2 [EE [ER EL]]]]]]]]].
  rewrite L in L2. inversion L2. subst h2 g2 r2. clear L2.
  rewrite D in *. simpl in ER, EL, EE.
  assert (HN : forall x, has_node g' x <-> has_node g x).
  { intros x. unfold has_node. rewrite EN. tauto. }
  split; [exact D2|].
  constructor.
  - rewrite ER. apply NoDup_remove_if_mem. exact NR.
  - rewrite EL. apply NoDup_remove_if_mem. exact NL.
  - intros x. rewrite ER, In_remove_if_mem, HR, HN by exact NR. split.
    + intros [[I E] Nx]. split; auto. intros w. rewrite EE, E.
      rewrite orb_false_r. simpl.
      apply andb_false_iff. right. apply key_eqb_neq. congruence.
    + intros [I E]. split; [split; auto|].
      * intros w. specialize (E w). rewrite EE in E.
        rewrite orb_false_r in E. apply orb_false_iff in E. tauto.
      * intros ->. specialize (E u). rewrite EE, !key_eqb_refl in E.
        rewrite orb_false_r in E. apply orb_false_iff in E.
        destruct E. discriminate.
  - intros x. rewrite EL, In_remove_if_mem, HL, HN by exact NL. split.
    + intros [[I E] Nx]. split; auto. intros w. rewrite EE, E.
      rewrite orb_false_r. simpl.
      apply andb_false_iff. left. apply key_eqb_neq. congruence.
    + intros [I E]. split; [split; auto|].
      * intros w. specialize (E w). rewrite EE in E.
        rewrite orb_false_r in E. apply orb_false_iff in E. tauto.
      * intros ->. specialize (E v). rewrite EE, !key_eqb_refl in E.
        rewrite orb_false_r in E. apply orb_false_iff in E.
        destruct E. discriminate.
Qed.

Lemma roots_leaves_init w wa : roots_leaves_exact (Graph_init true w wa).
Proof.
  constructor; simpl; try constructor; try tauto.
Qed.

(** C8: a directed graph built by any sequence of [add_node] and [add_edge]
    calls has, in [roots], exactly the nodes without incoming edge and, in
    [leaves], exactly the nodes without outgoing edge, each once; the script
    itself always runs to completion. Every prefix of a script is a script,
    so this holds after every call. *)
Theorem roots_leaves_exact_built (ops : list op) :
  exists h g, build true ops = Ok (h, g) /\ roots_leaves_exact g.
Proof.
  destruct (build_inv (fun g => directed g = true /\ roots_leaves_exact g)
              roots_leaves_with_node roots_leaves_link true ops)
    as [h [g [E [_ [_ RL]]]]].
  - split; [reflexivity | apply roots_leaves_init].
  - exists h, g. auto.
Qed.

Lemma graph_of_WF d ops : WF (graph_of d ops).
Proof.
  unfold graph_of. destruct (build d ops) as [[h g]| |] eqn:E.
  - eapply build_WF; eauto.
  - apply WF_init.
  - apply WF_init.
Qed.

(** ** Idempotent insertion *)

(** C7: on a graph where the ordered pair (u, v) already has an edge,
    [add_edge(u, v, attrs2)] with any payloads leaves the store and the whole
    graph unchanged and returns the reference already stored for the edge;
    [add_node] on an existing id likewise changes nothing and returns the
    stored attributes. *)
Theorem add_edge_add_node_idempotent (h : store) (g : Graph) (W : WF g) :
  (forall u v adj r attrs2 u_attrs v_attrs,
      dget u (edges g) = Some adj -> dget v adj = Some r ->
      add_edge h g u v attrs2 u_attrs v_attrs = Ok (h, g, r)) /\
  (forall n r attrs2,
      dget n (nodes g) = Some r -> add_node h g n attrs2 = (h, g, r)).
Proof.
  split.
  - intros u v adj r a ua va G1 G2. unfold add_edge.
    assert (Iu : has_node g u).
    { apply (has_node_edges g u W). eapply dget_Some_In; eauto. }
    assert (Iv : has_node g v).
    { eapply wf_adj_closed; eauto. eapply dget_Some_In; eauto. }
    destruct (ensure_node_cases h g u ua) as [[_ ->]|[N _]]; [|contradiction].
    destruct (ensure_node_cases h g v va) as [[_ ->]|[N _]]; [|contradiction].
    eapply link_nodes_existing; eauto.
  - intros n r a G. unfold add_node. rewrite G. reflexivity.
Qed.

Lemma add_edge_add_node_idempotent_witness :
  add_edge [[]; []; []] arrow_graph "A" "B" (Some 1) (Some 0) None
    = Ok ([[]; []; []], arrow_graph, 2) /\
  add_node [[]; []; []] arrow_graph "B" (Some 0)
    = ([[]; []; []], arrow_graph, 1).
Proof.
  destruct (add_edge_add_node_idempotent [[]; []; []] arrow_graph
              (graph_of_WF true [plain_edge "A" "B"])) as [HE HN].
  split.
  - apply (HE "A" "B" [("B", 2)] 2 (Some 1) (Some 0) None); reflexivity.
  - apply (HN "B" 1 (Some 0)); reflexivity.
Defined.

(** ** Breadth-first search from an absent node *)

(** C10: [bfs] has no guard of its own: started at an identifier that is not
    in the node table, the first iteration fails on [self.edges[u]] with a
    KeyError, not the ValueError of the guarded entry points. *)
Theorem bfs_absent_start_KeyError (g : Graph) (start : node) (fuel : nat) :
  WF g -> ~ has_node g start -> 0 < fuel ->
  bfs g fuel start = Raise KeyError.
Proof.
  intros W N F. destruct fuel as [|fuel]; [lia|].
  unfold bfs. simpl. unfold lookup.
  assert (G : dget start (edges g) = None).
  { apply dget_None_iff. rewrite (wf_keys g W). exact N. }
  rewrite G. reflexivity.
Qed.

Lemma bfs_absent_start_KeyError_witness :
  bfs arrow_graph 5 "Z" = Raise KeyError.
Proof.
  apply bfs_absent_start_KeyError.
  - apply graph_of_WF.
  - vm_compute. intros [E|[E|[]]]; discriminate.
  - lia.
Defined.

(** ** Evaluations on sample graphs *)

(** C1: on A -> B, B -> D, A -> C the root A reaches the leaf D by the
    shortest path A, B, D of 2 edges and the leaf C by 1 edge; the inner loop
    resets [depths[A]] at every leaf, so [max_depth] returns the length to the
    leaf listed last (C), 1, where the maximum over all leaves is 2. *)
Theorem max_depth_keeps_last_leaf_only :
  roots fork_graph = ["A"] /\ leaves fork_graph = ["D"; "C"] /\
  get_shortest_path fork_graph 10 "A" "D" = Ok ["A"; "B"; "D"] /\
  get_shortest_path fork_graph 10 "A" "C" = Ok ["A"; "C"] /\
  max_depth fork_graph 10 = Ok 1 /\
  max_depth_spec fork_graph 10 = Ok 2.
Proof. vm_compute. repeat split; reflexivity. Qed.

(** C2: on A -> B the visit of B is a recursive call below A, yet B finishes
    at time 3 and A at time 2: the time counter is passed by value, so a
    node's finish time is its own discovery time plus one and lies before
    the finish times of its descendants. *)
Theorem dfs_parent_finishes_before_child :
  exists r, dfs arrow_graph 10 = Ok r /\
    dget "B" (d_predecessor r) = Some (Some "A") /\
    dget "A" (d_discovered r) = Some 1 /\ dget "A" (d_finished r) = Some 2 /\
    dget "B" (d_discovered r) = Some 2 /\ dget "B" (d_finished r) = Some 3.
Proof. eexists. vm_compute. repeat split; reflexivity. Qed.

Lemma descendants_loop_self_loop (fuel : nat) (descendants : list node) :
  descendants_loop loop_graph fuel descendants ["A"] = OutOfFuel.
Proof.
  revert descendants. induction fuel as [|fuel IH]; intros descendants.
  - reflexivity.
  - simpl. apply IH.
Qed.

Lemma ascendants_loop_self_loop (fuel : nat) (ascendants : list node) :
  ascendants_loop loop_graph fuel ascendants ["A"] = OutOfFuel.
Proof.
  revert ascendants. induction fuel as [|fuel IH]; intros ascendants.
  - reflexivity.
  - simpl. apply IH.
Qed.

(** C3: on the directed graph with the single edge A -> A the loops of
    [get_descendants] and [get_ascendants] push A again each time they pop
    it: no number of iterations lets either call return. *)
Theorem descendants_ascendants_diverge_on_cycle (fuel : nat) :
  get_descendants loop_graph fuel "A" = OutOfFuel /\
  get_ascendants loop_graph fuel "A" = OutOfFuel.
Proof.
  split.
  - apply descendants_loop_self_loop.
  - apply ascendants_loop_self_loop.
Qed.

(** ** Counting unexplored nodes *)

Lemma filter_length_le {A : Type} (f f' : A -> bool) (l : list A) :
  (forall x, f' x = true -> f x = true) ->
  List.length (filter f' l) <= List.length (filter f l).
Proof.
  intros M. induction l as [|a l IH]; simpl; auto.
  destruct (f' a) eqn:E'.
  - rewrite (M a E'). simpl. lia.
  - destruct (f a); simpl; lia.
Qed.

Lemma filter_length_lt {A : Type} (f f' : A -> bool) (l : list A) (v : A) :
  (forall x, f' x = true -> f x = true) ->
  In v l -> f v = true -> f' v = false ->
  List.length (filter f' l) < List.length (filter f l).
Proof.
  intros M I Fv F'v. induction l as [|a l IH]; simpl; [destruct I|].
  destruct I as [->|I].
  - rewrite Fv, F'v. simpl.
    pose proof (filter_length_le f f' l M). lia.
  - specialize (IH I). destruct (f' a) eqn:E'.
    + rewrite (M a E'). simpl. lia.
    + destruct (f a); simpl; lia.
Qed.

Lemma unexplored_count_le g (state : dict node color) :
  unexplored_count g state <= List.length (nodes g).
Proof.
  unfold unexplored_count, dkeys.
  rewrite <- (length_map fst (nodes g)).
  induction (map fst (nodes g)) as [|a l IH]; simpl; auto.
  destruct (is_unexplored (dget a state)); simpl; lia.
Qed.

(** Marking an unexplored node strictly lowers the count. *)
Lemma unexplored_count_mark g (state : dict node color) (v : node) (c : color) :
  has_node g v -> dget v state = Some UNEXPLORED -> c <> UNEXPLORED ->
  unexplored_count g (dset v c state) < unexplored_count g state.
Proof.
  intros I G N. unfold unexplored_count.
  apply filter_length_lt with (v := v); auto.
  - intros x. rewrite dget_dset. key_cases v x; auto.
    destruct c; simpl; congruence.
  - rewrite G. reflexivity.
  - rewrite dget_dset_same. destruct c; simpl; congruence.
Qed.

(** Re-marking an explored node leaves the count as it is. *)
Lemma unexplored_count_remark g (state : dict node color) (v : node)
    (c : color) :
  dget v state <> Some UNEXPLORED -> c <> UNEXPLORED ->
  unexplored_count g (dset v c state) = unexplored_count g state.
Proof.
  intros G N. unfold unexplored_count. f_equal.
  apply filter_ext. intros x. rewrite dget_dset. key_cases v x; auto.
  destruct c; try congruence; simpl;
    destruct (dget x state) as [[]|]; simpl; congruence.
Qed.

(** ** Breadth-first search *)

Lemma explored_not_unexplored (c : option color) :
  explored c -> c <> Some UNEXPLORED.
Proof. intros [->| ->]; discriminate. Qed.

Lemma explored_cases (c : color) :
  c = UNEXPLORED \/ explored (Some c).
Proof. destruct c; unfold explored; auto. Qed.

Lemma bfs_frame_refl m : bfs_frame m m.
Proof. intros x _. auto. Qed.

Lemma bfs_frame_trans m1 m2 m3 :
  bfs_frame m1 m2 -> bfs_frame m2 m3 -> bfs_frame m1 m3.
Proof.
  intros F1 F2 x Ex. destruct (F1 x Ex) as [A [B C]].
  assert (Ex2 : explored (dget x (b_state m2))) by (rewrite A; exact Ex).
  destruct (F2 x Ex2) as [A' [B' C']].
  repeat split; congruence.
Qed.

Section BfsFacts.
Variable g : Graph.
Hypothesis W : WF g.
Variable s : node.

(** One neighbour [v] of the dequeued node [u]. *)
Lemma bfs_visit_step k m u q v :
  bfs_inv g s k m (u :: q) ->
  dget u (b_distance m) = Some (Fin k) ->
  edge g u v ->
  exists m' q',
    bfs_visit u v (m, q) = Ok (m', q') /\
    bfs_inv g s k m' (u :: q') /\
    bfs_frame m m' /\
    (explored (dget v (b_state m')) /\
     exists n, dget v (b_distance m') = Some (Fin n) /\ n <= k + 1) /\
    unexplored_count g (b_state m') + List.length q'
      <= unexplored_count g (b_state m) + List.length q.
Proof.
  intros Inv Du E.
  destruct (edge_has_nodes g u v W E) as [Hu Hv].
  destruct (bi_total g s k m _ Inv v Hv) as [c Gv].
  assert (Su : dget u (b_state m) = Some DISCOVERED).
  { apply (bi_pending g s k m _ Inv). left. reflexivity. }
  unfold bfs_visit, lookup. rewrite Gv. simpl.
  destruct c.
  - (* v is discovered now *)
    rewrite Du. simpl.
    assert (Nuv : v <> u) by congruence.
    assert (Nx : forall x, explored (dget x (b_state m)) -> v <> x).
    { intros x Ex ->. apply explored_not_unexplored in Ex. congruence. }
    assert (NIv : ~ In v (u :: q)).
    { intros I. apply (bi_pending g s k m _ Inv) in I. congruence. }
    eexists _, _. split; [reflexivity|].
    split; [|split; [|split]].
    + destruct Inv as [Tot ND Pen Une Sta Tre Clo Fle Lev].
      constructor; simpl.
      * intros x Hx. rewrite dget_dset. key_cases v x; eauto.
      * change (NoDup ((u :: q) ++ [v])). apply NoDup_snoc; auto.
      * intros x. rewrite dget_dset. key_cases v x.
        -- split; auto. intros _. right. apply in_or_app. simpl. auto.
        -- rewrite <- Pen. simpl. rewrite in_app_iff. simpl.
           intuition congruence.
      * intros x. rewrite !dget_dset. key_cases v x; [discriminate|].
        apply Une.
      * destruct Sta as [S1 [S2 S3]].
        pose proof (Nx s S3) as Ns.
        rewrite !dget_dset_other by exact Ns. auto.
      * intros x. rewrite !dget_dset. key_cases v x.
        -- intros _. split; [exact Hv|].
           destruct (Tre u (or_introl Su)) as [_ [Ru _]].
           split; [eapply reach_step; eauto|].
           exists (k + 1). split; [reflexivity|].
           right. exists u, k.
           rewrite !dget_dset_other by auto.
           repeat split; auto. left. exact Su.
        -- intros Ex. destruct (Tre x Ex) as [Hx [Rx [n [Dx Px]]]].
           split; auto. split; auto. exists n. split; auto.
           destruct Px as [->|[u0 [n' [P1 [P2 [P3 [P4 P5]]]]]]]; auto.
           right. exists u0, n'.
           rewrite !dget_dset_other by (apply Nx; exact P3).
           repeat split; auto.
      * intros x y. rewrite !dget_dset. key_cases v x; [discriminate|].
        intros Fx Exy. destruct (Clo x y Fx Exy) as [n [n' [D1 [D2 L]]]].
        exists n, n'. split; auto. split; auto.
        key_cases v y; auto.
        destruct (Une y Gv) as [DI _]. congruence.
      * intros x. rewrite !dget_dset. key_cases v x; [discriminate|].
        apply Fle.
      * destruct Lev as [A [B [EAB [LA LB]]]].
        destruct A as [|a A].
        -- simpl in EAB. assert (Iu : In u B) by (rewrite <- EAB; left; auto).
           specialize (LB u Iu). rewrite Du in LB. inversion LB. lia.
        -- simpl in EAB. inversion EAB. subst a.
           exists (u :: A), (B ++ [v]). split.
           ++ simpl. rewrite app_assoc. reflexivity.
           ++ assert (Npend : forall x, In x (u :: q) -> v <> x).
              { intros x Ix. apply Nx. left.
                apply (proj1 (Pen x) Ix). }
              split.
              ** intros x Ix. rewrite dget_dset_other.
                 --- apply LA. exact Ix.
                 --- apply Npend. destruct Ix as [->|Ix]; [left; auto|].
                     right. rewrite H1. apply in_or_app. auto.
              ** intros x Ix. apply in_app_or in Ix.
                 destruct Ix as [Ix|[<-|[]]].
                 --- rewrite dget_dset_other; [apply LB; exact Ix|].
                     apply Npend. right. rewrite H1.
                     apply in_or_app. auto.
                 --- rewrite dget_dset_same. reflexivity.
    + intros x Ex. simpl. rewrite !dget_dset_other by (apply Nx; exact Ex).
      auto.
    + simpl. rewrite dget_dset_same. split; [left; reflexivity|].
      exists (k + 1). rewrite dget_dset_same. split; [reflexivity | lia].
    + simpl. rewrite length_app. simpl.
      pose proof (unexplored_count_mark g (b_state m) v DISCOVERED Hv Gv).
      assert (DISCOVERED <> UNEXPLORED) by discriminate.
      specialize (H H0). lia.
  - (* v is in the queue already *)
    exists m, q. split; [reflexivity|]. split; [exact Inv|].
    split; [apply bfs_frame_refl|]. split; [|lia].
    split; [left; exact Gv|].
    assert (Iv : In v (u :: q)) by (apply (bi_pending g s k m _ Inv); exact Gv).
    destruct (bi_levels g s k m _ Inv) as [A [B [EAB [LA LB]]]].
    rewrite EAB in Iv. apply in_app_or in Iv. destruct Iv as [Iv|Iv].
    + exists k. split; [apply LA; exact Iv | lia].
    + exists (k + 1). split; [apply LB; exact Iv | lia].
  - (* v is finished *)
    exists m, q. split; [reflexivity|]. split; [exact Inv|].
    split; [apply bfs_frame_refl|]. split; [|lia].
    split; [right; exact Gv|].
    destruct (bi_finished_level g s k m _ Inv v Gv) as [n [Dn Ln]].
    exists n. split; [exact Dn | lia].
Qed.
(** The whole [for v in self.edges[u]] loop. *)
Lemma bfs_inner_loop k m u q adj :
  bfs_inv g s k m (u :: q) ->
  dget u (b_distance m) = Some (Fin k) ->
  dget u (edges g) = Some adj ->
  exists m' q',
    foldM (bfs_visit u) (dkeys adj) (m, q) = Ok (m', q') /\
    bfs_inv g s k m' (u :: q') /\
    dget u (b_distance m') = Some (Fin k) /\
    (forall y, edge g u y ->
       explored (dget y (b_state m')) /\
       exists n, dget y (b_distance m') = Some (Fin n) /\ n <= k + 1) /\
    unexplored_count g (b_state m') + List.length q'
      <= unexplored_count g (b_state m) + List.length q.
Proof.
  intros Inv Du Ga.
  pose (I := fun (rest : list node) (mq : bfs_maps * list node) =>
    bfs_inv g s k (fst mq) (u :: snd mq) /\
    dget u (b_distance (fst mq)) = Some (Fin k) /\
    unexplored_count g (b_state (fst mq)) + List.length (snd mq)
      <= unexplored_count g (b_state m) + List.length q /\
    exists done, dkeys adj = done ++ rest /\
      forall y, In y done ->
        explored (dget y (b_state (fst mq))) /\
        exists n, dget y (b_distance (fst mq)) = Some (Fin n) /\ n <= k + 1).
  destruct (foldM_inv_total (bfs_visit u) I (dkeys adj) (m, q))
    as [[m' q'] [E [Inv' [Du' [Me [done [Ed Hd]]]]]]].
  - unfold I. simpl.
    split; [exact Inv|]. split; [exact Du|]. split; [lia|].
    exists []. split; [reflexivity|]. intros y [].
  - intros x rest [m0 q0] [Inv0 [Du0 [Me0 [done [Ed Hd]]]]]. simpl in *.
    assert (Ex : edge g u x).
    { apply edge_iff. exists adj. split; auto.
      rewrite Ed. apply in_or_app. right. left. reflexivity. }
    destruct (bfs_visit_step k m0 u q0 x Inv0 Du0 Ex)
      as [m1 [q1 [E1 [Inv1 [Fr [Hx Me1]]]]]].
    exists (m1, q1). split; [exact E1|].
    assert (Su : explored (dget u (b_state m0))).
    { left. apply (bi_pending g s k m0 _ Inv0). left. reflexivity. }
    unfold I. simpl. split; [exact Inv1|].
    split; [destruct (Fr u Su) as [_ [D _]]; congruence|].
    split; [lia|].
    exists (done ++ [x]). split; [rewrite <- app_assoc; exact Ed|].
    intros y Iy. apply in_app_or in Iy. destruct Iy as [Iy|[<-|[]]].
    + destruct (Hd y Iy) as [Ey [n [Dy Ly]]].
      destruct (Fr y Ey) as [F1 [F2 _]].
      split; [rewrite F1; exact Ey|].
      exists n. split; [congruence | exact Ly].
    + exact Hx.
  - simpl in *. exists m', q'. split; [exact E|].
    split; [exact Inv'|]. split; [exact Du'|]. split; [|exact Me].
    intros y Ey. apply Hd. rewrite app_nil_r in Ed. rewrite <- Ed.
    apply edge_iff in Ey. destruct Ey as [adj' [Ga' Iy]].
    congruence.
Qed.

(** [state[u] = 'FINISHED'] after the neighbours of [u]. *)
Lemma bfs_finish_inv k m u q :
  bfs_inv g s k m (u :: q) ->
  dget u (b_distance m) = Some (Fin k) ->
  (forall y, edge g u y ->
     explored (dget y (b_state m)) /\
     exists n, dget y (b_distance m) = Some (Fin n) /\ n <= k + 1) ->
  bfs_inv g s k (bfs_finish u m) q.
Proof.
  intros [Tot ND Pen Une Sta Tre Clo Fle Lev] Du Nb.
  assert (Su : dget u (b_state m) = Some DISCOVERED).
  { apply Pen. left. reflexivity. }
  assert (Keep : forall x, explored (dget x (b_state m)) ->
                   explored (dget x (dset u FINISHED (b_state m)))).
  { intros x Ex. rewrite dget_dset. key_cases u x; auto.
    right. reflexivity. }
  inversion ND as [|u' q' NIu NDq]. subst u' q'.
  constructor; simpl.
  - intros x Hx. rewrite dget_dset. key_cases u x; eauto.
  - exact NDq.
  - intros x. rewrite dget_dset. key_cases u x.
    + split; [contradiction | discriminate].
    + rewrite <- Pen. simpl. intuition congruence.
  - intros x. rewrite dget_dset. key_cases u x; [discriminate|]. apply Une.
  - destruct Sta as [S1 [S2 S3]]. auto.
  - intros x Ex.
    assert (Ex0 : explored (dget x (b_state m))).
    { rewrite dget_dset in Ex. key_cases u x; auto. left. exact Su. }
    destruct (Tre x Ex0) as [Hx [Rx [n [Dx Px]]]].
    split; auto. split; auto. exists n. split; auto.
    destruct Px as [->|[u0 [n' [P1 [P2 [P3 [P4 P5]]]]]]]; auto.
    right. exists u0, n'. repeat split; auto.
  - intros x y. rewrite dget_dset. key_cases u x.
    + intros _ Exy. destruct (Nb y Exy) as [_ [n [Dy Ly]]].
      exists k, n. auto.
    + apply Clo.
  - intros x. rewrite dget_dset. key_cases u x.
    + intros _. exists k. auto.
    + apply Fle.
  - destruct Lev as [A [B [EAB [LA LB]]]].
    destruct A as [|a A].
    + simpl in EAB. assert (Iu : In u B) by (rewrite <- EAB; left; auto).
      specialize (LB u Iu). rewrite Du in LB. inversion LB. lia.
    + simpl in EAB. inversion EAB. subst a.
      exists A, B. split; [reflexivity|]. split; auto.
      intros x Ix. apply LA. right. exact Ix.
Qed.

(** The level of the front of the queue can always be taken as [k]. *)
Lemma bfs_inv_front k m u q :
  bfs_inv g s k m (u :: q) ->
  exists k', bfs_inv g s k' m (u :: q) /\
    dget u (b_distance m) = Some (Fin k').
Proof.
  intros Inv. destruct (bi_levels g s k m _ Inv) as [A [B [EAB [LA LB]]]].
  destruct A as [|a A].
  - simpl in EAB. exists (k + 1). split.
    + destruct Inv as [Tot ND Pen Une Sta Tre Clo Fle Lev].
      constructor; auto.
      * intros x Fx. destruct (Fle x Fx) as [n [Dn Ln]].
        exists n. split; auto. lia.
      * exists B, []. split; [rewrite app_nil_r; exact EAB|].
        split; [exact LB | intros x []].
    + apply LB. rewrite <- EAB. left. reflexivity.
  - exists k. split; [exact Inv|]. apply LA.
    simpl in EAB. inversion EAB. left. reflexivity.
Qed.

(** The loop of [bfs] returns within as many iterations as there are
    unexplored or queued nodes, and the invariant holds of what it
    returns, with nothing left DISCOVERED. *)
Lemma bfs_loop_total fuel : forall k m p,
  bfs_inv g s k m p ->
  unexplored_count g (b_state m) + List.length p <= fuel ->
  exists k' m', bfs_loop g fuel m p = Ok m' /\ bfs_inv g s k' m' [].
Proof.
  induction fuel as [|fuel IH]; intros k m p Inv Me.
  - destruct p as [|u q]; [|simpl in Me; lia].
    exists k, m. split; [reflexivity | exact Inv].
  - destruct p as [|u q].
    + exists k, m. split; [reflexivity | exact Inv].
    + destruct (bfs_inv_front k m u q Inv) as [k' [Inv' Du]].
      assert (Hu : has_node g u).
      { apply (bi_tree g s k' m _ Inv'). left.
        apply (bi_pending g s k' m _ Inv'). left. reflexivity. }
      destruct (has_node_adj g u W Hu) as [adj Ga].
      destruct (bfs_inner_loop k' m u q adj Inv' Du Ga)
        as [m1 [q1 [E1 [Inv1 [Du1 [Nb Me1]]]]]].
      simpl. unfold lookup. rewrite Ga. simpl. rewrite E1. simpl.
      apply (IH k').
      * apply bfs_finish_inv; auto.
      * simpl. rewrite unexplored_count_remark.
        -- simpl in Me. lia.
        -- assert (Su : dget u (b_state m1) = Some DISCOVERED).
           { apply (bi_pending g s k' m1 _ Inv1). left. reflexivity. }
           congruence.
        -- discriminate.
Qed.
Hypothesis Hs : has_node g s.

Lemma list_mem_nodes x : list_mem x (dkeys (nodes g)) = true <-> has_node g x.
Proof. apply list_mem_In. Qed.

Lemma bfs_init_state x :
  dget x (b_state (bfs_init g s)) =
  if key_eqb s x then Some DISCOVERED
  else if list_mem x (dkeys (nodes g)) then Some UNEXPLORED else None.
Proof. simpl. rewrite dget_dset, dget_dict_from_keys. reflexivity. Qed.

Lemma bfs_init_inv : bfs_inv g s 0 (bfs_init g s) [s].
Proof.
  assert (Ms : list_mem s (dkeys (nodes g)) = true)
    by (apply list_mem_nodes; exact Hs).
  assert (Only : forall x, explored (dget x (b_state (bfs_init g s))) -> x = s).
  { intros x. rewrite bfs_init_state. key_cases s x; auto.
    destruct (list_mem x (dkeys (nodes g))); intros [H|H]; discriminate. }
  constructor.
  - intros x Hx. rewrite bfs_init_state. key_cases s x; eauto.
    apply list_mem_nodes in Hx. rewrite Hx. eauto.
  - constructor; [simpl; tauto | constructor].
  - intros x. rewrite bfs_init_state. key_cases s x.
    + simpl. tauto.
    + simpl. split; [intros [->|[]]; congruence|].
      destruct (list_mem x (dkeys (nodes g))); discriminate.
  - intros x. rewrite bfs_init_state. key_cases s x; [discriminate|].
    simpl. rewrite dget_dset_other by exact E.
    rewrite !dget_dict_from_keys.
    destruct (list_mem x (dkeys (nodes g))); [auto | discriminate].
  - simpl. rewrite !dget_dset_same, dget_dict_from_keys, Ms.
    split; auto. split; auto. left. reflexivity.
  - intros x Ex. apply Only in Ex. subst x.
    split; [exact Hs|]. split; [apply reach_refl|].
    exists 0. simpl. rewrite dget_dset_same. auto.
  - intros x y Fx. rewrite bfs_init_state in Fx. key_cases s x; [discriminate|].
    destruct (list_mem x (dkeys (nodes g))); discriminate.
  - intros x Fx. rewrite bfs_init_state in Fx. key_cases s x; [discriminate|].
    destruct (list_mem x (dkeys (nodes g))); discriminate.
  - exists [s], []. split; [reflexivity|]. split; [|intros x []].
    intros x [<-|[]]. simpl. apply dget_dset_same.
Qed.

(** [bfs] returns once its budget exceeds the number of nodes. *)
Lemma bfs_total fuel :
  List.length (nodes g) < fuel ->
  exists k m, bfs g fuel s = Ok m /\ bfs_inv g s k m [].
Proof.
  intros F. unfold bfs. apply (bfs_loop_total fuel 0).
  - apply bfs_init_inv.
  - pose proof (unexplored_count_le g (b_state (bfs_init g s))).
    simpl List.length. lia.
Qed.

(** *** What holds when the queue has run empty *)

Section Final.
Variables (k : nat) (m : bfs_maps).
Hypothesis Inv : bfs_inv g s k m [].

Lemma final_no_discovered x : dget x (b_state m) <> Some DISCOVERED.
Proof. intros D. apply (bi_pending g s k m _ Inv) in D. destruct D. Qed.

Lemma final_explored_finished x :
  explored (dget x (b_state m)) -> dget x (b_state m) = Some FINISHED.
Proof.
  intros [D|F]; [|exact F]. exfalso. exact (final_no_discovered x D).
Qed.

Lemma final_finite_finished x n :
  has_node g x -> dget x (b_distance m) = Some (Fin n) ->
  dget x (b_state m) = Some FINISHED.
Proof.
  intros Hx Dx. destruct (bi_total g s k m _ Inv x Hx) as [c Gc].
  destruct c; auto.
  - destruct (bi_unexplored g s k m _ Inv x Gc) as [DI _]. congruence.
  - exfalso. exact (final_no_discovered x Gc).
Qed.

Lemma final_reach_finished x :
  reach g s x -> dget x (b_state m) = Some FINISHED.
Proof.
  induction 1 as [|y z R IH Eyz].
  - apply final_explored_finished. apply (bi_start g s k m _ Inv).
  - destruct (bi_closed g s k m _ Inv y z IH Eyz) as [n [n' [_ [Dz _]]]].
    destruct (edge_has_nodes g y z W Eyz) as [_ Hz].
    eapply final_finite_finished; eauto.
Qed.

Lemma final_triangle u v n :
  edge g u v -> dget u (b_distance m) = Some (Fin n) ->
  exists n', dget v (b_distance m) = Some (Fin n') /\ n' <= n + 1.
Proof.
  intros E Du. destruct (edge_has_nodes g u v W E) as [Hu _].
  pose proof (final_finite_finished u n Hu Du) as Fu.
  destruct (bi_closed g s k m _ Inv u v Fu E) as [n0 [n' [D0 [Dv L]]]].
  exists n'. split; auto. rewrite Du in D0. inversion D0. lia.
Qed.

Lemma final_unreachable x :
  has_node g x -> ~ reach g s x ->
  dget x (b_state m) = Some UNEXPLORED /\
  dget x (b_distance m) = Some Inf /\
  dget x (b_predecessor m) = Some None.
Proof.
  intros Hx NR. destruct (bi_total g s k m _ Inv x Hx) as [c Gc].
  destruct (explored_cases c) as [->|Ex].
  - split; auto. apply (bi_unexplored g s k m _ Inv). exact Gc.
  - rewrite <- Gc in Ex.
    destruct (bi_tree g s k m _ Inv x Ex) as [_ [R _]]. contradiction.
Qed.

(** Following [predecessor] from a finished node walks a path back to
    the start, in at most as many steps as there are nodes. *)
Lemma path_walk_spec n : forall x,
  dget x (b_state m) = Some FINISHED ->
  dget x (b_distance m) = Some (Fin n) ->
  exists l,
    is_path g s x l /\ (x = s -> l = [s]) /\
    List.length l = n + 1 /\ NoDup l /\
    (forall y, In y l ->
       has_node g y /\
       exists j, dget y (b_distance m) = Some (Fin j) /\ j <= n) /\
    forall fuel acc, n < fuel ->
      path_walk fuel (b_predecessor m) (Some x) acc = Ok (acc ++ rev l).
Proof.
  destruct (bi_start g s k m _ Inv) as [S1 [S2 S3]].
  assert (AtStart : forall n0, dget s (b_distance m) = Some (Fin n0) ->
    exists l, is_path g s s l /\ (s = s -> l = [s]) /\
      List.length l = n0 + 1 /\ NoDup l /\
      (forall y, In y l -> has_node g y /\
         exists j, dget y (b_distance m) = Some (Fin j) /\ j <= n0) /\
      forall fuel acc, n0 < fuel ->
        path_walk fuel (b_predecessor m) (Some s) acc
        = Ok (acc ++ rev l)).
  { intros n0 D0. rewrite S1 in D0. inversion D0. subst n0.
    exists [s]. split; [apply path_one|]. split; [auto|].
    split; [reflexivity|].
    split; [constructor; [simpl; tauto | constructor]|].
    split.
    - intros y [<-|[]]. split; [exact Hs|]. exists 0. auto.
    - intros fuel acc F. destruct fuel as [|fuel]; [lia|].
      simpl. unfold lookup. rewrite S2. simpl.
      destruct fuel; reflexivity. }
  induction n as [|n IH]; intros x Fx Dx.
  - destruct (bi_tree g s k m _ Inv x (or_intror Fx))
      as [Hx [Rx [n0 [Dx0 Px]]]].
    destruct Px as [->|[u [n' [_ [_ [_ [_ P5]]]]]]].
    + destruct (AtStart 0 Dx) as [l Hl]. exists l. exact Hl.
    + rewrite Dx in Dx0. inversion Dx0. lia.
  - destruct (key_dec x s) as [->|Nxs].
    { destruct (AtStart (S n) Dx) as [l Hl]. exists l. exact Hl. }
    destruct (bi_tree g s k m _ Inv x (or_intror Fx))
      as [Hx [Rx [n0 [Dx0 Px]]]].
    destruct Px as [->|[u [n' [P1 [P2 [P3 [P4 P5]]]]]]]; [congruence|].
    rewrite Dx in Dx0. inversion Dx0. subst n0.
    assert (n' = n) by lia. subst n'.
    apply final_explored_finished in P3.
    destruct (IH u P3 P4) as [l [L1 [L2 [L3 [L4 [L5 L6]]]]]].
    exists (l ++ [x]). split; [eapply path_snoc; eauto|].
    split; [congruence|].
    split; [rewrite length_app; simpl; lia|].
    split.
    { apply NoDup_snoc; auto. intros Ix.
      destruct (L5 x Ix) as [_ [j [Dj Lj]]].
      rewrite Dx in Dj. inversion Dj. lia. }
    split.
    { intros y Iy. apply in_app_or in Iy. destruct Iy as [Iy|[<-|[]]].
      - destruct (L5 y Iy) as [Hy [j [Dj Lj]]]. split; auto.
        exists j. split; auto.
      - split; auto. exists (S n). auto. }
    intros fuel acc F. destruct fuel as [|fuel]; [lia|].
    simpl. unfold lookup. rewrite P1. simpl.
    rewrite L6 by lia. rewrite rev_app_distr. simpl.
    rewrite <- app_assoc. reflexivity.
Qed.
End Final.
End BfsFacts.

(** C5: started at a node of the graph, [bfs] returns; in its distance
    mapping every edge (u, v) whose source has a finite distance has
    [distance[v] <= distance[u] + 1]; the nodes reachable from the start are
    those with a finite distance, and every node that is not reachable is
    still UNEXPLORED, at distance infinity and without predecessor. *)
Theorem bfs_triangle_and_unreachable (g : Graph) (start : node) (fuel : nat) :
  WF g -> has_node g start -> List.length (nodes g) < fuel ->
  exists m, bfs g fuel start = Ok m /\
    (forall u v n,
        edge g u v -> dget u (b_distance m) = Some (Fin n) ->
        exists n', dget v (b_distance m) = Some (Fin n') /\ n' <= n + 1) /\
    (forall u, reach g start u ->
        exists n, dget u (b_distance m) = Some (Fin n)) /\
    (forall x, has_node g x -> ~ reach g start x ->
        dget x (b_state m) = Some UNEXPLORED /\
        dget x (b_distance m) = Some Inf /\
        dget x (b_predecessor m) = Some None).
Proof.
  intros W Hs F.
  destruct (bfs_total g W start Hs fuel F) as [k [m [E Inv]]].
  exists m. split; [exact E|]. split; [|split].
  - intros u v n. apply (final_triangle g W start k m Inv).
  - intros u R.
    pose proof (final_reach_finished g W start k m Inv u R) as Fu.
    destruct (bi_finished_level g start k m _ Inv u Fu) as [n [Dn _]].
    eauto.
  - apply (final_unreachable g start k m Inv).
Qed.

Lemma bfs_triangle_and_unreachable_witness :
  exists m, bfs fork_graph 10 "A" = Ok m /\
    (forall u v n,
        edge fork_graph u v -> dget u (b_distance m) = Some (Fin n) ->
        exists n', dget v (b_distance m) = Some (Fin n') /\ n' <= n + 1) /\
    (forall u, reach fork_graph "A" u ->
        exists n, dget u (b_distance m) = Some (Fin n)) /\
    (forall x, has_node fork_graph x -> ~ reach fork_graph "A" x ->
        dget x (b_state m) = Some UNEXPLORED /\
        dget x (b_distance m) = Some Inf /\
        dget x (b_predecessor m) = Some None).
Proof.
  apply bfs_triangle_and_unreachable.
  - apply graph_of_WF.
  - vm_compute. auto.
  - vm_compute. lia.
Defined.

(** ** Shortest path *)

Lemma nodes_length_bound g (l : list node) :
  NoDup l -> (forall y, In y l -> has_node g y) ->
  List.length l <= List.length (nodes g).
Proof.
  intros ND Hl. unfold dkeys.
  rewrite <- (length_map fst (nodes g)).
  apply NoDup_incl_length; auto.
Qed.

(** C6: [get_shortest_path(s, t)] raises ValueError when [s] or [t] is not
    a node, and only then: with both present it returns, [[s]] when [t] is
    [s], the empty list when [t] is not reachable from [s], and otherwise the
    nodes of a path from [s] to [t]. *)
Theorem get_shortest_path_spec (g : Graph) (s t : node) (fuel : nat) :
  WF g -> List.length (nodes g) < fuel ->
  (~ has_node g s \/ ~ has_node g t ->
   get_shortest_path g fuel s t = Raise ValueError) /\
  (has_node g s -> has_node g t ->
   exists p, get_shortest_path g fuel s t = Ok p /\
     (t = s -> p = [s]) /\
     (~ reach g s t -> p = []) /\
     (reach g s t -> is_path g s t p)).
Proof.
  intros W F. unfold get_shortest_path. split.
  - intros [N|N].
    + apply dmem_false in N. rewrite N. reflexivity.
    + apply dmem_false in N. rewrite N. simpl.
      destruct (dmem s (nodes g)); reflexivity.
  - intros Hs Ht.
    rewrite (proj2 (dmem_In s (nodes g)) Hs).
    rewrite (proj2 (dmem_In t (nodes g)) Ht). simpl.
    destruct (bfs_total g W s Hs fuel F) as [k [m [E Inv]]].
    rewrite E. simpl.
    destruct (bi_total g s k m _ Inv t Ht) as [c Gc].
    destruct c.
    + (* t was never discovered *)
      destruct (bi_unexplored g s k m _ Inv t Gc) as [Dt _].
      unfold lookup. rewrite Dt. simpl.
      exists []. split; [reflexivity|].
      assert (NR : ~ reach g s t).
      { intros R.
        pose proof (final_reach_finished g W s k m Inv t R). congruence. }
      split; [|split]; auto.
      * intros ->. exfalso. apply NR. apply reach_refl.
      * intros R. contradiction.
    + exfalso. exact (final_no_discovered g s k m Inv t Gc).
    + destruct (bi_finished_level g s k m _ Inv t Gc) as [n [Dn _]].
      unfold lookup. rewrite Dn. simpl.
      destruct (path_walk_spec g s Hs k m Inv n t Gc Dn)
        as [l [L1 [L2 [L3 [L4 [L5 L6]]]]]].
      assert (B : List.length l <= List.length (nodes g)).
      { apply nodes_length_bound; auto. intros y Iy. apply (L5 y Iy). }
      rewrite L6 by lia. simpl. rewrite rev_involutive.
      exists l. split; [reflexivity|]. split; [exact L2|]. split; auto.
      intros NR. exfalso. apply NR.
      apply (bi_tree g s k m _ Inv t (or_intror Gc)).
Qed.

Lemma get_shortest_path_spec_witness :
  exists p, get_shortest_path fork_graph 10 "A" "D" = Ok p /\
    ("D" = "A" -> p = ["A"]) /\
    (~ reach fork_graph "A" "D" -> p = []) /\
    (reach fork_graph "A" "D" -> is_path fork_graph "A" "D" p).
Proof.
  destruct (get_shortest_path_spec fork_graph "A" "D" 10) as [_ H].
  - apply graph_of_WF.
  - vm_compute. lia.
  - apply H; vm_compute; auto 10.
Defined.

(** ** Depth-first search *)

Section DfsFacts.
Variable g : Graph.
Hypothesis W : WF g.

Lemma dfs_frame_refl r : dfs_frame r r.
Proof. intros x _. auto. Qed.

(** One neighbour [w] of [vertex], given that the recursive calls with
    budget [fuel] meet their postcondition. *)
Lemma dfs_edge_step fuel vertex time r w rc :
  (forall v t r0,
      dfs_ok g r0 -> dget v (d_state r0) = Some UNEXPLORED ->
      has_node g v -> unexplored_count g (d_state r0) < fuel ->
      exists r', dfs_visit g fuel v t r0 = Ok r' /\ dfs_post g v r0 r') ->
  dget vertex (d_state r) = Some UNEXPLORED ->
  dfs_inside g vertex r rc ->
  has_node g w ->
  unexplored_count g (d_state rc) < fuel ->
  exists rc',
    dfs_edge (dfs_visit g fuel) vertex time w rc = Ok rc' /\
    dfs_inside g vertex r rc'.
Proof.
  intros IH Uv [Ok0 Fr Sv Cn Gr] Hw F.
  assert (Nv : forall x, explored (dget x (d_state r)) -> x <> vertex).
  { intros x Ex ->. apply explored_not_unexplored in Ex. congruence. }
  assert (Npair : forall x y z : node,
             explored (dget x (d_state r)) -> (vertex, z) <> (x, y)).
  { intros x y z Ex Eq. inversion Eq. apply (Nv x Ex). congruence. }
  destruct (do_total g rc Ok0 w Hw) as [c Gw].
  unfold dfs_edge, lookup. rewrite Gw. simpl.
  destruct c.
  - (* tree edge *)
    set (rt := {| d_state := d_state rc;
                  d_predecessor := dset w (Some vertex) (d_predecessor rc);
                  d_discovered := d_discovered rc;
                  d_classification :=
                    dset (vertex, w) TREE_EDGE (d_classification rc);
                  d_finished := d_finished rc |}).
    assert (Okt : dfs_ok g rt).
    { destruct Ok0 as [T D]. constructor; simpl; auto. }
    destruct (IH w time rt Okt Gw Hw F) as [r' [E [Ok' Fr' Fi' Cn' Gr']]].
    exists r'. split; [exact E|].
    constructor.
    + exact Ok'.
    + intros x Ex. destruct (Fr x Ex) as [S1 C1].
      assert (Ext : explored (dget x (d_state rt))).
      { simpl. rewrite S1. exact Ex. }
      destruct (Fr' x Ext) as [S2 C2]. split.
      * rewrite S2. exact S1.
      * intros y. rewrite C2. simpl.
        rewrite dget_dset_other by (apply Npair; exact Ex). apply C1.
    + destruct (Fr' vertex) as [S2 _]; [left; exact Sv|].
      rewrite S2. exact Sv.
    + simpl in Cn'. lia.
    + intros x Dx. apply Gr. apply Gr'. exact Dx.
  - (* back edge *)
    exists (classify rc vertex w BACK_EDGE). split; [reflexivity|].
    constructor; simpl; auto.
    + destruct Ok0 as [T D]. constructor; simpl; auto.
    + intros x Ex. destruct (Fr x Ex) as [S1 C1]. split; auto.
      intros y. simpl.
      rewrite dget_dset_other by (apply Npair; exact Ex).
      apply C1.
  - (* cross or forward edge *)
    destruct (do_discovered g rc Ok0 vertex (or_introl Sv)) as [tv Dv].
    destruct (do_discovered g rc Ok0 w (or_intror Gw)) as [tw Dw].
    rewrite Dv, Dw. simpl.
    assert (Any : forall c, dfs_inside g vertex r (classify rc vertex w c)).
    { intros c. constructor; simpl; auto.
      - destruct Ok0 as [T D]. constructor; simpl; auto.
      - intros x Ex. destruct (Fr x Ex) as [S1 C1]. split; auto.
        intros y. simpl.
        rewrite dget_dset_other by (apply Npair; exact Ex).
        apply C1. }
    destruct (Nat.ltb tw tv); eexists; split; try reflexivity; apply Any.
Qed.

(** Entering [vertex] establishes the loop invariant. *)
Lemma dfs_enter_inside vertex time r :
  dfs_ok g r -> dget vertex (d_state r) = Some UNEXPLORED ->
  has_node g vertex ->
  dfs_inside g vertex r (dfs_enter vertex time r).
Proof.
  intros [T D] Uv Hv.
  assert (Nv : forall x, explored (dget x (d_state r)) -> vertex <> x).
  { intros x Ex ->. apply explored_not_unexplored in Ex. congruence. }
  constructor; simpl.
  - constructor; simpl.
    + intros x Hx. rewrite dget_dset. key_cases vertex x; eauto.
    + intros x. rewrite !dget_dset. key_cases vertex x; eauto.
  - intros x Ex. simpl.
    rewrite dget_dset_other by (apply Nv; exact Ex). auto.
  - apply dget_dset_same.
  - apply unexplored_count_mark; auto. discriminate.
  - intros x. rewrite dget_dset. key_cases vertex x; auto.
Qed.

(** Leaving [vertex] turns the loop invariant into the postcondition. *)
Lemma dfs_leave_post vertex time r rc :
  dget vertex (d_state r) = Some UNEXPLORED ->
  dfs_inside g vertex r rc ->
  dfs_post g vertex r (dfs_leave vertex time rc).
Proof.
  intros Uv [[T D] Fr Sv Cn Gr].
  assert (Nv : forall x, explored (dget x (d_state r)) -> vertex <> x).
  { intros x Ex ->. apply explored_not_unexplored in Ex. congruence. }
  constructor; simpl.
  - constructor; simpl.
    + intros x Hx. rewrite dget_dset. key_cases vertex x; eauto.
    + intros x. rewrite dget_dset. key_cases vertex x.
      * intros _. apply D. left. exact Sv.
      * apply D.
  - intros x Ex. simpl.
    rewrite dget_dset_other by (apply Nv; exact Ex).
    apply Fr. exact Ex.
  - apply dget_dset_same.
  - rewrite unexplored_count_remark; auto; congruence.
  - intros x. rewrite dget_dset. key_cases vertex x; [discriminate|].
    intros Dx. destruct (Gr x Dx); congruence.
Qed.

(** [dfs_visit] returns when its recursion budget exceeds the number of
    unexplored nodes, and meets its postcondition. *)
Lemma dfs_visit_total fuel : forall vertex time r,
  dfs_ok g r -> dget vertex (d_state r) = Some UNEXPLORED ->
  has_node g vertex -> unexplored_count g (d_state r) < fuel ->
  exists r', dfs_visit g fuel vertex time r = Ok r' /\
             dfs_post g vertex r r'.
Proof.
  induction fuel as [|fuel IH]; intros vertex time r Ok0 Uv Hv F; [lia|].
  destruct (has_node_adj g vertex W Hv) as [adj Ga].
  simpl. unfold lookup at 1. rewrite Ga. simpl.
  pose proof (dfs_enter_inside vertex time r Ok0 Uv Hv) as In0.
  destruct (foldM_inv_total
              (dfs_edge (dfs_visit g fuel) vertex (time + 1))
              (fun rest rc =>
                 dfs_inside g vertex r rc /\
                 forall w, In w rest -> has_node g w)
              (dkeys adj) (dfs_enter vertex time r))
    as [r2 [E2 [In2 _]]].
  - split; [exact In0|]. intros w Iw.
    eapply wf_adj_closed; eauto.
  - intros w rest rc [Inc Hrest].
    destruct (dfs_edge_step fuel vertex (time + 1) r w rc IH Uv Inc)
      as [rc' [E' In']].
    + apply Hrest. left. reflexivity.
    + pose proof (di_count g vertex r rc Inc). lia.
    + exists rc'. split; [exact E'|]. split; [exact In'|].
      intros w' Iw'. apply Hrest. right. exact Iw'.
  - rewrite E2. simpl. eexists. split; [reflexivity|].
    apply dfs_leave_post; auto.
Qed.
Lemma dfs_visit_post fuel vertex time r r' :
  dfs_ok g r -> dget vertex (d_state r) = Some UNEXPLORED ->
  has_node g vertex -> unexplored_count g (d_state r) < fuel ->
  dfs_visit g fuel vertex time r = Ok r' -> dfs_post g vertex r r'.
Proof.
  intros Ok0 Uv Hv F E.
  destruct (dfs_visit_total fuel vertex time r Ok0 Uv Hv F) as [r1 [E1 P]].
  rewrite E in E1. inversion E1. subst. exact P.
Qed.

Lemma dfs_init_state x :
  dget x (d_state (dfs_init g)) =
  if list_mem x (dkeys (nodes g)) then Some UNEXPLORED else None.
Proof. simpl. apply dget_dict_from_keys. Qed.

Lemma dfs_init_ok : dfs_ok g (dfs_init g).
Proof.
  constructor.
  - intros x Hx. rewrite dfs_init_state.
    apply list_mem_In in Hx. rewrite Hx. eauto.
  - intros x. rewrite dfs_init_state.
    destruct (list_mem x (dkeys (nodes g))); intros [H|H]; discriminate.
Qed.

(** [dfs] returns with every node FINISHED; an invariant [Q] that holds
    initially and is carried across every root visit holds at the end. *)
Lemma dfs_total_with (Q : dfs_maps -> Prop) fuel :
  List.length (nodes g) < fuel ->
  Q (dfs_init g) ->
  (forall v t r r',
      dfs_ok g r -> dget v (d_state r) = Some UNEXPLORED -> has_node g v ->
      (forall x, dget x (d_state r) <> Some DISCOVERED) ->
      Q r -> dfs_visit g fuel v t r = Ok r' -> Q r') ->
  exists r, dfs g fuel = Ok r /\ dfs_ok g r /\
    (forall x, has_node g x -> dget x (d_state r) = Some FINISHED) /\ Q r.
Proof.
  intros F Q0 Qstep. unfold dfs.
  destruct (foldM_inv_total (dfs_root g fuel)
              (fun rest rc =>
                 dfs_ok g rc /\
                 (forall x, dget x (d_state rc) <> Some DISCOVERED) /\
                 (forall x, In x rest -> has_node g x) /\
                 (forall x, has_node g x ->
                    In x rest \/ explored (dget x (d_state rc))) /\
                 Q rc)
              (dkeys (nodes g)) (dfs_init g))
    as [r [E [Okr [ND [_ [All Qr]]]]]].
  - split; [apply dfs_init_ok|]. split.
    { intros x. rewrite dfs_init_state.
      destruct (list_mem x (dkeys (nodes g))); discriminate. }
    split; [auto|]. split; [auto | exact Q0].
  - intros v rest rc [Okc [ND [Hrest [All Qc]]]].
    assert (Hv : has_node g v) by (apply Hrest; left; reflexivity).
    destruct (do_total g rc Okc v Hv) as [c Gv].
    unfold dfs_root, lookup. rewrite Gv. simpl.
    destruct c.
    + assert (Fc : unexplored_count g (d_state rc) < fuel).
      { pose proof (unexplored_count_le g (d_state rc)). lia. }
      destruct (dfs_visit_total fuel v 0 rc Okc Gv Hv Fc)
        as [r' [E' [Ok' Fr' Fi' Cn' Gr']]].
      exists r'. split; [exact E'|]. split; [exact Ok'|].
      split.
      { intros x Dx. apply (ND x). apply Gr'. exact Dx. }
      split; [intros x Ix; apply Hrest; right; exact Ix|].
      split; [|exact (Qstep v 0 rc r' Okc Gv Hv ND Qc E')].
      intros x Hx. destruct (All x Hx) as [[<-|Ix]|Ex].
      * right. right. exact Fi'.
      * left. exact Ix.
      * right. destruct (Fr' x Ex) as [S1 _]. rewrite S1. exact Ex.
    + exfalso. exact (ND v Gv).
    + exists rc. split; [reflexivity|]. split; [exact Okc|].
      split; [exact ND|].
      split; [intros x Ix; apply Hrest; right; exact Ix|].
      split; [|exact Qc].
      intros x Hx. destruct (All x Hx) as [[<-|Ix]|Ex]; auto.
      right. right. exact Gv.
  - exists r. split; [exact E|]. split; [exact Okr|]. split; [|exact Qr].
    intros x Hx. destruct (All x Hx) as [[]|[D|Fx]]; auto.
    exfalso. exact (ND x D).
Qed.

(** The loop of [is_acyclic] over the classification. *)
Lemma acyclic_fold_false (cls : dict (node * node) edge_class) l b :
  (exists key, In key l /\ dget key cls = Some BACK_EDGE) ->
  fold_left
    (fun acyclic key =>
       match dget key cls with
       | Some BACK_EDGE => false
       | _ => acyclic
       end) l b = false.
Proof.
  revert b. induction l as [|k l IH]; intros b [key [I G]]; [destruct I|].
  simpl. destruct I as [->|I].
  - rewrite G. clear. induction l as [|k l IH]; simpl; auto.
    destruct (dget k cls) as [[]|]; auto.
  - apply IH. eauto.
Qed.

Lemma acyclic_fold_true (cls : dict (node * node) edge_class) l :
  (forall key, dget key cls <> Some BACK_EDGE) ->
  fold_left
    (fun acyclic key =>
       match dget key cls with
       | Some BACK_EDGE => false
       | _ => acyclic
       end) l true = true.
Proof.
  intros N. induction l as [|k l IH]; simpl; auto.
  destruct (dget k cls) as [[]|] eqn:G; auto.
  exfalso. exact (N k G).
Qed.
End DfsFacts.

(** ** Undirected graphs are never acyclic *)

Lemma back_recorded_write r r1 v :
  dget v (d_state r) = Some DISCOVERED ->
  d_state r1 = d_state r ->
  (forall a b, a <> v ->
     dget (a, b) (d_classification r1) = dget (a, b) (d_classification r)) ->
  back_recorded r -> back_recorded r1.
Proof.
  intros Sv ES EC [a [b [B F]]]. exists a, b. split.
  - rewrite EC; auto. intros ->. congruence.
  - rewrite ES. exact F.
Qed.

Lemma classify_other r v w c a b :
  a <> v ->
  dget (a, b) (d_classification (classify r v w c))
  = dget (a, b) (d_classification r).
Proof.
  intros N. simpl. apply dget_dset_other. intros E. inversion E. congruence.
Qed.

Section DfsUndirected.
Variable g : Graph.
Hypothesis W : WF g.
Hypothesis Sym : symmetric g.

Lemma edge_sym u v : edge g u v -> edge g v u.
Proof. unfold edge. rewrite Sym. auto. Qed.

(** Writing the class of an edge leaving the DISCOVERED [v] keeps
    [back_if_finished]. *)
Lemma back_if_finished_classify rc v w c :
  dget v (d_state rc) = Some DISCOVERED ->
  back_if_finished g rc -> back_if_finished g (classify rc v w c).
Proof.
  intros Sv K Hx. apply (back_recorded_write rc _ v); auto.
  intros a b N. apply classify_other. exact N.
Qed.

(** A visit keeps [back_if_finished]: the visited node has its parent, or
    an earlier node, on the other end of one of its edges. *)
Lemma dfs_visit_back fuel : forall v t r r',
  dfs_ok g r -> dget v (d_state r) = Some UNEXPLORED -> has_node g v ->
  unexplored_count g (d_state r) < fuel ->
  back_if_finished g r ->
  dfs_visit g fuel v t r = Ok r' -> back_if_finished g r'.
Proof.
  induction fuel as [|fuel IH]; intros v t r r' Ok0 Uv Hv F K E; [lia|].
  destruct (has_node_adj g v W Hv) as [adj Ga].
  simpl in E. unfold lookup at 1 in E. rewrite Ga in E. simpl in E.
  apply bind_Ok in E. destruct E as [r2 [E2 E3]].
  inversion E3. subst r'. clear E3.
  pose (I := fun (rest : list node) (rc : dfs_maps) =>
    dfs_inside g v r rc /\
    (forall w, In w rest -> has_node g w /\ edge g v w) /\
    back_if_finished g rc /\
    (rest = dkeys adj \/ back_recorded rc \/
     exists b, dget (v, b) (d_classification rc) = Some BACK_EDGE)).
  assert (Fin : I [] r2).
  { apply (foldM_inv_partial
             (dfs_edge (dfs_visit g fuel) v (t + 1)) I (dkeys adj)
             (dfs_enter v t r) r2 E2).
    - unfold I. split; [apply dfs_enter_inside; auto|].
      split.
      { intros w Iw. split; [eapply wf_adj_closed; eauto|].
        apply edge_iff. eauto. }
      split; [|left; reflexivity].
      intros [x [y [Fx Exy]]]. simpl in Fx.
      rewrite dget_dset in Fx. key_cases v x; [discriminate|].
      destruct K as [a [b [B Fa]]]; [eauto|].
      exists a, b. simpl. split; auto.
      rewrite dget_dset_other; auto. congruence.
    - intros w rest rc rc' [Inc [Hrest [Kc _]]] Ew.
      destruct (Hrest w (or_introl eq_refl)) as [Hw Evw].
      pose proof (di_vertex g v r rc Inc) as Sv.
      pose proof (di_count g v r rc Inc) as Cc.
      assert (Fc : unexplored_count g (d_state rc) < fuel) by lia.
      assert (Inc' : dfs_inside g v r rc').
      { destruct (dfs_edge_step g fuel v (t + 1) r w rc
                    (dfs_visit_total g W fuel) Uv Inc Hw Fc)
          as [rc1 [E1 In1]].
        rewrite Ew in E1. inversion E1. subst. exact In1. }
      unfold I. split; [exact Inc'|].
      split; [intros w' Iw'; apply Hrest; right; exact Iw'|].
      destruct (do_total g rc (di_ok g v r rc Inc) w Hw) as [c Gw].
      unfold dfs_edge, lookup in Ew. rewrite Gw in Ew. simpl in Ew.
      destruct c.
      + (* tree edge: the child finds [v] among its neighbours *)
        set (rt := {| d_state := d_state rc;
                      d_predecessor := dset w (Some v) (d_predecessor rc);
                      d_discovered := d_discovered rc;
                      d_classification :=
                        dset (v, w) TREE_EDGE (d_classification rc);
                      d_finished := d_finished rc |}) in *.
        assert (Okt : dfs_ok g rt).
        { destruct (di_ok g v r rc Inc) as [T D]. constructor; simpl; auto. }
        assert (Kt : back_if_finished g rt).
        { intros Hx. apply (back_recorded_write rc rt v); auto.
          intros a b N. simpl. apply dget_dset_other.
          intros Eq. inversion Eq. congruence. }
        pose proof (IH w (t + 1) rt rc' Okt Gw Hw Fc Kt Ew) as K'.
        pose proof (dfs_visit_post g W fuel w (t + 1) rt rc' Okt Gw Hw Fc Ew)
          as Pw.
        split; [exact K'|]. right. left. apply K'.
        exists w, v. split; [apply (dp_finished g w rt rc' Pw)|].
        apply edge_sym. exact Evw.
      + (* back edge *)
        inversion Ew. subst rc'. clear Ew.
        split; [apply back_if_finished_classify; auto|].
        right. right. exists w. simpl. apply dget_dset_same.
      + (* the neighbour finished earlier *)
        apply bind_Ok in Ew. destruct Ew as [tv [_ Ew]].
        apply bind_Ok in Ew. destruct Ew as [tw [_ Ew]].
        assert (Bc : back_recorded rc).
        { apply Kc. exists w, v. split; auto. apply edge_sym. exact Evw. }
        assert (Any : forall c,
                   back_if_finished g (classify rc v w c) /\
                   (rest = dkeys adj \/ back_recorded (classify rc v w c) \/
                    exists b, dget (v, b)
                                (d_classification (classify rc v w c))
                              = Some BACK_EDGE)).
        { intros c. split; [apply back_if_finished_classify; auto|].
          right. left. apply (back_recorded_write rc _ v); auto.
          intros a b N. apply classify_other. exact N. }
        destruct (Nat.ltb tw tv); inversion Ew; apply Any. }
  destruct Fin as [In2 [_ [K2 B2]]].
  pose proof (di_vertex g v r r2 In2) as Sv.
  intros [x [y [Fx Exy]]]. simpl in Fx. rewrite dget_dset in Fx.
  assert (Keep : back_recorded r2 -> back_recorded (dfs_leave v t r2)).
  { intros [a [b [B Fa]]]. exists a, b. simpl. split; auto.
    rewrite dget_dset_other; auto. congruence. }
  key_cases v x.
  - destruct B2 as [Em|[B|[b B]]].
    + apply edge_iff in Exy. destruct Exy as [adj' [Ga' Iy]].
      rewrite Ga in Ga'. inversion Ga'. subst adj'.
      rewrite <- Em in Iy. destruct Iy.
    + apply Keep. exact B.
    + exists x, b. simpl. split; auto. apply dget_dset_same.
  - apply Keep. apply K2. eauto.
Qed.

(** On a graph whose adjacency is symmetric and has an edge, [dfs]
    classifies a BACK EDGE: [is_acyclic] returns False. *)
Lemma is_acyclic_symmetric fuel :
  (exists u v, edge g u v) -> List.length (nodes g) < fuel ->
  is_acyclic g fuel = Ok false.
Proof.
  intros [u [v Euv]] F.
  destruct (dfs_total_with g W (back_if_finished g) fuel F)
    as [r [E [_ [All K]]]].
  - intros [x [y [Fx _]]]. rewrite dfs_init_state in Fx.
    destruct (list_mem x (dkeys (nodes g))); discriminate.
  - intros x t r r' Ok0 Ux Hx _ K E.
    apply (dfs_visit_back fuel x t r r'); auto.
    pose proof (unexplored_count_le g (d_state r)). lia.
  - unfold is_acyclic. rewrite E. simpl. f_equal.
    apply acyclic_fold_false.
    destruct K as [a [b [B _]]].
    + exists u, v. split; auto. apply All.
      apply (edge_has_nodes g u v W Euv).
    + exists (a, b). split; auto. eapply dget_Some_In; eauto.
Qed.
End DfsUndirected.

Lemma symmetric_with_node g n r :
  WF g -> directed g = false /\ symmetric g -> ~ has_node g n ->
  directed (with_node g n r) = false /\ symmetric (with_node g n r).
Proof.
  intros W [D S] N. split; [exact D|].
  intros x y. rewrite !edgeb_with_node; auto.
Qed.

Lemma symmetric_link h g u v a h' g' r :
  WF g -> directed g = false /\ symmetric g ->
  has_node g u -> has_node g v -> edgeb g u v = false ->
  link_nodes h g u v a = Ok (h', g', r) ->
  directed g' = false /\ symmetric g'.
Proof.
  intros W [D S] Iu Iv Euv L.
  destruct (link_nodes_new h g u v a W Iu Iv Euv)
    as [h2 [g2 [r2 [L2 [_ [_ [D2 [EE _]]]]]]]].
  rewrite L in L2. inversion L2. subst h2 g2 r2. clear L2.
  split; [congruence|].
  intros x y. rewrite !EE, D, (S x y). simpl.
  destruct (edgeb g y x), (key_eqb u x), (key_eqb v y), (key_eqb v x),
    (key_eqb u y); reflexivity.
Qed.

Lemma build_symmetric ops h g : build false ops = Ok (h, g) -> symmetric g.
Proof.
  intros E.
  destruct (build_inv (fun g => directed g = false /\ symmetric g)
              symmetric_with_node symmetric_link false ops)
    as [h' [g' [E' [_ [_ S]]]]].
  - split; [reflexivity|]. intros x y. reflexivity.
  - rewrite E in E'. inversion E'. subst. exact S.
Qed.

(** C9: on an undirected graph (built from [Graph(directed=False)] by
    [add_node] and [add_edge]) with at least one edge, [is_acyclic] returns
    False, and [topological_sort] and [max_depth] raise ValueError. *)
Theorem undirected_edge_not_acyclic (ops : list op) (h : store) (g : Graph)
    (fuel : nat) :
  build false ops = Ok (h, g) ->
  (exists u v, edge g u v) ->
  List.length (nodes g) < fuel ->
  is_acyclic g fuel = Ok false /\
  topological_sort g fuel = Raise ValueError /\
  max_depth g fuel = Raise ValueError.
Proof.
  intros B E F.
  assert (A : is_acyclic g fuel = Ok false).
  { apply is_acyclic_symmetric; auto.
    - eapply build_WF; eauto.
    - eapply build_symmetric; eauto. }
  split; [exact A|].
  unfold topological_sort, max_depth. rewrite A. simpl. auto.
Qed.

Lemma undirected_edge_not_acyclic_witness :
  is_acyclic undirected_pair 5 = Ok false /\
  topological_sort undirected_pair 5 = Raise ValueError /\
  max_depth undirected_pair 5 = Raise ValueError.
Proof.
  apply (undirected_edge_not_acyclic [plain_edge "A" "B"] [[]; []; []]).
  - reflexivity.
  - exists "A", "B". reflexivity.
  - vm_compute. lia.
Defined.

(** ** Acyclic graphs pass the cycle check *)

Section DfsAcyclic.
Variable g : Graph.
Hypothesis W : WF g.
Hypothesis Acy : acyclic g.

Lemma no_back_classify rc v w c :
  c <> BACK_EDGE -> no_back rc -> no_back (classify rc v w c).
Proof.
  intros N NB key. simpl. rewrite dget_dset.
  destruct (key_eqb (v, w) key); [congruence | apply NB].
Qed.

(** Every DISCOVERED node is an ancestor of the visited one, so in a graph
    without cycle no edge of the visit leads to a DISCOVERED node. *)
Lemma dfs_visit_no_back fuel : forall v t r r',
  dfs_ok g r -> dget v (d_state r) = Some UNEXPLORED -> has_node g v ->
  unexplored_count g (d_state r) < fuel ->
  (forall x, dget x (d_state r) = Some DISCOVERED -> reach g x v) ->
  no_back r ->
  dfs_visit g fuel v t r = Ok r' -> no_back r'.
Proof.
  induction fuel as [|fuel IH]; intros v t r r' Ok0 Uv Hv F Gray NB E; [lia|].
  destruct (has_node_adj g v W Hv) as [adj Ga].
  simpl in E. unfold lookup at 1 in E. rewrite Ga in E. simpl in E.
  apply bind_Ok in E. destruct E as [r2 [E2 E3]].
  inversion E3. subst r'. clear E3.
  pose (I := fun (rest : list node) (rc : dfs_maps) =>
    dfs_inside g v r rc /\
    (forall w, In w rest -> has_node g w /\ edge g v w) /\
    no_back rc).
  assert (Fin : I [] r2).
  { apply (foldM_inv_partial
             (dfs_edge (dfs_visit g fuel) v (t + 1)) I (dkeys adj)
             (dfs_enter v t r) r2 E2).
    - unfold I. split; [apply dfs_enter_inside; auto|].
      split; [|exact NB].
      intros w Iw. split; [eapply wf_adj_closed; eauto|].
      apply edge_iff. eauto.
    - intros w rest rc rc' [Inc [Hrest NBc]] Ew.
      destruct (Hrest w (or_introl eq_refl)) as [Hw Evw].
      pose proof (di_count g v r rc Inc) as Cc.
      assert (Fc : unexplored_count g (d_state rc) < fuel) by lia.
      assert (Inc' : dfs_inside g v r rc').
      { destruct (dfs_edge_step g fuel v (t + 1) r w rc
                    (dfs_visit_total g W fuel) Uv Inc Hw Fc)
          as [rc1 [E1 In1]].
        rewrite Ew in E1. inversion E1. subst. exact In1. }
      unfold I. split; [exact Inc'|].
      split; [intros w' Iw'; apply Hrest; right; exact Iw'|].
      assert (Anc : forall x, dget x (d_state rc) = Some DISCOVERED ->
                      reach g x v).
      { intros x Dx. destruct (di_gray g v r rc Inc x Dx) as [->|Dx0].
        - apply reach_refl.
        - apply Gray. exact Dx0. }
      destruct (do_total g rc (di_ok g v r rc Inc) w Hw) as [c Gw].
      unfold dfs_edge, lookup in Ew. rewrite Gw in Ew. simpl in Ew.
      destruct c.
      + (* tree edge *)
        set (rt := {| d_state := d_state rc;
                      d_predecessor := dset w (Some v) (d_predecessor rc);
                      d_discovered := d_discovered rc;
                      d_classification :=
                        dset (v, w) TREE_EDGE (d_classification rc);
                      d_finished := d_finished rc |}) in *.
        assert (Okt : dfs_ok g rt).
        { destruct (di_ok g v r rc Inc) as [T D]. constructor; simpl; auto. }
        apply (IH w (t + 1) rt rc' Okt Gw Hw Fc); auto.
        * intros x Dx. eapply reach_step; [apply Anc; exact Dx | exact Evw].
        * intros key. simpl. rewrite dget_dset.
          destruct (key_eqb (v, w) key); [discriminate | apply NBc].
      + (* an edge to an ancestor would close a cycle *)
        exfalso. apply (Acy w v); [apply Anc; exact Gw | exact Evw].
      + apply bind_Ok in Ew. destruct Ew as [tv [_ Ew]].
        apply bind_Ok in Ew. destruct Ew as [tw [_ Ew]].
        destruct (Nat.ltb tw tv); inversion Ew;
          apply no_back_classify; auto; discriminate. }
  destruct Fin as [_ [_ NB2]]. exact NB2.
Qed.

(** [is_acyclic] returns True on a graph without cycle. *)
Lemma is_acyclic_dag fuel :
  List.length (nodes g) < fuel -> is_acyclic g fuel = Ok true.
Proof.
  intros F.
  destruct (dfs_total_with g W no_back fuel F) as [r [E [_ [_ NB]]]].
  - intros key. simpl. discriminate.
  - intros x t r r' Ok0 Ux Hx ND NB E.
    apply (dfs_visit_no_back fuel x t r r'); auto.
    + pose proof (unexplored_count_le g (d_state r)). lia.
    + intros y Dy. exfalso. exact (ND y Dy).
  - unfold is_acyclic. rewrite E. simpl. f_equal.
    apply acyclic_fold_true. exact NB.
Qed.
End DfsAcyclic.

(** ** Topological sort *)

Lemma unvisited_count_le g (visited : dict node bool) :
  unvisited_count g visited <= List.length (nodes g).
Proof.
  unfold unvisited_count, dkeys.
  rewrite <- (length_map fst (nodes g)).
  induction (map fst (nodes g)) as [|a l IH]; simpl; auto.
  destruct (is_unvisited (dget a visited)); simpl; lia.
Qed.

Lemma unvisited_count_mark g (visited : dict node bool) (v : node) :
  has_node g v -> dget v visited = Some false ->
  unvisited_count g (dset v true visited) < unvisited_count g visited.
Proof.
  intros I G. unfold unvisited_count.
  apply filter_length_lt with (v := v); auto.
  - intros x. rewrite dget_dset. key_cases v x; auto. discriminate.
  - rewrite G. reflexivity.
  - rewrite dget_dset_same. reflexivity.
Qed.

Lemma before_app_r {A : Type} (l l' : list A) (a b : A) :
  before l a b -> before (l ++ l') a b.
Proof.
  intros [l1 [l2 [l3 E]]]. exists l1, l2, (l3 ++ l'). rewrite E.
  rewrite <- !app_assoc. simpl. rewrite <- app_assoc. reflexivity.
Qed.

Lemma before_snoc {A : Type} (l : list A) (a b : A) :
  In a l -> before (l ++ [b]) a b.
Proof.
  intros I. apply in_split in I. destruct I as [l1 [l2 E]].
  exists l1, l2, []. rewrite E. rewrite <- app_assoc. reflexivity.
Qed.

Lemma before_rev {A : Type} (l : list A) (a b : A) :
  before l a b -> before (rev l) b a.
Proof.
  intros [l1 [l2 [l3 E]]]. exists (rev l3), (rev l2), (rev l1). rewrite E.
  rewrite rev_app_distr. simpl. rewrite rev_app_distr. simpl.
  rewrite <- !app_assoc. reflexivity.
Qed.

Section TopoFacts.
Variable g : Graph.
Hypothesis W : WF g.
Hypothesis Acy : acyclic g.

(** Marking [v] visited establishes the loop invariant. *)
Lemma topo_enter_inside v vs :
  topo_ok g vs -> dget v (fst vs) = Some false -> has_node g v ->
  topo_inside g v vs (dset v true (fst vs), snd vs).
Proof.
  intros [T S ND O] Uv Hv. constructor; simpl.
  - constructor; simpl; auto.
    + intros x Hx. rewrite dget_dset. key_cases v x; eauto.
    + intros x Ix. destruct (S x Ix) as [Vx Hx]. split; auto.
      rewrite dget_dset. key_cases v x; auto.
  - split; [apply dget_dset_same|].
    intros Iv. destruct (S v Iv) as [Vv _]. congruence.
  - intros x Vx. rewrite dget_dset. key_cases v x; auto.
  - exists []. split; [rewrite app_nil_r; reflexivity | intros x []].
  - intros x. rewrite dget_dset. key_cases v x; auto.
  - apply unvisited_count_mark; auto.
Qed.

(** Pushing [v] after its neighbours turns the loop invariant into the
    postcondition. *)
Lemma topo_leave_post v vs vc :
  topo_ok g vs -> dget v (fst vs) = Some false -> has_node g v ->
  topo_inside g v vs vc ->
  (forall w, edge g v w -> In w (snd vc)) ->
  topo_post g v vs (fst vc, snd vc ++ [v]).
Proof.
  intros Ok0 Uv Hv [[T S ND O] [Vv NIv] Fr [l [El Hl]] Gr Cn] Nb.
  constructor; simpl; auto.
  - constructor; simpl; auto.
    + intros x Ix. apply in_app_or in Ix. destruct Ix as [Ix|[<-|[]]]; auto.
    + apply NoDup_snoc; auto.
    + intros u w Iu Euw. apply in_app_or in Iu.
      destruct Iu as [Iu|[<-|[]]].
      * apply before_app_r. apply O; auto.
      * apply before_snoc. apply Nb. exact Euw.
  - exists (l ++ [v]). split; [rewrite El, app_assoc; reflexivity|].
    split; [apply in_or_app; right; left; reflexivity|].
    intros x Ix. apply in_app_or in Ix. destruct Ix as [Ix|[<-|[]]]; auto.
  - intros x Vx. destruct (Gr x Vx) as [Ix|[->|Vx0]]; auto.
    + left. apply in_or_app. auto.
    + left. apply in_or_app. right. left. reflexivity.
Qed.

(** [dfs_topological] returns when its recursion budget exceeds the
    number of unvisited nodes, and meets its postcondition. *)
Lemma dfs_topological_spec fuel : forall v vs,
  topo_ok g vs -> dget v (fst vs) = Some false -> has_node g v ->
  unvisited_count g (fst vs) < fuel ->
  (forall x, dget x (fst vs) = Some true -> ~ In x (snd vs) ->
             reach g x v) ->
  exists vs', dfs_topological g fuel v vs = Ok vs' /\ topo_post g v vs vs'.
Proof.
  induction fuel as [|fuel IH]; intros v vs Ok0 Uv Hv F Gray; [lia|].
  destruct (has_node_adj g v W Hv) as [adj Ga].
  simpl. unfold lookup at 1. rewrite Ga. simpl.
  pose (I := fun (rest : list node) (vc : dict node bool * list node) =>
    topo_inside g v vs vc /\
    exists done, dkeys adj = done ++ rest /\
      forall w, In w done -> In w (snd vc)).
  destruct (foldM_inv_total (topo_edge (dfs_topological g fuel)) I
              (dkeys adj) (dset v true (fst vs), snd vs))
    as [vs1 [E1 [In1 [done [Ed Hd]]]]].
  - split; [apply topo_enter_inside; auto|].
    exists []. split; [reflexivity | intros w []].
  - intros w rest vc [Inc [done [Ed Hd]]].
    assert (Evw : edge g v w).
    { apply edge_iff. exists adj. split; auto. rewrite Ed.
      apply in_or_app. right. left. reflexivity. }
    destruct (edge_has_nodes g v w W Evw) as [_ Hw].
    destruct Inc as [Okc [Vv NIv] Fr [l [El Hl]] Gr Cn].
    destruct (to_total g vc Okc w Hw) as [b Gw].
    unfold topo_edge, lookup. rewrite Gw. simpl.
    destruct b; simpl.
    + (* already visited: it must be on the stack *)
      exists vc. split; [reflexivity|].
      split; [constructor; eauto|].
      exists (done ++ [w]). split; [rewrite <- app_assoc; exact Ed|].
      intros w' Iw'. apply in_app_or in Iw'.
      destruct Iw' as [Iw'|[<-|[]]]; auto.
      destruct (Gr w Gw) as [Iw|[->|Vw]]; auto.
      * exfalso. apply (Acy v v); [apply reach_refl | exact Evw].
      * destruct (in_dec key_dec w (snd vs)) as [Iw|NIw].
        -- rewrite El. apply in_or_app. auto.
        -- exfalso. apply (Acy w v); [apply Gray; auto | exact Evw].
    + (* not visited yet: the recursive call pushes it *)
      assert (Fc : unvisited_count g (fst vc) < fuel) by lia.
      assert (Anc : forall x, dget x (fst vc) = Some true ->
                      ~ In x (snd vc) -> reach g x w).
      { intros x Vx NIx. destruct (Gr x Vx) as [Ix|[->|Vx0]].
        - contradiction.
        - eapply reach_step; [apply reach_refl | exact Evw].
        - eapply reach_step; [|exact Evw]. apply Gray; auto.
          intros Ix. apply NIx. rewrite El. apply in_or_app. auto. }
      destruct (IH w vc Okc Gw Hw Fc Anc)
        as [vs' [E' [Ok' Fr' [l' [El' [Iw' Hl']]] Gr' Cn']]].
      exists vs'. split; [exact E'|]. split.
      * constructor; auto.
        -- split; [apply Fr'; exact Vv|].
           rewrite El'. intros Iv. apply in_app_or in Iv.
           destruct Iv as [Iv|Iv]; [contradiction|].
           specialize (Hl' v Iv). congruence.
        -- exists (l ++ l'). split; [rewrite El', El, app_assoc; auto|].
           intros x Ix. apply in_app_or in Ix. destruct Ix as [Ix|Ix]; auto.
           assert (Hx : has_node g x).
           { apply (to_stack g vs' Ok'). rewrite El'.
             apply in_or_app. auto. }
           destruct (to_total g vs Ok0 x Hx) as [[|] Gx]; auto.
           specialize (Fr x Gx). specialize (Hl' x Ix). congruence.
        -- intros x Vx. destruct (Gr' x Vx) as [Ix|Vxc]; auto.
           destruct (Gr x Vxc) as [Ix|[->|Vx0]]; auto.
           left. rewrite El'. apply in_or_app. auto.
        -- lia.
      * exists (done ++ [w]). split; [rewrite <- app_assoc; exact Ed|].
        intros w' Iw. rewrite El'. apply in_or_app.
        apply in_app_or in Iw. destruct Iw as [Iw|[<-|[]]]; auto.
  - rewrite E1. simpl. eexists. split; [reflexivity|].
    apply topo_leave_post; auto.
    intros w Evw. apply Hd. rewrite app_nil_r in Ed. rewrite <- Ed.
    apply edge_iff in Evw. destruct Evw as [adj' [Ga' Iw]]. congruence.
Qed.
End TopoFacts.

Lemma dget_Some_In_pair {K V : Type} `{Key K} (k : K) (v : V) (d : dict K V) :
  dget k d = Some v -> In (k, v) d.
Proof.
  induction d as [|[k' v'] rest IH]; simpl; [discriminate|].
  key_cases k' k.
  - intros E. inversion E. auto.
  - auto.
Qed.

Lemma edge_In_edge_list g u v : edge g u v -> In (u, v) (edge_list g).
Proof.
  intros E. apply edge_iff in E. destruct E as [adj [G I]].
  unfold edge_list. apply in_flat_map. exists (u, adj). split.
  - apply dget_Some_In_pair. exact G.
  - simpl. apply in_map. exact I.
Qed.

(** A graph whose edges all climb a ranking has no cycle. *)
Lemma acyclic_by_rank g (rank : node -> nat) :
  forallb (fun uv => Nat.ltb (rank (fst uv)) (rank (snd uv))) (edge_list g)
  = true ->
  acyclic g.
Proof.
  intros Chk.
  assert (Up : forall u v, edge g u v -> rank u < rank v).
  { intros u v E. apply edge_In_edge_list in E.
    rewrite forallb_forall in Chk. specialize (Chk (u, v) E).
    apply Nat.ltb_lt in Chk. exact Chk. }
  assert (Le : forall x y, reach g x y -> rank x <= rank y).
  { intros x y R. induction R as [|y z R IH E]; auto.
    specialize (Up y z E). lia. }
  intros x y R E. specialize (Le x y R). specialize (Up y x E). lia.
Qed.

(** C4: on a graph without cycle [topological_sort] returns a list that
    holds every node exactly once and in which, for every edge (u, v), u
    comes before v. *)
Theorem topological_sort_dag (g : Graph) (fuel : nat) :
  WF g -> acyclic g -> List.length (nodes g) < fuel ->
  exists l, topological_sort g fuel = Ok l /\
    NoDup l /\ (forall x, In x l <-> has_node g x) /\
    Permutation l (dkeys (nodes g)) /\
    (forall u v, edge g u v -> before l u v).
Proof.
  intros W Acy F. unfold topological_sort.
  rewrite (is_acyclic_dag g W Acy fuel F). simpl.
  pose (J := fun (rest : list node) (vc : dict node bool * list node) =>
    topo_ok g vc /\
    (forall x, dget x (fst vc) = Some true -> In x (snd vc)) /\
    (forall x, In x rest -> has_node g x) /\
    (forall x, has_node g x -> In x rest \/ dget x (fst vc) = Some true)).
  destruct (foldM_inv_total (topo_edge (dfs_topological g fuel)) J
              (dkeys (nodes g)) (dict_from_keys (dkeys (nodes g)) false, []))
    as [vs [E [Okv [Vis [_ All]]]]].
  - unfold J. simpl. split; [|split; [|split]]; auto.
    + constructor; simpl.
      * intros x Hx. rewrite dget_dict_from_keys.
        apply list_mem_In in Hx. rewrite Hx. eauto.
      * intros x [].
      * constructor.
      * intros u w [].
    + intros x. rewrite dget_dict_from_keys.
      destruct (list_mem x (dkeys (nodes g))); discriminate.
  - intros w rest vc [Okc [Vis [Hrest All]]].
    assert (Hw : has_node g w) by (apply Hrest; left; reflexivity).
    destruct (to_total g vc Okc w Hw) as [b Gw].
    unfold topo_edge, lookup. rewrite Gw. simpl.
    destruct b; simpl.
    + exists vc. split; [reflexivity|]. unfold J.
      split; [exact Okc|]. split; [exact Vis|].
      split; [intros x Ix; apply Hrest; right; exact Ix|].
      intros x Hx. destruct (All x Hx) as [[<-|Ix]|Vx]; auto.
    + assert (Fc : unvisited_count g (fst vc) < fuel).
      { pose proof (unvisited_count_le g (fst vc)). lia. }
      destruct (dfs_topological_spec g W Acy fuel w vc Okc Gw Hw Fc)
        as [vs' [E' [Ok' Fr' [l' [El' [Iw' Hl']]] Gr' Cn']]].
      { intros x Vx NIx. exfalso. apply NIx. apply Vis. exact Vx. }
      exists vs'. split; [exact E'|]. unfold J.
      split; [exact Ok'|]. split.
      { intros x Vx. destruct (Gr' x Vx) as [Ix|Vxc]; auto.
        rewrite El'. apply in_or_app. left. apply Vis. exact Vxc. }
      split; [intros x Ix; apply Hrest; right; exact Ix|].
      intros x Hx. destruct (All x Hx) as [[<-|Ix]|Vx]; auto.
      right. apply (to_stack g vs' Ok'). rewrite El'. apply in_or_app. auto.
  - rewrite E. simpl. eexists. split; [reflexivity|].
    assert (InStack : forall x, In x (snd vs) <-> has_node g x).
    { intros x. split.
      - intros Ix. apply (to_stack g vs Okv x Ix).
      - intros Hx. apply Vis. destruct (All x Hx) as [[]|Vx]. exact Vx. }
    assert (ND : NoDup (rev (snd vs)))
      by (apply NoDup_rev; apply (to_nodup g vs Okv)).
    assert (Mem : forall x, In x (rev (snd vs)) <-> has_node g x)
      by (intros x; rewrite <- in_rev; apply InStack).
    split; [exact ND|]. split; [exact Mem|]. split.
    + apply NoDup_Permutation; auto. apply (wf_nodes_nodup g W).
    + intros u v Euv. apply before_rev. apply (to_order g vs Okv); auto.
      apply InStack. apply (edge_has_nodes g u v W Euv).
Qed.

Lemma topological_sort_dag_witness :
  exists l, topological_sort fork_graph 10 = Ok l /\
    NoDup l /\ (forall x, In x l <-> has_node fork_graph x) /\
    Permutation l (dkeys (nodes fork_graph)) /\
    (forall u v, edge fork_graph u v -> before l u v).
Proof.
  apply topological_sort_dag.
  - apply graph_of_WF.
  - apply (acyclic_by_rank fork_graph letter_rank). reflexivity.
  - vm_compute. lia.
Defined.

(** * Further properties of the engine *)

(** ** Counting nodes and edges *)

Lemma length_dset {K V : Type} `{Key K} (k : K) (v : V) (d : dict K V) :
  List.length (dset k v d) = List.length d + (if dmem k d then 0 else 1).
Proof.
  unfold dmem. induction d as [|[k' v'] rest IH]; simpl; auto.
  destruct (key_eqb k' k); simpl; [lia|].
  rewrite IH. lia.
Qed.

Lemma count_fold (l : list (dict node ref)) (acc : nat) :
  fold_left (fun count adj => count + List.length adj) l acc
  = acc + list_sum (map (@List.length (node * ref)) l).
Proof.
  revert acc. induction l as [|a l IH]; intros acc; simpl; [lia|].
  rewrite IH. lia.
Qed.

Lemma nb_edges_sum g :
  nb_edges g = list_sum (map (@List.length (node * ref)) (dvalues (edges g))).
Proof. unfold nb_edges. rewrite count_fold. reflexivity. Qed.

Lemma sum_dset_old (e : dict node (dict node ref)) u adj adj0 :
  dget u e = Some adj0 ->
  list_sum (map (@List.length (node * ref)) (dvalues (dset u adj e)))
    + List.length adj0
  = list_sum (map (@List.length (node * ref)) (dvalues e)) + List.length adj.
Proof.
  induction e as [|[k' a'] rest IH]; simpl; [discriminate|].
  destruct (key_eqb k' u); simpl.
  - intros E. inversion E. subst. lia.
  - intros E. specialize (IH E). unfold dvalues in *. lia.
Qed.

Lemma sum_dset_new (e : dict node (dict node ref)) u adj :
  dget u e = None ->
  list_sum (map (@List.length (node * ref)) (dvalues (dset u adj e)))
  = list_sum (map (@List.length (node * ref)) (dvalues e)) + List.length adj.
Proof.
  induction e as [|[k' a'] rest IH]; simpl; [lia|].
  destruct (key_eqb k' u); simpl; [discriminate|].
  intros E. specialize (IH E). unfold dvalues in *. lia.
Qed.

Lemma edgeb_edge_attr g u v :
  edgeb g u v = match edge_attr g u v with Some _ => true | None => false end.
Proof.
  unfold edgeb, edge_attr, dmem. destruct (dget u (edges g)); reflexivity.
Qed.

Lemma attrs_or_new_extends h a :
  exists ext, fst (attrs_or_new h a) = h ++ ext.
Proof.
  destruct a as [r|]; simpl.
  - exists []. rewrite app_nil_r. reflexivity.
  - eexists. reflexivity.
Qed.

(** What creating a node leaves alone. *)
Lemma with_node_facts g n r :
  WF g -> ~ has_node g n ->
  nb_edges (with_node g n r) = nb_edges g /\
  nb_nodes (with_node g n r) = nb_nodes g + 1 /\
  (forall x y, edge_attr (with_node g n r) x y = edge_attr g x y) /\
  (forall x r0, dget x (nodes g) = Some r0 ->
                dget x (nodes (with_node g n r)) = Some r0).
Proof.
  intros W N.
  assert (Ge : dget n (edges g) = None).
  { apply dget_None_iff. rewrite (wf_keys g W). exact N. }
  split; [|split; [|split]].
  - rewrite !nb_edges_sum. simpl. rewrite sum_dset_new by exact Ge.
    simpl. lia.
  - unfold nb_nodes. simpl. rewrite length_dset.
    apply dmem_false in N. rewrite N. reflexivity.
  - intros x y. unfold edge_attr. simpl. rewrite dget_dset.
    key_cases n x; auto. rewrite Ge. reflexivity.
  - intros x r0 G. simpl. rewrite dget_dset_other; auto.
    intros ->. apply dget_Some_In in G. contradiction.
Qed.

(** The first half of [add_edge]: both endpoints are made nodes and
    nothing else changes. *)
Lemma ensure_node_facts h g n a :
  WF g ->
  WF (snd (ensure_node h g n a)) /\
  has_node (snd (ensure_node h g n a)) n /\
  (forall x, has_node g x -> has_node (snd (ensure_node h g n a)) x) /\
  directed (snd (ensure_node h g n a)) = directed g /\
  nb_edges (snd (ensure_node h g n a)) = nb_edges g /\
  (forall x y, edge_attr (snd (ensure_node h g n a)) x y = edge_attr g x y) /\
  (forall x r0, dget x (nodes g) = Some r0 ->
                dget x (nodes (snd (ensure_node h g n a))) = Some r0) /\
  exists ext, fst (ensure_node h g n a) = h ++ ext.
Proof.
  intros W. unfold ensure_node. destruct (dmem n (nodes g)) eqn:M; simpl.
  - apply dmem_In in M.
    split; [exact W|]. split; [exact M|]. split; [auto|].
    split; [reflexivity|]. split; [reflexivity|]. split; [auto|].
    split; [auto|]. exists []. rewrite app_nil_r. reflexivity.
  - apply dmem_false in M.
    assert (G : dget n (nodes g) = None) by (apply dget_None_iff; exact M).
    unfold add_node. rewrite G.
    destruct (attrs_or_new_extends h a) as [ext Eext].
    destruct (attrs_or_new h a) as [h1 r]. simpl in *.
    destruct (with_node_facts g n r W M) as [F1 [F2 [F3 F4]]].
    split; [apply WF_with_node; auto|].
    split; [apply has_node_with_node; auto|].
    split; [intros x Hx; apply has_node_with_node; auto|].
    split; [reflexivity|]. split; [exact F1|]. split; [exact F3|].
    split; [exact F4|]. exists ext. exact Eext.
Qed.

(** Inserting a new edge: the payload is stored for the pair (and, in an
    undirected graph, for the reversed pair too), nothing else moves. *)
Lemma link_nodes_attr h g u v a :
  WF g -> has_node g u -> has_node g v -> edge_attr g u v = None ->
  exists g',
    link_nodes h g u v a
      = Ok (fst (attrs_or_new h a), g', snd (attrs_or_new h a)) /\
    nodes g' = nodes g /\
    (forall x y, edge_attr g' x y =
       if (key_eqb u x && key_eqb v y)
          || (negb (directed g) && key_eqb v x && key_eqb u y)
       then Some (snd (attrs_or_new h a)) else edge_attr g x y) /\
    nb_edges g' =
      nb_edges g +
      (if directed g then 1
       else if key_eqb u v then 1
       else match edge_attr g v u with Some _ => 1 | None => 2 end).
Proof.
  intros W Iu Iv Euv. unfold link_nodes.
  destruct (has_node_adj g u W Iu) as [adj1 G1].
  unfold lookup at 1. rewrite G1. simpl.
  assert (Gv : dget v adj1 = None).
  { unfold edge_attr in Euv. rewrite G1 in Euv. exact Euv. }
  rewrite Gv. destruct (attrs_or_new h a) as [h1 r]. simpl.
  assert (Mv : dmem v adj1 = false) by (unfold dmem; rewrite Gv; auto).
  set (e1 := dset u (dset v r adj1) (edges g)).
  assert (A1 : forall x y, edge_attr (set_edges g e1) x y =
             if key_eqb u x && key_eqb v y then Some r else edge_attr g x y).
  { intros x y. unfold edge_attr, e1. simpl. rewrite dget_dset.
    key_cases u x; simpl.
    - rewrite dget_dset, G1. destruct (key_eqb v y); reflexivity.
    - reflexivity. }
  assert (N1 : nb_edges (set_edges g e1) = nb_edges g + 1).
  { rewrite !nb_edges_sum. unfold e1. simpl.
    pose proof (sum_dset_old (edges g) u (dset v r adj1) adj1 G1) as S.
    rewrite length_dset, Mv in S. lia. }
  destruct (directed g) eqn:D; simpl negb; cbv iota.
  - eexists. split; [reflexivity|]. split; [reflexivity|].
    split; [|exact N1].
    intros x y. rewrite orb_false_r. apply A1.
  - assert (W1 : WF (set_edges g e1)).
    { apply WF_set_adj; auto.
      - apply NoDup_dkeys_dset. eapply wf_adj_nodup; eauto.
      - intros y Hy. apply In_dkeys_dset in Hy. destruct Hy as [->|Hy]; auto.
        eapply wf_adj_closed; eauto. }
    assert (Iv' : has_node (set_edges g e1) v) by exact Iv.
    destruct (has_node_adj _ v W1 Iv') as [adj2 G2]. simpl in G2.
    unfold lookup. rewrite G2. simpl.
    eexists. split; [reflexivity|]. split; [reflexivity|].
    assert (A2 : forall y, dget y adj2 = edge_attr (set_edges g e1) v y).
    { intros y. unfold edge_attr. simpl. rewrite G2. reflexivity. }
    split.
    + intros x y. unfold edge_attr at 1. simpl. rewrite dget_dset.
      key_cases v x; simpl.
      * rewrite dget_dset, A2, A1.
        destruct (key_eqb u y), (key_eqb u x), (key_eqb x y); reflexivity.
      * rewrite orb_false_r.
        change (match dget x e1 with
                | Some adj => dget y adj
                | None => None
                end) with (edge_attr (set_edges g e1) x y).
        apply A1.
    + rewrite nb_edges_sum. simpl.
      pose proof (sum_dset_old e1 v (dset u r adj2) adj2 G2) as S.
      rewrite length_dset in S. rewrite !nb_edges_sum in N1. simpl in N1.
      unfold dmem in S. rewrite A2, A1 in S.
      rewrite nb_edges_sum.
      rewrite (key_eqb_sym v u) in S.
      destruct (key_eqb u v) eqn:Euv'; simpl in S.
      * lia.
      * destruct (edge_attr g v u); simpl in S; lia.
Qed.

Lemma ensure_node_count h g n a :
  nb_nodes (snd (ensure_node h g n a))
    = nb_nodes g + (if dmem n (nodes g) then 0 else 1) /\
  forall x, dmem x (nodes (snd (ensure_node h g n a)))
            = key_eqb n x || dmem x (nodes g).
Proof.
  unfold ensure_node. destruct (dmem n (nodes g)) eqn:M; simpl.
  - split; [lia|]. intros x. key_cases n x; auto.
  - assert (G : dget n (nodes g) = None).
    { unfold dmem in M. destruct (dget n (nodes g)); congruence. }
    unfold add_node. rewrite G. destruct (attrs_or_new h a) as [h1 r]. simpl.
    split.
    + unfold nb_nodes. simpl. rewrite length_dset, M. reflexivity.
    + intros x. apply dmem_dset.
Qed.

(** [add_edge] is the insertion proper, run on a graph that differs from
    the given one by its endpoints being nodes. *)
Lemma add_edge_decompose h g u v a ua va :
  WF g ->
  exists h2 g2,
    add_edge h g u v a ua va = link_nodes h2 g2 u v a /\
    WF g2 /\ has_node g2 u /\ has_node g2 v /\
    directed g2 = directed g /\ nb_edges g2 = nb_edges g /\
    (forall x y, edge_attr g2 x y = edge_attr g x y) /\
    (forall x r0, dget x (nodes g) = Some r0 ->
                  dget x (nodes g2) = Some r0) /\
    (exists ext, h2 = h ++ ext) /\
    nb_nodes g2 =
      nb_nodes g + (if dmem u (nodes g) then 0 else 1)
      + (if key_eqb u v || dmem v (nodes g) then 0 else 1).
Proof.
  intros W. unfold add_edge.
  destruct (ensure_node_facts h g u ua W)
    as [W1 [I1 [K1 [D1 [N1 [A1 [P1 [ext1 E1]]]]]]]].
  destruct (ensure_node_count h g u ua) as [C1 M1].
  destruct (ensure_node h g u ua) as [h1 g1]. simpl in *.
  destruct (ensure_node_facts h1 g1 v va W1)
    as [W2 [I2 [K2 [D2 [N2 [A2 [P2 [ext2 E2]]]]]]]].
  destruct (ensure_node_count h1 g1 v va) as [C2 _].
  destruct (ensure_node h1 g1 v va) as [h2 g2]. simpl in *.
  exists h2, g2. split; [reflexivity|].
  split; [exact W2|]. split; [auto|]. split; [exact I2|].
  split; [congruence|]. split; [congruence|].
  split; [intros x y; rewrite A2; apply A1|].
  split; [auto|]. split.
  - exists (ext1 ++ ext2). rewrite E2, E1, app_assoc. reflexivity.
  - rewrite C2, C1, M1. reflexivity.
Qed.

Lemma attr_symmetric_with_node g n r :
  WF g ->
  directed g = false /\ (forall x y, edge_attr g x y = edge_attr g y x) ->
  ~ has_node g n ->
  directed (with_node g n r) = false /\
  forall x y, edge_attr (with_node g n r) x y = edge_attr (with_node g n r) y x.
Proof.
  intros W [D S] N. split; [exact D|].
  destruct (with_node_facts g n r W N) as [_ [_ [A _]]].
  intros x y. rewrite !A. apply S.
Qed.

Lemma attr_symmetric_link h g u v a h' g' r :
  WF g ->
  directed g = false /\ (forall x y, edge_attr g x y = edge_attr g y x) ->
  has_node g u -> has_node g v -> edgeb g u v = false ->
  link_nodes h g u v a = Ok (h', g', r) ->
  directed g' = false /\
  forall x y, edge_attr g' x y = edge_attr g' y x.
Proof.
  intros W [D S] Iu Iv Euv L.
  assert (Auv : edge_attr g u v = None).
  { rewrite edgeb_edge_attr in Euv. destruct (edge_attr g u v); congruence. }
  destruct (link_nodes_attr h g u v a W Iu Iv Auv) as [g2 [L2 [_ [A _]]]].
  rewrite L in L2. inversion L2. subst g2.
  split.
  - rewrite (link_nodes_directed h g u v a h' g' r); auto.
  - intros x y. rewrite !A, D, (S x y). simpl.
    destruct (key_eqb u x), (key_eqb v y), (key_eqb v x), (key_eqb u y);
      reflexivity.
Qed.

(** What every graph obtained through the interface satisfies. *)
Lemma built_facts d ops h g :
  build d ops = Ok (h, g) ->
  WF g /\ directed g = d /\
  (d = false -> forall x y, edge_attr g x y = edge_attr g y x).
Proof.
  intros E. split; [eapply build_WF; eauto|].
  split; [eapply build_directed; eauto|].
  intros ->.
  destruct (build_inv
              (fun g => directed g = false /\
                        forall x y, edge_attr g x y = edge_attr g y x)
              attr_symmetric_with_node attr_symmetric_link false ops)
    as [h' [g' [E' [_ [_ S]]]]].
  - split; [reflexivity|]. intros x y. reflexivity.
  - rewrite E in E'. inversion E'. subst. exact S.
Qed.

(** ** Stored payloads *)

(** X1: in an undirected graph both directions of an edge hold the very same
    attribute object. *)
Theorem undirected_edge_attrs_shared (ops : list op) (h : store) (g : Graph) :
  build false ops = Ok (h, g) ->
  forall u v, edge_attr g u v = edge_attr g v u.
Proof.
  intros E. destruct (built_facts false ops h g E) as [_ [_ S]]. auto.
Qed.

Lemma undirected_edge_attrs_shared_witness :
  edge_attr undirected_pair "A" "B" = edge_attr undirected_pair "B" "A".
Proof.
  apply (undirected_edge_attrs_shared [plain_edge "A" "B"] [[]; []; []]).
  reflexivity.
Defined.

(** X2: [add_edge] on a graph obtained through the interface returns the
    mapping it leaves stored for the pair (the caller's payload when the edge
    is new and a payload was given), stores it for the reversed pair too when
    the graph is undirected, keeps the mapping of every edge and node that was
    there, and only ever extends the store. *)
Theorem add_edge_stores_and_preserves (d : bool) (ops : list op)
    (h0 h : store) (g : Graph) (u v : node) (a ua va : option ref) :
  build d ops = Ok (h0, g) ->
  exists h' g' r,
    add_edge h g u v a ua va = Ok (h', g', r) /\
    edge_attr g' u v = Some r /\
    (d = false -> edge_attr g' v u = Some r) /\
    (edge_attr g u v = None -> forall p, a = Some p -> r = p) /\
    (forall x y r0, edge_attr g x y = Some r0 -> edge_attr g' x y = Some r0) /\
    (forall x r0, dget x (nodes g) = Some r0 -> dget x (nodes g') = Some r0) /\
    exists ext, h' = h ++ ext.
Proof.
  intros B. destruct (built_facts d ops h0 g B) as [W [D S]].
  destruct (add_edge_decompose h g u v a ua va W)
    as [h2 [g2 [E [W2 [Iu [Iv [D2 [_ [A2 [P2 [[ext2 X2] _]]]]]]]]]]].
  rewrite E. destruct (edge_attr g u v) as [r|] eqn:Auv.
  - (* the edge is there *)
    assert (Auv2 : edge_attr g2 u v = Some r) by (rewrite A2; exact Auv).
    unfold edge_attr in Auv2.
    destruct (dget u (edges g2)) as [adj|] eqn:G1; [|discriminate].
    exists h2, g2, r.
    split; [eapply link_nodes_existing; eauto|].
    split; [rewrite A2; exact Auv|].
    split; [intros ->; rewrite A2, <- (S eq_refl u v); exact Auv|].
    split; [discriminate|].
    split; [intros x y r0; rewrite A2; auto|].
    split; [exact P2|]. exists ext2. exact X2.
  - assert (Auv2 : edge_attr g2 u v = None) by (rewrite A2; exact Auv).
    destruct (link_nodes_attr h2 g2 u v a W2 Iu Iv Auv2)
      as [g' [L [EN [A' _]]]].
    destruct (attrs_or_new_extends h2 a) as [ext3 X3].
    exists (fst (attrs_or_new h2 a)), g', (snd (attrs_or_new h2 a)).
    split; [exact L|].
    split; [rewrite A', !key_eqb_refl; reflexivity|].
    split.
    { intros ->. rewrite A', !key_eqb_refl, D2, D. simpl.
      rewrite orb_true_r. reflexivity. }
    split; [intros _ p ->; reflexivity|].
    split.
    { intros x y r0 Axy. rewrite A', A2, D2, D.
      destruct (key_eqb u x && key_eqb v y) eqn:C1.
      { exfalso. apply andb_true_iff in C1. destruct C1 as [C1 C2].
        apply key_eqb_eq in C1. apply key_eqb_eq in C2.
        rewrite <- C1, <- C2 in Axy. congruence. }
      simpl. destruct d; simpl; auto.
      destruct (key_eqb v x && key_eqb u y) eqn:C2; auto.
      exfalso. apply andb_true_iff in C2. destruct C2 as [C2 C3].
      apply key_eqb_eq in C2. apply key_eqb_eq in C3.
      rewrite <- C2, <- C3, (S eq_refl v u) in Axy. congruence. }
    split; [rewrite EN; exact P2|].
    exists (ext2 ++ ext3). rewrite X3, X2, app_assoc. reflexivity.
Qed.

Lemma add_edge_stores_and_preserves_witness :
  exists h' g' r,
    add_edge [[]; []; []] arrow_graph "B" "C" (Some 1) None None
      = Ok (h', g', r) /\
    edge_attr g' "B" "C" = Some r /\
    (true = false -> edge_attr g' "C" "B" = Some r) /\
    (edge_attr arrow_graph "B" "C" = None ->
     forall p, Some 1 = Some p -> r = p) /\
    (forall x y r0, edge_attr arrow_graph x y = Some r0 ->
                    edge_attr g' x y = Some r0) /\
    (forall x r0, dget x (nodes arrow_graph) = Some r0 ->
                  dget x (nodes g') = Some r0) /\
    exists ext, h' = [[]; []; []] ++ ext.
Proof.
  apply (add_edge_stores_and_preserves true [plain_edge "A" "B"] [[]; []; []]).
  reflexivity.
Defined.

(** X3: [add_node] on a graph with sound storage: the identifier maps to the
    returned mapping afterwards (the caller's payload when the node is new and
    a payload was given); one node is added when the identifier is new and
    none otherwise; no edge and no other node's mapping changes. *)
Theorem add_node_stores_and_counts (h : store) (g : Graph) (n : node)
    (a : option ref) :
  WF g ->
  dget n (nodes (snd (fst (add_node h g n a))))
    = Some (snd (add_node h g n a)) /\
  (dmem n (nodes g) = false -> forall p, a = Some p ->
     snd (add_node h g n a) = p) /\
  nb_nodes (snd (fst (add_node h g n a)))
    = nb_nodes g + (if dmem n (nodes g) then 0 else 1) /\
  nb_edges (snd (fst (add_node h g n a))) = nb_edges g /\
  (forall x y, edge_attr (snd (fst (add_node h g n a))) x y
               = edge_attr g x y) /\
  (forall x r0, dget x (nodes g) = Some r0 ->
     dget x (nodes (snd (fst (add_node h g n a)))) = Some r0).
Proof.
  intros W. unfold add_node, dmem.
  destruct (dget n (nodes g)) as [r|] eqn:G; simpl.
  - split; [exact G|]. split; [discriminate|]. split; [lia|]. auto.
  - assert (N : ~ has_node g n) by (apply dget_None_iff; exact G).
    destruct a as [p|]; simpl.
    + destruct (with_node_facts g n p W N) as [F1 [F2 [F3 F4]]].
      split; [apply dget_dset_same|].
      split; [intros _ q E; inversion E; reflexivity|].
      split; [exact F2|]. split; [exact F1|]. split; [exact F3 | exact F4].
    + destruct (with_node_facts g n (List.length h) W N)
        as [F1 [F2 [F3 F4]]].
      split; [apply dget_dset_same|].
      split; [intros _ q E; discriminate|].
      split; [exact F2|]. split; [exact F1|]. split; [exact F3 | exact F4].
Qed.

Lemma add_node_stores_and_counts_witness :
  dget "C" (nodes (snd (fst (add_node [[]; []; []] arrow_graph "C" (Some 7)))))
    = Some (snd (add_node [[]; []; []] arrow_graph "C" (Some 7))) /\
  (dmem "C" (nodes arrow_graph) = false -> forall p, Some 7 = Some p ->
     snd (add_node [[]; []; []] arrow_graph "C" (Some 7)) = p) /\
  nb_nodes (snd (fst (add_node [[]; []; []] arrow_graph "C" (Some 7))))
    = nb_nodes arrow_graph + (if dmem "C" (nodes arrow_graph) then 0 else 1) /\
  nb_edges (snd (fst (add_node [[]; []; []] arrow_graph "C" (Some 7))))
    = nb_edges arrow_graph /\
  (forall x y,
      edge_attr (snd (fst (add_node [[]; []; []] arrow_graph "C" (Some 7)))) x y
      = edge_attr arrow_graph x y) /\
  (forall x r0, dget x (nodes arrow_graph) = Some r0 ->
     dget x (nodes (snd (fst (add_node [[]; []; []] arrow_graph "C" (Some 7)))))
     = Some r0).
Proof.
  apply add_node_stores_and_counts. apply graph_of_WF.
Defined.

(** X4: [add_edge] on a graph obtained through the interface adds one node per
    endpoint that is new, and one stored pair for a new directed edge or a new
    undirected self-loop, two for any other new undirected edge, none for an
    edge that is there. *)
Theorem add_edge_counts (d : bool) (ops : list op) (h0 h : store) (g : Graph)
    (u v : node) (a ua va : option ref) :
  build d ops = Ok (h0, g) ->
  exists h' g' r,
    add_edge h g u v a ua va = Ok (h', g', r) /\
    nb_nodes g' =
      nb_nodes g + (if dmem u (nodes g) then 0 else 1)
      + (if key_eqb u v || dmem v (nodes g) then 0 else 1) /\
    nb_edges g' =
      nb_edges g +
      (if edgeb g u v then 0
       else if d then 1 else if key_eqb u v then 1 else 2).
Proof.
  intros B. destruct (built_facts d ops h0 g B) as [W [D S]].
  destruct (add_edge_decompose h g u v a ua va W)
    as [h2 [g2 [E [W2 [Iu [Iv [D2 [N2 [A2 [_ [_ C2]]]]]]]]]]].
  rewrite E. rewrite (edgeb_edge_attr g u v).
  destruct (edge_attr g u v) as [r|] eqn:Auv.
  - assert (Auv2 : edge_attr g2 u v = Some r) by (rewrite A2; exact Auv).
    unfold edge_attr in Auv2.
    destruct (dget u (edges g2)) as [adj|] eqn:G1; [|discriminate].
    exists h2, g2, r.
    split; [eapply link_nodes_existing; eauto|].
    split; [exact C2 | lia].
  - assert (Auv2 : edge_attr g2 u v = None) by (rewrite A2; exact Auv).
    destruct (link_nodes_attr h2 g2 u v a W2 Iu Iv Auv2)
      as [g' [L [EN [_ NE]]]].
    eexists _, g', _. split; [exact L|].
    split; [unfold nb_nodes in *; rewrite EN; exact C2|].
    rewrite NE, N2, D2, D. f_equal.
    destruct d; auto. destruct (key_eqb u v); auto.
    rewrite A2, (S eq_refl v u), Auv. reflexivity.
Qed.

Lemma add_edge_counts_witness :
  exists h' g' r,
    add_edge [[]; []; []] undirected_pair "B" "C" None None None
      = Ok (h', g', r) /\
    nb_nodes g' =
      nb_nodes undirected_pair
      + (if dmem "B" (nodes undirected_pair) then 0 else 1)
      + (if key_eqb "B" "C" || dmem "C" (nodes undirected_pair)
         then 0 else 1) /\
    nb_edges g' =
      nb_edges undirected_pair +
      (if edgeb undirected_pair "B" "C" then 0
       else if false then 1 else if key_eqb "B" "C" then 1 else 2).
Proof.
  apply (add_edge_counts false [plain_edge "A" "B"] [[]; []; []]).
  reflexivity.
Defined.

(** ** The stored pairs *)

Lemma length_flat_map_pairs (e : dict node (dict node ref)) :
  List.length
    (flat_map (fun na => map (fun v => (fst na, v)) (dkeys (snd na))) e)
  = list_sum (map (@List.length (node * ref)) (dvalues e)).
Proof.
  induction e as [|[k a] rest IH]; simpl; auto.
  rewrite length_app, length_map. unfold dkeys at 1. rewrite length_map.
  unfold dvalues in *. rewrite IH. reflexivity.
Qed.

Lemma In_edge_list_edge g u v :
  WF g -> In (u, v) (edge_list g) -> edge g u v.
Proof.
  intros W I. unfold edge_list in I. apply in_flat_map in I.
  destruct I as [[k adj] [Ik Iv]]. simpl in Iv.
  apply in_map_iff in Iv. destruct Iv as [y [E Iy]]. inversion E. subst k y.
  apply edge_iff. exists adj. split; auto.
  pose proof (wf_nodes_nodup g W) as ND. rewrite <- (wf_keys g W) in ND.
  clear - Ik ND. induction (edges g) as [|[k' a'] rest IH]; simpl in *.
  - destruct Ik.
  - inversion ND as [|? ? NI ND']. subst.
    destruct Ik as [E|Ik].
    + inversion E. subst. rewrite key_eqb_refl. reflexivity.
    + key_cases k' u.
      * exfalso. apply NI. change (In u (dkeys rest)).
        apply (in_map fst) in Ik. exact Ik.
      * apply IH; auto.
Qed.

Lemma NoDup_map_pair (k : node) (l : list node) :
  NoDup l -> NoDup (map (fun v => (k, v)) l).
Proof.
  induction 1 as [|x l NI ND IH]; simpl; constructor; auto.
  intros I. apply in_map_iff in I. destruct I as [y [E Iy]].
  inversion E. subst. contradiction.
Qed.

Lemma NoDup_edge_list g : WF g -> NoDup (edge_list g).
Proof.
  intros W.
  pose proof (wf_nodes_nodup g W) as ND. rewrite <- (wf_keys g W) in ND.
  assert (AD : forall k adj, In (k, adj) (edges g) -> NoDup (dkeys adj)).
  { intros k adj I. apply (wf_adj_nodup g W k).
    clear - I ND. induction (edges g) as [|[k' a'] rest IH]; simpl in *.
    - destruct I.
    - inversion ND as [|? ? NI ND']. subst. destruct I as [E|I].
      + inversion E. subst. rewrite key_eqb_refl. reflexivity.
      + key_cases k' k.
        * exfalso. apply NI. change (In k (dkeys rest)).
          apply (in_map fst) in I. exact I.
        * apply IH; auto. }
  unfold edge_list. clear W.
  induction (edges g) as [|[k a] rest IH]; simpl; [constructor|].
  inversion ND as [|? ? NI ND']. subst.
  apply NoDup_app.
  - apply NoDup_map_pair. apply (AD k a). left. reflexivity.
  - apply IH; auto. intros k' adj I. apply (AD k' adj). right. exact I.
  - intros [x y] I1 I2. apply in_map_iff in I1.
    destruct I1 as [y' [E _]]. inversion E. subst x y'.
    apply in_flat_map in I2. destruct I2 as [[k' a'] [Ik I2]]. simpl in I2.
    apply in_map_iff in I2. destruct I2 as [y' [E2 _]]. inversion E2. subst k'.
    apply NI. change (In k (dkeys rest)). apply (in_map fst) in Ik. exact Ik.
Qed.

(** X5: [nb_edges] is the number of ordered pairs that have an edge: the list
    of stored pairs has no duplicate, holds exactly the pairs joined by an
    edge, and has [nb_edges] elements. *)
Theorem nb_edges_counts_ordered_pairs (g : Graph) :
  WF g ->
  NoDup (edge_list g) /\
  (forall u v, In (u, v) (edge_list g) <-> edge g u v) /\
  nb_edges g = List.length (edge_list g).
Proof.
  intros W. split; [apply NoDup_edge_list; exact W|]. split.
  - intros u v. split; [apply In_edge_list_edge; exact W|].
    apply edge_In_edge_list.
  - rewrite nb_edges_sum. unfold edge_list.
    rewrite length_flat_map_pairs. reflexivity.
Qed.

Lemma nb_edges_counts_ordered_pairs_witness :
  NoDup (edge_list undirected_pair) /\
  (forall u v, In (u, v) (edge_list undirected_pair)
               <-> edge undirected_pair u v) /\
  nb_edges undirected_pair = List.length (edge_list undirected_pair).
Proof.
  apply nb_edges_counts_ordered_pairs. apply graph_of_WF.
Defined.

(** ** Graphs obtained through the interface *)

Lemma no_roots_with_node g n r :
  WF g -> directed g = false /\ roots g = [] /\ leaves g = [] ->
  ~ has_node g n ->
  directed (with_node g n r) = false /\
  roots (with_node g n r) = [] /\ leaves (with_node g n r) = [].
Proof. intros _ [D [R L]] _. simpl. rewrite D. auto. Qed.

Lemma no_roots_link h g u v a h' g' r :
  WF g -> directed g = false /\ roots g = [] /\ leaves g = [] ->
  has_node g u -> has_node g v -> edgeb g u v = false ->
  link_nodes h g u v a = Ok (h', g', r) ->
  directed g' = false /\ roots g' = [] /\ leaves g' = [].
Proof.
  intros W [D [R L]] Iu Iv Euv E.
  destruct (link_nodes_new h g u v a W Iu Iv Euv)
    as [h2 [g2 [r2 [E2 [_ [_ [D2 [_ [ER EL]]]]]]]]].
  rewrite E in E2. inversion E2. subst h2 g2 r2.
  rewrite D in *. simpl in ER, EL. split; [exact D2|]. split; congruence.
Qed.

(** X6: no sequence of [add_node] and [add_edge] calls raises, and the graph
    it leaves has sound storage: the node table and the adjacency table hold
    the same keys in the same order, without duplicate, and every edge target
    is a node. The [directed] flag stays as constructed, and an undirected
    graph never lists a root or a leaf. *)
Theorem build_keeps_storage_sound (d : bool) (ops : list op) :
  exists h g, build d ops = Ok (h, g) /\ WF g /\ directed g = d /\
    (d = false -> roots g = [] /\ leaves g = []).
Proof.
  destruct (build_inv (fun _ => True) (fun _ _ _ _ _ _ => I)
              (fun _ _ _ _ _ _ _ _ _ _ _ _ _ _ => I) d ops I)
    as [h [g [E _]]].
  exists h, g. split; [exact E|].
  split; [eapply build_WF; eauto|].
  split; [eapply build_directed; eauto|].
  intros ->.
  destruct (build_inv
              (fun g => directed g = false /\ roots g = [] /\ leaves g = [])
              no_roots_with_node no_roots_link false ops)
    as [h' [g' [E' [_ [_ RL]]]]].
  - simpl. auto.
  - rewrite E in E'. inversion E'. subst. exact RL.
Qed.

(** ** Successors, predecessors, neighbours *)

Lemma sorted_insert_perm x l : Permutation (sorted_insert x l) (x :: l).
Proof.
  induction l as [|y l IH]; simpl; auto.
  destruct (String.leb x y); auto.
  rewrite IH. apply perm_swap.
Qed.

Lemma sorted_perm l : Permutation (sorted l) l.
Proof.
  induction l as [|x l IH]; simpl; auto.
  rewrite sorted_insert_perm. constructor. exact IH.
Qed.

Lemma sorted_insert_HdRel y x l :
  str_le y x -> HdRel str_le y l -> HdRel str_le y (sorted_insert x l).
Proof.
  intros Lyx H. destruct l as [|z l]; simpl.
  - constructor. exact Lyx.
  - inversion H. subst. destruct (String.leb x z); constructor; auto.
Qed.

Lemma sorted_insert_Sorted x l :
  Sorted str_le l -> Sorted str_le (sorted_insert x l).
Proof.
  induction 1 as [|y l S IH H]; simpl.
  - constructor; constructor.
  - destruct (String.leb x y) eqn:L.
    + constructor; [constructor; auto|]. constructor. exact L.
    + constructor; [exact IH|].
      apply sorted_insert_HdRel; auto.
      destruct (String.leb_total x y) as [T|T]; [congruence | exact T].
Qed.

Lemma sorted_Sorted l : Sorted str_le (sorted l).
Proof.
  induction l as [|x l IH]; simpl; [constructor|].
  apply sorted_insert_Sorted. exact IH.
Qed.

Lemma str_le_lt a b : str_le a b -> a <> b -> str_lt a b.
Proof.
  unfold str_le, str_lt, String.leb, String.ltb. intros L N.
  destruct (String.compare a b) eqn:C; auto.
  apply String.compare_eq_iff in C. contradiction.
Qed.

Lemma Sorted_strict l : Sorted str_le l -> NoDup l -> Sorted str_lt l.
Proof.
  induction 1 as [|x l S IH H]; intros ND; constructor.
  - apply IH. inversion ND. auto.
  - inversion ND as [|? ? NI ND']. subst.
    destruct H as [|y l L]; constructor.
    apply str_le_lt; auto. intros ->. apply NI. left. reflexivity.
Qed.

Lemma append_parents_filter g c l :
  append_parents g c l
  = l ++ dkeys (filter (fun na => dmem c (snd na)) (edges g)).
Proof.
  unfold append_parents. revert l.
  induction (edges g) as [|[k a] rest IH]; intros l; simpl.
  - rewrite app_nil_r. reflexivity.
  - rewrite IH. destruct (dmem c a); simpl; auto.
    rewrite <- app_assoc. reflexivity.
Qed.

Lemma In_pair_dget {V : Type} (k : node) (v : V) (d : dict node V) :
  NoDup (dkeys d) -> In (k, v) d -> dget k d = Some v.
Proof.
  induction d as [|[k' v'] rest IH]; simpl; intros ND I; [destruct I|].
  inversion ND as [|? ? NI ND']. subst. destruct I as [E|I].
  - inversion E. subst. rewrite key_eqb_refl. reflexivity.
  - key_cases k' k.
    + exfalso. apply NI. change (In k (dkeys rest)).
      apply (in_map fst) in I. exact I.
    + apply IH; auto.
Qed.

Lemma In_parents g c u :
  WF g ->
  (In u (dkeys (filter (fun na => dmem c (snd na)) (edges g)))
   <-> edge g u c).
Proof.
  intros W.
  pose proof (wf_nodes_nodup g W) as ND. rewrite <- (wf_keys g W) in ND.
  unfold dkeys at 1. rewrite in_map_iff. split.
  - intros [[k adj] [E I]]. simpl in E. subst k.
    apply filter_In in I. destruct I as [I M]. simpl in M.
    unfold edge, edgeb. rewrite (In_pair_dget u adj (edges g) ND I). exact M.
  - intros E. unfold edge, edgeb in E.
    destruct (dget u (edges g)) as [adj|] eqn:G; [|discriminate].
    exists (u, adj). split; auto. apply filter_In. split; auto.
    apply dget_Some_In_pair. exact G.
Qed.

Lemma NoDup_parents g c :
  WF g -> NoDup (dkeys (filter (fun na => dmem c (snd na)) (edges g))).
Proof.
  intros W.
  pose proof (wf_nodes_nodup g W) as ND. rewrite <- (wf_keys g W) in ND.
  induction (edges g) as [|[k a] rest IH]; simpl; [constructor|].
  inversion ND as [|? ? NI ND']. subst.
  destruct (dmem c a); simpl; auto.
  constructor; auto. intros I. apply NI.
  unfold dkeys in I. apply in_map_iff in I. destruct I as [[k' a'] [E I]].
  simpl in E. subst k'. apply filter_In in I. destruct I as [I _].
  change (In k (dkeys rest)). apply (in_map fst) in I. exact I.
Qed.

(** The list of [get_successors], when it returns one. *)
Lemma get_successors_Ok g n :
  WF g -> directed g = true -> has_node g n ->
  exists adj, dget n (edges g) = Some adj /\
    get_successors g n = Ok (sorted (dkeys adj)) /\
    neighbors g n = Some (sorted (dkeys adj)) /\
    forall v, In v (sorted (dkeys adj)) <-> edge g n v.
Proof.
  intros W D Hn. destruct (has_node_adj g n W Hn) as [adj G].
  exists adj. split; [exact G|].
  unfold get_successors, neighbors, lookup, dmem. rewrite D, G. simpl.
  split; [reflexivity|]. split; [reflexivity|].
  intros v. rewrite edge_iff. split.
  - intros I. exists adj. split; auto.
    apply (Permutation_in _ (sorted_perm (dkeys adj))). exact I.
  - intros [adj' [G' I]]. rewrite G in G'. inversion G'. subst adj'.
    apply (Permutation_in _ (Permutation_sym (sorted_perm (dkeys adj)))).
    exact I.
Qed.

(** The list of [get_predecessors], when it returns one. *)
Lemma get_predecessors_Ok g n :
  WF g -> directed g = true -> has_node g n ->
  get_predecessors g n
    = Ok (dkeys (filter (fun na => dmem n (snd na)) (edges g))).
Proof.
  intros W D Hn. unfold get_predecessors. rewrite D.
  rewrite (proj2 (dmem_In n (nodes g)) Hn). simpl.
  rewrite append_parents_filter. reflexivity.
Qed.

(** X7: [get_successors] raises ValueError on an undirected graph and for an
    identifier that is not a node; otherwise it returns, as [neighbors] does,
    the targets of the node's edges, each once, in strictly increasing order
    of the identifiers. *)
Theorem get_successors_spec (g : Graph) (n : node) :
  WF g ->
  (directed g = false \/ ~ has_node g n ->
   get_successors g n = Raise ValueError) /\
  (directed g = true -> has_node g n ->
   exists l, get_successors g n = Ok l /\ neighbors g n = Some l /\
     Sorted str_lt l /\ NoDup l /\ forall v, In v l <-> edge g n v).
Proof.
  intros W. split.
  - intros [D|N]; unfold get_successors.
    + rewrite D. reflexivity.
    + rewrite (has_node_edges g n W) in N. apply dmem_false in N.
      rewrite N, andb_false_r. reflexivity.
  - intros D Hn.
    destruct (get_successors_Ok g n W D Hn) as [adj [G [E1 [E2 M]]]].
    exists (sorted (dkeys adj)).
    assert (ND : NoDup (sorted (dkeys adj))).
    { apply (Permutation_NoDup (Permutation_sym (sorted_perm (dkeys adj)))).
      apply (wf_adj_nodup g W n adj G). }
    split; [exact E1|]. split; [exact E2|].
    split; [apply Sorted_strict; auto; apply sorted_Sorted|].
    split; [exact ND | exact M].
Qed.

Lemma get_successors_spec_witness :
  (directed fork_graph = false \/ ~ has_node fork_graph "A" ->
   get_successors fork_graph "A" = Raise ValueError) /\
  (directed fork_graph = true -> has_node fork_graph "A" ->
   exists l, get_successors fork_graph "A" = Ok l /\
     neighbors fork_graph "A" = Some l /\
     Sorted str_lt l /\ NoDup l /\
     forall v, In v l <-> edge fork_graph "A" v).
Proof.
  apply get_successors_spec. apply graph_of_WF.
Defined.

(** X8: [get_predecessors] raises ValueError on an undirected graph and for an
    identifier that is not a node; otherwise it returns the sources of the
    edges into the node, each once. *)
Theorem get_predecessors_spec (g : Graph) (n : node) :
  WF g ->
  (directed g = false \/ ~ has_node g n ->
   get_predecessors g n = Raise ValueError) /\
  (directed g = true -> has_node g n ->
   exists l, get_predecessors g n = Ok l /\
     NoDup l /\ forall u, In u l <-> edge g u n).
Proof.
  intros W. split.
  - intros [D|N]; unfold get_predecessors.
    + rewrite D. reflexivity.
    + apply dmem_false in N. rewrite N, andb_false_r. reflexivity.
  - intros D Hn. eexists. split; [apply get_predecessors_Ok; auto|].
    split; [apply NoDup_parents; exact W|].
    intros u. apply In_parents. exact W.
Qed.

Lemma get_predecessors_spec_witness :
  (directed fork_graph = false \/ ~ has_node fork_graph "D" ->
   get_predecessors fork_graph "D" = Raise ValueError) /\
  (directed fork_graph = true -> has_node fork_graph "D" ->
   exists l, get_predecessors fork_graph "D" = Ok l /\
     NoDup l /\ forall u, In u l <-> edge fork_graph u "D").
Proof.
  apply get_predecessors_spec. apply graph_of_WF.
Defined.

(** X9: on a directed graph, [u] is among the predecessors of [v] exactly when
    [v] is among the successors of [u]. *)
Theorem predecessors_successors_dual (g : Graph) (u v : node) :
  WF g -> directed g = true -> has_node g u -> has_node g v ->
  exists ls lp,
    get_successors g u = Ok ls /\ get_predecessors g v = Ok lp /\
    (In u lp <-> In v ls).
Proof.
  intros W D Hu Hv.
  destruct (get_successors_Ok g u W D Hu) as [adj [G [E1 [_ M]]]].
  eexists _, _. split; [exact E1|].
  split; [apply get_predecessors_Ok; auto|].
  rewrite M. apply In_parents. exact W.
Qed.

Lemma predecessors_successors_dual_witness :
  exists ls lp,
    get_successors fork_graph "B" = Ok ls /\
    get_predecessors fork_graph "D" = Ok lp /\
    (In "B" lp <-> In "D" ls).
Proof.
  apply predecessors_successors_dual.
  - apply graph_of_WF.
  - reflexivity.
  - vm_compute. auto.
  - vm_compute. auto 10.
Defined.

(** X10: in a directed graph obtained through the interface, the roots are the
    nodes whose predecessor list is empty and the leaves the nodes whose
    successor list is empty. *)
Theorem roots_leaves_by_queries (ops : list op) (h : store) (g : Graph) :
  build true ops = Ok (h, g) ->
  forall x,
    (In x (roots g) <-> get_predecessors g x = Ok []) /\
    (In x (leaves g) <-> get_successors g x = Ok []).
Proof.
  intros B.
  assert (W : WF g) by (eapply build_WF; eauto).
  assert (D : directed g = true) by (eapply build_directed; eauto).
  destruct (build_inv (fun g => directed g = true /\ roots_leaves_exact g)
              roots_leaves_with_node roots_leaves_link true ops)
    as [h' [g' [E' [_ [_ RL]]]]].
  { split; [reflexivity | apply roots_leaves_init]. }
  rewrite B in E'. inversion E'. subst h' g'.
  intros x. rewrite (rl_roots g RL x), (rl_leaves g RL x).
  destruct (in_dec key_dec x (dkeys (nodes g))) as [Hx|Nx].
  - split.
    + rewrite (get_predecessors_Ok g x W D Hx). split.
      * intros [_ NE]. f_equal.
        destruct (dkeys (filter (fun na => dmem x (snd na)) (edges g)))
          as [|u l] eqn:El; auto.
        assert (Eu : edge g u x).
        { apply (In_parents g x u W). rewrite El. left. reflexivity. }
        unfold edge in Eu. rewrite NE in Eu. discriminate.
      * intros E. inversion E as [El]. split; auto.
        intros u. destruct (edgeb g u x) eqn:Eu; auto.
        apply (In_parents g x u W) in Eu. rewrite El in Eu. destruct Eu.
    + destruct (get_successors_Ok g x W D Hx) as [adj [G [E1 [_ M]]]].
      rewrite E1. split.
      * intros [_ NE]. f_equal.
        destruct (sorted (dkeys adj)) as [|v l] eqn:El; auto.
        assert (Ev : edge g x v) by (apply M; left; reflexivity).
        unfold edge in Ev. rewrite NE in Ev. discriminate.
      * intros E. inversion E as [El]. split; auto.
        intros v. destruct (edgeb g x v) eqn:Ev; auto.
        apply M in Ev. rewrite El in Ev. destruct Ev.
  - split; split.
    + intros [Hx _]. contradiction.
    + unfold get_predecessors. apply dmem_false in Nx.
      rewrite Nx, andb_false_r. discriminate.
    + intros [Hx _]. contradiction.
    + unfold get_successors.
      rewrite (has_node_edges g x W) in Nx. apply dmem_false in Nx.
      rewrite Nx, andb_false_r. discriminate.
Qed.

Lemma roots_leaves_by_queries_witness :
  (In "A" (roots fork_graph) <-> get_predecessors fork_graph "A" = Ok []) /\
  (In "A" (leaves fork_graph) <-> get_successors fork_graph "A" = Ok []).
Proof.
  apply (roots_leaves_by_queries
           [plain_edge "A" "B"; plain_edge "B" "D"; plain_edge "A" "C"]
           [[]; []; []; []; []; []; []]).
  vm_compute. reflexivity.
Defined.

(** ** Breadth-first distances are shortest *)

Lemma is_path_reach g s t l : is_path g s t l -> reach g s t.
Proof.
  induction 1 as [|y z l P IH E]; [apply reach_refl|].
  eapply reach_step; eauto.
Qed.

(** No path is shorter than the distance [bfs] assigns to its end. *)
Lemma bfs_final_path_bound g s k m :
  WF g -> bfs_inv g s k m [] ->
  forall t l, is_path g s t l ->
    exists n, dget t (b_distance m) = Some (Fin n) /\ n + 1 <= List.length l.
Proof.
  intros W Inv t l P. induction P as [|y z l P IH E].
  - exists 0. split; [apply (bi_start g s k m _ Inv) | simpl; lia].
  - destruct IH as [n [Dy L]].
    destruct (final_triangle g W s k m Inv y z n E Dy) as [n' [Dz L']].
    exists n'. split; auto. rewrite length_app. simpl. lia.
Qed.

(** X11: the distance [bfs] gives a node is the edge count of a shortest path
    from the start: some path has that many edges and none has fewer. *)
Theorem bfs_distance_is_shortest (g : Graph) (start : node) (fuel : nat) :
  WF g -> has_node g start -> List.length (nodes g) < fuel ->
  exists m, bfs g fuel start = Ok m /\
    forall t n, has_node g t -> dget t (b_distance m) = Some (Fin n) ->
      (exists l, is_path g start t l /\ List.length l = n + 1) /\
      (forall l, is_path g start t l -> n + 1 <= List.length l).
Proof.
  intros W Hs F.
  destruct (bfs_total g W start Hs fuel F) as [k [m [E Inv]]].
  exists m. split; [exact E|].
  intros t n Ht Dt. split.
  - pose proof (final_finite_finished g start k m Inv t n Ht Dt) as Ft.
    destruct (path_walk_spec g start Hs k m Inv n t Ft Dt)
      as [l [L1 [_ [L3 _]]]].
    exists l. auto.
  - intros l P.
    destruct (bfs_final_path_bound g start k m W Inv t l P) as [n' [Dn L]].
    rewrite Dt in Dn. inversion Dn. lia.
Qed.

Lemma bfs_distance_is_shortest_witness :
  exists m, bfs fork_graph 10 "A" = Ok m /\
    forall t n, has_node fork_graph t ->
      dget t (b_distance m) = Some (Fin n) ->
      (exists l, is_path fork_graph "A" t l /\ List.length l = n + 1) /\
      (forall l, is_path fork_graph "A" t l -> n + 1 <= List.length l).
Proof.
  apply bfs_distance_is_shortest.
  - apply graph_of_WF.
  - vm_compute. auto.
  - vm_compute. lia.
Defined.

(** X12: [bfs] leaves no node DISCOVERED; the start keeps distance 0 and no
    predecessor; every other node it reached has a predecessor that it reached
    too, joined to it by an edge and one step closer to the start. *)
Theorem bfs_predecessor_tree (g : Graph) (start : node) (fuel : nat) :
  WF g -> has_node g start -> List.length (nodes g) < fuel ->
  exists m, bfs g fuel start = Ok m /\
    dget start (b_distance m) = Some (Fin 0) /\
    dget start (b_predecessor m) = Some None /\
    (forall x, has_node g x ->
       dget x (b_state m) = Some UNEXPLORED \/
       dget x (b_state m) = Some FINISHED) /\
    (forall x, dget x (b_state m) = Some FINISHED -> x <> start ->
       exists u n, dget x (b_predecessor m) = Some (Some u) /\
         edge g u x /\ dget u (b_state m) = Some FINISHED /\
         dget u (b_distance m) = Some (Fin n) /\
         dget x (b_distance m) = Some (Fin (n + 1))).
Proof.
  intros W Hs F.
  destruct (bfs_total g W start Hs fuel F) as [k [m [E Inv]]].
  exists m. split; [exact E|].
  destruct (bi_start g start k m _ Inv) as [S1 [S2 _]].
  split; [exact S1|]. split; [exact S2|]. split.
  - intros x Hx. destruct (bi_total g start k m _ Inv x Hx) as [c Gc].
    destruct c; auto. exfalso.
    exact (final_no_discovered g start k m Inv x Gc).
  - intros x Fx Nx.
    destruct (bi_tree g start k m _ Inv x (or_intror Fx))
      as [_ [_ [n [Dx [->|[u [n' [P1 [P2 [P3 [P4 P5]]]]]]]]]]];
      [congruence|].
    exists u, n'. split; [exact P1|]. split; [exact P2|].
    split; [apply (final_explored_finished g start k m Inv u P3)|].
    split; [exact P4|]. rewrite Dx, P5. reflexivity.
Qed.

Lemma bfs_predecessor_tree_witness :
  exists m, bfs fork_graph 10 "A" = Ok m /\
    dget "A" (b_distance m) = Some (Fin 0) /\
    dget "A" (b_predecessor m) = Some None /\
    (forall x, has_node fork_graph x ->
       dget x (b_state m) = Some UNEXPLORED \/
       dget x (b_state m) = Some FINISHED) /\
    (forall x, dget x (b_state m) = Some FINISHED -> x <> "A" ->
       exists u n, dget x (b_predecessor m) = Some (Some u) /\
         edge fork_graph u x /\ dget u (b_state m) = Some FINISHED /\
         dget u (b_distance m) = Some (Fin n) /\
         dget x (b_distance m) = Some (Fin (n + 1))).
Proof.
  apply bfs_predecessor_tree.
  - apply graph_of_WF.
  - vm_compute. auto.
  - vm_compute. lia.
Defined.

(** X13: the list [get_shortest_path] returns has no repeated node and, when
    any path from [s] to [t] exists, is such a path and no longer than any
    other. *)
Theorem get_shortest_path_is_shortest (g : Graph) (s t : node) (fuel : nat) :
  WF g -> List.length (nodes g) < fuel -> has_node g s -> has_node g t ->
  exists p, get_shortest_path g fuel s t = Ok p /\ NoDup p /\
    forall l, is_path g s t l ->
      is_path g s t p /\ List.length p <= List.length l.
Proof.
  intros W F Hs Ht. unfold get_shortest_path.
  rewrite (proj2 (dmem_In s (nodes g)) Hs).
  rewrite (proj2 (dmem_In t (nodes g)) Ht). simpl.
  destruct (bfs_total g W s Hs fuel F) as [k [m [E Inv]]].
  rewrite E. simpl.
  destruct (bi_total g s k m _ Inv t Ht) as [c Gc].
  destruct c.
  - destruct (bi_unexplored g s k m _ Inv t Gc) as [Dt _].
    unfold lookup. rewrite Dt. simpl.
    exists []. split; [reflexivity|]. split; [constructor|].
    intros l P. exfalso. apply is_path_reach in P.
    pose proof (final_reach_finished g W s k m Inv t P). congruence.
  - exfalso. exact (final_no_discovered g s k m Inv t Gc).
  - destruct (bi_finished_level g s k m _ Inv t Gc) as [n [Dn _]].
    unfold lookup. rewrite Dn. simpl.
    destruct (path_walk_spec g s Hs k m Inv n t Gc Dn)
      as [p [L1 [L2 [L3 [L4 [L5 L6]]]]]].
    assert (B : List.length p <= List.length (nodes g)).
    { apply nodes_length_bound; auto. intros y Iy. apply (L5 y Iy). }
    rewrite L6 by lia. simpl. rewrite rev_involutive.
    exists p. split; [reflexivity|]. split; [exact L4|].
    intros l P. split; [exact L1|].
    destruct (bfs_final_path_bound g s k m W Inv t l P) as [n' [Dn' L]].
    rewrite Dn in Dn'. inversion Dn'. lia.
Qed.

Lemma get_shortest_path_is_shortest_witness :
  exists p, get_shortest_path fork_graph 10 "A" "D" = Ok p /\ NoDup p /\
    forall l, is_path fork_graph "A" "D" l ->
      is_path fork_graph "A" "D" p /\ List.length p <= List.length l.
Proof.
  apply get_shortest_path_is_shortest.
  - apply graph_of_WF.
  - vm_compute. lia.
  - vm_compute. auto.
  - vm_compute. auto 10.
Defined.

(** ** The cycle check is exact *)

Lemma index_of_app x l1 l2 :
  ~ In x l1 -> index_of x (l1 ++ x :: l2) = List.length l1.
Proof.
  induction l1 as [|y l1 IH]; simpl; intros N.
  - rewrite key_eqb_refl. reflexivity.
  - key_cases y x; [tauto|]. rewrite IH; tauto.
Qed.

Lemma before_index l a b :
  NoDup l -> before l a b -> index_of a l < index_of b l.
Proof.
  intros ND [l1 [l2 [l3 E]]]. subst l.
  assert (Na : ~ In a l1).
  { apply NoDup_remove_2 in ND. intros I. apply ND. apply in_or_app. auto. }
  rewrite (index_of_app a l1 (l2 ++ b :: l3) Na).
  assert (E : l1 ++ a :: l2 ++ b :: l3 = (l1 ++ a :: l2) ++ b :: l3).
  { rewrite <- app_assoc. reflexivity. }
  rewrite E in *.
  assert (Nb : ~ In b (l1 ++ a :: l2)).
  { apply NoDup_remove_2 in ND. intros I. apply ND. apply in_or_app. auto. }
  rewrite (index_of_app b (l1 ++ a :: l2) l3 Nb).
  rewrite length_app. simpl. lia.
Qed.

(** A graph whose edges all descend a ranking has no cycle. *)
Lemma acyclic_by_order g (rank : node -> nat) :
  (forall u w, edge g u w -> rank w < rank u) -> acyclic g.
Proof.
  intros Down.
  assert (Le : forall x y, reach g x y -> rank y <= rank x).
  { intros x y R. induction R as [|y z R IH E]; auto.
    specialize (Down y z E). lia. }
  intros x y R E. specialize (Le x y R). specialize (Down y x E). lia.
Qed.

Section DfsVerdict.
Variable g : Graph.
Hypothesis W : WF g.

(** A visit keeps the verdict. *)
Lemma dfs_visit_verdict fuel : forall v t r r',
  dfs_ok g r -> dget v (d_state r) = Some UNEXPLORED -> has_node g v ->
  unexplored_count g (d_state r) < fuel ->
  dfs_verdict g r ->
  dfs_visit g fuel v t r = Ok r' -> dfs_verdict g r'.
Proof.
  induction fuel as [|fuel IH]; intros v t r r' Ok0 Uv Hv F V E; [lia|].
  destruct (has_node_adj g v W Hv) as [adj Ga].
  pose proof (wf_adj_nodup g W v adj Ga) as NDadj.
  simpl in E. unfold lookup at 1 in E. rewrite Ga in E. simpl in E.
  apply bind_Ok in E. destruct E as [r2 [E2 E3]].
  inversion E3. subst r'. clear E3.
  pose (I := fun (rest : list node) (rc : dfs_maps) =>
    dfs_inside g v r rc /\
    exists done, dkeys adj = done ++ rest /\
      ((exists a b, dget (a, b) (d_classification rc) = Some BACK_EDGE /\
                    explored (dget a (d_state rc)) /\
                    (a = v -> In b done)) \/
       (no_back rc /\ finished_order g rc /\
        forall w, In w done -> dget w (d_state rc) = Some FINISHED))).
  assert (Fin : I [] r2).
  { apply (foldM_inv_partial
             (dfs_edge (dfs_visit g fuel) v (t + 1)) I (dkeys adj)
             (dfs_enter v t r) r2 E2).
    - unfold I. split; [apply dfs_enter_inside; auto|].
      exists []. split; [reflexivity|].
      destruct V as [[a [b [B Ea]]]|[NB [fl [ND [Mem Ord]]]]].
      + left. exists a, b. simpl. split; [exact B|].
        assert (Na : v <> a).
        { intros ->. apply explored_not_unexplored in Ea. congruence. }
        rewrite dget_dset_other by exact Na. split; [exact Ea|].
        intros ->. congruence.
      + right. split; [exact NB|]. split; [|intros w []].
        exists fl. split; [exact ND|]. split; [|exact Ord].
        intros x. rewrite Mem. simpl. rewrite dget_dset.
        key_cases v x; [|tauto]. split; congruence.
    - intros w rest rc rc' [Inc [done [Ed Vc]]] Ew.
      assert (Iw : In w (dkeys adj)).
      { rewrite Ed. apply in_or_app. right. left. reflexivity. }
      assert (Hw : has_node g w) by (eapply wf_adj_closed; eauto).
      assert (Nw : ~ In w done).
      { rewrite Ed in NDadj. apply NoDup_remove_2 in NDadj.
        intros Id. apply NDadj. apply in_or_app. auto. }
      pose proof (di_vertex g v r rc Inc) as Sv.
      pose proof (di_count g v r rc Inc) as Cc.
      assert (Fc : unexplored_count g (d_state rc) < fuel) by lia.
      assert (Inc' : dfs_inside g v r rc').
      { destruct (dfs_edge_step g fuel v (t + 1) r w rc
                    (dfs_visit_total g W fuel) Uv Inc Hw Fc)
          as [rc1 [E1 In1]].
        rewrite Ew in E1. inversion E1. subst. exact In1. }
      unfold I. split; [exact Inc'|].
      exists (done ++ [w]). split; [rewrite <- app_assoc; exact Ed|].
      assert (Other : forall a b, (a = v -> In b done) -> (v, w) <> (a, b)).
      { intros a b Hab Eq. inversion Eq. subst a b. apply Nw. auto. }
      destruct (do_total g rc (di_ok g v r rc Inc) w Hw) as [c Gw].
      unfold dfs_edge, lookup in Ew. rewrite Gw in Ew. simpl in Ew.
      destruct c.
      + (* tree edge *)
        set (rt := {| d_state := d_state rc;
                      d_predecessor := dset w (Some v) (d_predecessor rc);
                      d_discovered := d_discovered rc;
                      d_classification :=
                        dset (v, w) TREE_EDGE (d_classification rc);
                      d_finished := d_finished rc |}) in *.
        assert (Okt : dfs_ok g rt).
        { destruct (di_ok g v r rc Inc) as [T D]. constructor; simpl; auto. }
        pose proof (dfs_visit_post g W fuel w (t + 1) rt rc' Okt Gw Hw Fc Ew)
          as [_ Fr' Fi' _ _].
        destruct Vc as [[a [b [B [Ea Hab]]]]|[NB [FO Dn]]].
        * left. exists a, b.
          destruct (Fr' a Ea) as [S1 C1].
          split; [rewrite C1; simpl; rewrite dget_dset_other; auto|].
          split; [rewrite S1; exact Ea|].
          intros Eq. apply in_or_app. auto.
        * assert (NBt : no_back rt).
          { intros key. simpl. rewrite dget_dset.
            destruct (key_eqb (v, w) key); [discriminate | apply NB]. }
          assert (Vt : dfs_verdict g rt) by (right; split; assumption).
          destruct (IH w (t + 1) rt rc' Okt Gw Hw Fc Vt Ew)
            as [[a [b [B Ea]]]|[NB' FO']].
          -- left. exists a, b. split; [exact B|]. split; [exact Ea|].
             intros ->. exfalso.
             destruct (Fr' v (or_introl Sv)) as [_ C1].
             rewrite C1 in B. exact (NBt (v, b) B).
          -- right. split; [exact NB'|]. split; [exact FO'|].
             intros x Ix. apply in_app_or in Ix.
             destruct Ix as [Ix|[<-|[]]]; [|exact Fi'].
             destruct (Fr' x (or_intror (Dn x Ix))) as [S1 _].
             rewrite S1. apply Dn. exact Ix.
      + (* back edge *)
        inversion Ew. subst rc'. left. exists v, w. simpl.
        split; [apply dget_dset_same|]. split; [left; exact Sv|].
        intros _. apply in_or_app. right. left. reflexivity.
      + (* cross or forward edge *)
        apply bind_Ok in Ew. destruct Ew as [tv [_ Ew]].
        apply bind_Ok in Ew. destruct Ew as [tw [_ Ew]].
        assert (Any : forall c, c <> BACK_EDGE ->
          (exists a b,
              dget (a, b) (d_classification (classify rc v w c))
              = Some BACK_EDGE /\
              explored (dget a (d_state (classify rc v w c))) /\
              (a = v -> In b (done ++ [w]))) \/
          (no_back (classify rc v w c) /\
           finished_order g (classify rc v w c) /\
           forall x, In x (done ++ [w]) ->
             dget x (d_state (classify rc v w c)) = Some FINISHED)).
        { intros c Nc.
          destruct Vc as [[a [b [B [Ea Hab]]]]|[NB [FO Dn]]].
          - left. exists a, b. simpl.
            split; [rewrite dget_dset_other; auto|]. split; [exact Ea|].
            intros Eq. apply in_or_app. auto.
          - right. split; [apply no_back_classify; auto|].
            split; [exact FO|]. simpl.
            intros x Ix. apply in_app_or in Ix.
            destruct Ix as [Ix|[<-|[]]]; auto. }
        destruct (Nat.ltb tw tv); inversion Ew; apply Any; discriminate. }
  destruct Fin as [In2 [done [Ed V2]]]. rewrite app_nil_r in Ed.
  pose proof (di_vertex g v r r2 In2) as Sv.
  destruct V2 as [[a [b [B [Ea _]]]]|[NB [[fl [ND [Mem Ord]]] Dn]]].
  - left. exists a, b. simpl. split; [exact B|].
    rewrite dget_dset. key_cases v a; [right; reflexivity | exact Ea].
  - right. split; [exact NB|].
    assert (Nv : ~ In v fl).
    { intros Iv. apply Mem in Iv. congruence. }
    exists (fl ++ [v]). split; [apply NoDup_snoc; auto|]. split.
    + intros x. simpl. rewrite dget_dset, in_app_iff. simpl.
      key_cases v x.
      * split; auto.
      * rewrite Mem. split; [intros [H|[H|[]]]; congruence | auto].
    + intros u w Iu Euw. apply in_app_or in Iu.
      destruct Iu as [Iu|[<-|[]]].
      * apply before_app_r. apply Ord; auto.
      * apply before_snoc. apply Mem. apply Dn. rewrite <- Ed.
        apply edge_iff in Euw. destruct Euw as [adj' [Ga' Iw]]. congruence.
Qed.

(** [is_acyclic] returns, and returns True exactly on the graphs without
    cycle. *)
Lemma is_acyclic_decides fuel :
  List.length (nodes g) < fuel ->
  exists b, is_acyclic g fuel = Ok b /\ (b = true <-> acyclic g).
Proof.
  intros F.
  destruct (dfs_total_with g W (dfs_verdict g) fuel F)
    as [r [E [_ [All V]]]].
  - right. split; [intros key; simpl; discriminate|].
    exists []. split; [constructor|]. split; [|intros u w []].
    intros x. rewrite dfs_init_state. simpl.
    destruct (list_mem x (dkeys (nodes g))); split;
      solve [tauto | discriminate].
  - intros x t r r' Ok0 Ux Hx _ V E.
    apply (dfs_visit_verdict fuel x t r r'); auto.
    pose proof (unexplored_count_le g (d_state r)). lia.
  - unfold is_acyclic. rewrite E. simpl.
    destruct V as [[a [b [B _]]]|[NB [fl [ND [Mem Ord]]]]].
    + exists false. split.
      * f_equal. apply acyclic_fold_false. exists (a, b).
        split; auto. eapply dget_Some_In; eauto.
      * split; [discriminate|]. intros Acy. exfalso.
        pose proof (is_acyclic_dag g W Acy fuel F) as T.
        unfold is_acyclic in T. rewrite E in T. simpl in T.
        rewrite (acyclic_fold_false (d_classification r)
                   (dkeys (d_classification r)) true) in T;
          [discriminate|].
        exists (a, b). split; auto. eapply dget_Some_In; eauto.
    + exists true. split; [f_equal; apply acyclic_fold_true; exact NB|].
      split; auto. intros _.
      apply (acyclic_by_order g (fun x => index_of x fl)).
      intros u w Euw. apply before_index; auto. apply Ord; auto.
      apply Mem. apply All. apply (edge_has_nodes g u w W Euw).
Qed.
End DfsVerdict.

(** X14: [is_acyclic] returns True when the graph has no cycle and False when
    it has one. *)
Theorem is_acyclic_correct (g : Graph) (fuel : nat) :
  WF g -> List.length (nodes g) < fuel ->
  exists b, is_acyclic g fuel = Ok b /\ (b = true <-> acyclic g).
Proof. intros W F. apply is_acyclic_decides; auto. Qed.

Lemma is_acyclic_correct_witness :
  exists b, is_acyclic two_cycle_graph 10 = Ok b /\
            (b = true <-> acyclic two_cycle_graph).
Proof.
  apply is_acyclic_correct.
  - apply graph_of_WF.
  - vm_compute. lia.
Defined.

(** X15: on every graph that has a cycle, [topological_sort] and [max_depth]
    raise ValueError. *)
Theorem cyclic_graph_rejected (g : Graph) (fuel : nat) :
  WF g -> List.length (nodes g) < fuel -> ~ acyclic g ->
  topological_sort g fuel = Raise ValueError /\
  max_depth g fuel = Raise ValueError.
Proof.
  intros W F NA.
  destruct (is_acyclic_decides g W fuel F) as [b [E Iff]].
  assert (b = false).
  { destruct b; auto. exfalso. apply NA. apply Iff. reflexivity. }
  subst b. unfold topological_sort, max_depth. rewrite E. simpl. auto.
Qed.

Lemma cyclic_graph_rejected_witness :
  topological_sort two_cycle_graph 10 = Raise ValueError /\
  max_depth two_cycle_graph 10 = Raise ValueError.
Proof.
  apply cyclic_graph_rejected.
  - apply graph_of_WF.
  - vm_compute. lia.
  - intros Acy. apply (Acy "A" "B").
    + eapply reach_step; [apply reach_refl | reflexivity].
    + reflexivity.
Defined.

(** ** What depth-first search records *)

Section DfsRecords.
Variable g : Graph.
Hypothesis W : WF g.

Lemma dfs_visit_records fuel : forall v t r r',
  dfs_ok g r -> dget v (d_state r) = Some UNEXPLORED -> has_node g v ->
  unexplored_count g (d_state r) < fuel ->
  dfs_records g r ->
  dfs_visit g fuel v t r = Ok r' ->
  dfs_records g r' /\
  forall x, explored (dget x (d_state r)) ->
            dget x (d_discovered r') = dget x (d_discovered r).
Proof.
  induction fuel as [|fuel IH]; intros v t r r' Ok0 Uv Hv F R E; [lia|].
  destruct (has_node_adj g v W Hv) as [adj Ga].
  pose proof (wf_adj_nodup g W v adj Ga) as NDadj.
  simpl in E. unfold lookup at 1 in E. rewrite Ga in E. simpl in E.
  apply bind_Ok in E. destruct E as [r2 [E2 E3]].
  inversion E3. subst r'. clear E3.
  assert (Nv : forall x, explored (dget x (d_state r)) -> v <> x).
  { intros x Ex ->. apply explored_not_unexplored in Ex. congruence. }
  pose (I := fun (rest : list node) (rc : dfs_maps) =>
    dfs_inside g v r rc /\ dfs_records g rc /\
    dget v (d_discovered rc) = Some (t + 1) /\
    (forall x, explored (dget x (d_state r)) ->
               dget x (d_discovered rc) = dget x (d_discovered r)) /\
    exists done, dkeys adj = done ++ rest /\
      (forall b, dget (v, b) (d_classification rc) <> None -> In b done) /\
      (forall w, In w done -> dget (v, w) (d_classification rc) <> None)).
  assert (Fin : I [] r2).
  { apply (foldM_inv_partial
             (dfs_edge (dfs_visit g fuel) v (t + 1)) I (dkeys adj)
             (dfs_enter v t r) r2 E2).
    - destruct R as [K1 K3 K4 K5].
      unfold I. split; [apply dfs_enter_inside; auto|]. split.
      { constructor; simpl.
        - intros x y c C. destruct (K1 x y c C) as [Exy Ex].
          split; auto. rewrite dget_dset_other; auto.
        - exact K3.
        - intros x y. rewrite dget_dset. key_cases v x; [discriminate|].
          apply K4.
        - intros x. rewrite !dget_dset. key_cases v x; [discriminate|].
          apply K5. }
      split; [simpl; apply dget_dset_same|].
      split; [intros x Ex; simpl; apply dget_dset_other; auto|].
      exists []. split; [reflexivity|]. split; [|intros w []].
      intros b C. simpl in C.
      destruct (dget (v, b) (d_classification r)) as [c|] eqn:Cb; [|tauto].
      destruct (K1 v b c Cb) as [_ Ev].
      apply explored_not_unexplored in Ev. congruence.
    - intros w rest rc rc' [Inc [Rc [Dv [Frd [done [Ed [K2 Kd]]]]]]] Ew.
      assert (Iw : In w (dkeys adj)).
      { rewrite Ed. apply in_or_app. right. left. reflexivity. }
      assert (Hw : has_node g w) by (eapply wf_adj_closed; eauto).
      assert (Evw : edge g v w) by (apply edge_iff; eauto).
      assert (Nw : ~ In w done).
      { rewrite Ed in NDadj. apply NoDup_remove_2 in NDadj.
        intros Id. apply NDadj. apply in_or_app. auto. }
      assert (Free : dget (v, w) (d_classification rc) = None).
      { destruct (dget (v, w) (d_classification rc)) eqn:C; auto.
        exfalso. apply Nw. apply K2. congruence. }
      pose proof (di_vertex g v r rc Inc) as Sv.
      pose proof (di_count g v r rc Inc) as Cc.
      assert (Fc : unexplored_count g (d_state rc) < fuel) by lia.
      assert (Inc' : dfs_inside g v r rc').
      { destruct (dfs_edge_step g fuel v (t + 1) r w rc
                    (dfs_visit_total g W fuel) Uv Inc Hw Fc)
          as [rc1 [E1 In1]].
        rewrite Ew in E1. inversion E1. subst. exact In1. }
      unfold I. split; [exact Inc'|].
      assert (Step : forall c,
        let rk := {| d_state := d_state rc;
                     d_predecessor := d_predecessor rc;
                     d_discovered := d_discovered rc;
                     d_classification :=
                       dset (v, w) c (d_classification rc);
                     d_finished := d_finished rc |} in
        dfs_records g rk /\
        (forall b, dget (v, b) (d_classification rk) <> None ->
                   In b (done ++ [w])) /\
        (forall x, In x (done ++ [w]) ->
                   dget (v, x) (d_classification rk) <> None)).
      { intros c rk. destruct Rc as [K1 K3 K4 K5]. split; [|split].
        - constructor; simpl.
          + intros x y c0. rewrite dget_dset.
            destruct (key_eqb (v, w) (x, y)) eqn:Q.
            * apply key_eqb_eq in Q. inversion Q. subst x y.
              intros _. split; [exact Evw | left; exact Sv].
            * apply K1.
          + intros x y P. rewrite dget_dset.
            destruct (key_eqb (v, w) (x, y)) eqn:Q; [|apply K3; exact P].
            apply key_eqb_eq in Q. inversion Q. subst x y.
            rewrite (K3 v w P) in Free. discriminate.
          + intros x y Fx Exy. rewrite dget_dset.
            destruct (key_eqb (v, w) (x, y)); [discriminate | apply K4; auto].
          + exact K5.
        - intros b. simpl. rewrite dget_dset.
          destruct (key_eqb (v, w) (v, b)) eqn:Q.
          + apply key_eqb_eq in Q. inversion Q. intros _.
            apply in_or_app. right. left. reflexivity.
          + intros C. apply in_or_app. left. apply K2. exact C.
        - intros x Ix. simpl. rewrite dget_dset.
          destruct (key_eqb (v, w) (v, x)) eqn:Q; [discriminate|].
          apply in_app_or in Ix. destruct Ix as [Ix|[<-|[]]]; auto.
          rewrite key_eqb_refl in Q. discriminate. }
      destruct (do_total g rc (di_ok g v r rc Inc) w Hw) as [c Gw].
      unfold dfs_edge, lookup in Ew. rewrite Gw in Ew. simpl in Ew.
      destruct c.
      + (* tree edge *)
        set (rt := {| d_state := d_state rc;
                      d_predecessor := dset w (Some v) (d_predecessor rc);
                      d_discovered := d_discovered rc;
                      d_classification :=
                        dset (v, w) TREE_EDGE (d_classification rc);
                      d_finished := d_finished rc |}) in *.
        assert (Okt : dfs_ok g rt).
        { destruct (di_ok g v r rc Inc) as [T D]. constructor; simpl; auto. }
        destruct (Step TREE_EDGE) as [[K1 K3 K4 K5] [S2 Sd]].
        assert (Rt : dfs_records g rt).
        { constructor; simpl; auto.
          intros x y. rewrite !dget_dset. key_cases w y.
          - intros P. inversion P. subst x. rewrite key_eqb_refl.
            reflexivity.
          - intros P. simpl in K3. specialize (K3 x y P).
            rewrite dget_dset in K3. exact K3. }
        destruct (IH w (t + 1) rt rc' Okt Gw Hw Fc Rt Ew) as [R' Frd'].
        pose proof (dfs_visit_post g W fuel w (t + 1) rt rc' Okt Gw Hw Fc Ew)
          as [_ Fr' _ _ _].
        destruct (Fr' v (or_introl Sv)) as [_ Cv].
        split; [exact R'|].
        split; [rewrite (Frd' v (or_introl Sv)); exact Dv|].
        split.
        { intros x Ex. destruct (di_frame g v r rc Inc x Ex) as [S1 _].
          rewrite Frd'; [apply Frd; exact Ex|].
          simpl. rewrite S1. exact Ex. }
        exists (done ++ [w]). split; [rewrite <- app_assoc; exact Ed|].
        split.
        * intros b. rewrite Cv. apply S2.
        * intros x Ix. rewrite Cv. apply Sd. exact Ix.
      + (* back edge *)
        inversion Ew. subst rc'.
        destruct (Step BACK_EDGE) as [Rk [S2 Sd]].
        split; [exact Rk|]. split; [exact Dv|]. split; [exact Frd|].
        exists (done ++ [w]). split; [rewrite <- app_assoc; exact Ed|].
        split; [exact S2 | exact Sd].
      + (* cross or forward edge *)
        apply bind_Ok in Ew. destruct Ew as [tv [_ Ew]].
        apply bind_Ok in Ew. destruct Ew as [tw [_ Ew]].
        destruct (Nat.ltb tw tv); inversion Ew;
          [destruct (Step CROSS_EDGE) as [Rk [S2 Sd]]
          |destruct (Step FORWARD_EDGE) as [Rk [S2 Sd]]];
          (split; [exact Rk|]; split; [exact Dv|]; split; [exact Frd|];
           exists (done ++ [w]); split; [rewrite <- app_assoc; exact Ed|];
           split; [exact S2 | exact Sd]). }
  destruct Fin as [In2 [[K1 K3 K4 K5] [Dv [Frd [done [Ed [_ Kd]]]]]]].
  rewrite app_nil_r in Ed.
  pose proof (di_vertex g v r r2 In2) as Sv.
  split.
  - constructor; simpl.
    + intros x y c C. destruct (K1 x y c C) as [Exy Ex]. split; auto.
      rewrite dget_dset. key_cases v x; [right; reflexivity | exact Ex].
    + exact K3.
    + intros x y. rewrite dget_dset. key_cases v x.
      * intros _ Exy. apply Kd.
        apply edge_iff in Exy. destruct Exy as [adj' [Ga' Iy]]. congruence.
      * apply K4.
    + intros x. rewrite !dget_dset. key_cases v x.
      * intros _. exists (t + 1). auto.
      * apply K5.
  - intros x Ex. simpl. apply Frd. exact Ex.
Qed.

(** [dfs] returns with every node FINISHED and the records in order. *)
Lemma dfs_final_records fuel :
  List.length (nodes g) < fuel ->
  exists r, dfs g fuel = Ok r /\
    (forall x, has_node g x -> dget x (d_state r) = Some FINISHED) /\
    dfs_records g r.
Proof.
  intros F.
  destruct (dfs_total_with g W (dfs_records g) fuel F)
    as [r [E [_ [All R]]]].
  - assert (NF : forall x, dget x (d_state (dfs_init g)) <> Some FINISHED).
    { intros x. rewrite dfs_init_state.
      destruct (list_mem x (dkeys (nodes g))); discriminate. }
    constructor; simpl.
    + intros x y c C. discriminate.
    + intros x y. rewrite dget_dict_from_keys.
      destruct (list_mem y (dkeys (nodes g))); discriminate.
    + intros x y Fx. exfalso. exact (NF x Fx).
    + intros x Fx. exfalso. exact (NF x Fx).
  - intros x t r r' Ok0 Ux Hx _ R E.
    apply (dfs_visit_records fuel x t r r'); auto.
    pose proof (unexplored_count_le g (d_state r)). lia.
  - exists r. auto.
Qed.
End DfsRecords.

(** X16: [dfs] returns with every node FINISHED, and classifies exactly the
    edges of the graph: a pair has a classification if and only if it is an
    edge. *)
Theorem dfs_classifies_every_edge (g : Graph) (fuel : nat) :
  WF g -> List.length (nodes g) < fuel ->
  exists r, dfs g fuel = Ok r /\
    (forall x, has_node g x -> dget x (d_state r) = Some FINISHED) /\
    (forall u v, edge g u v <->
                 exists c, dget (u, v) (d_classification r) = Some c).
Proof.
  intros W F. destruct (dfs_final_records g W fuel F) as [r [E [All R]]].
  exists r. split; [exact E|]. split; [exact All|].
  intros u v. split.
  - intros Euv.
    destruct (dget (u, v) (d_classification r)) as [c|] eqn:C; eauto.
    exfalso. apply (dr_classified g r R u v); auto.
    apply All. apply (edge_has_nodes g u v W Euv).
  - intros [c C]. apply (dr_keys g r R u v c C).
Qed.

Lemma dfs_classifies_every_edge_witness :
  exists r, dfs fork_graph 10 = Ok r /\
    (forall x, has_node fork_graph x ->
               dget x (d_state r) = Some FINISHED) /\
    (forall u v, edge fork_graph u v <->
                 exists c, dget (u, v) (d_classification r) = Some c).
Proof.
  apply dfs_classifies_every_edge.
  - apply graph_of_WF.
  - vm_compute. lia.
Defined.

(** X17: in the result of [dfs], a node's predecessor is joined to it by an
    edge, and that edge is the one classified TREE EDGE. *)
Theorem dfs_predecessor_is_tree_edge (g : Graph) (fuel : nat) :
  WF g -> List.length (nodes g) < fuel ->
  exists r, dfs g fuel = Ok r /\
    forall u v, dget v (d_predecessor r) = Some (Some u) ->
      edge g u v /\ dget (u, v) (d_classification r) = Some TREE_EDGE.
Proof.
  intros W F. destruct (dfs_final_records g W fuel F) as [r [E [All R]]].
  exists r. split; [exact E|].
  intros u v P. pose proof (dr_tree g r R u v P) as T.
  split; [apply (dr_keys g r R u v TREE_EDGE T) | exact T].
Qed.

Lemma dfs_predecessor_is_tree_edge_witness :
  exists r, dfs fork_graph 10 = Ok r /\
    forall u v, dget v (d_predecessor r) = Some (Some u) ->
      edge fork_graph u v /\
      dget (u, v) (d_classification r) = Some TREE_EDGE.
Proof.
  apply dfs_predecessor_is_tree_edge.
  - apply graph_of_WF.
  - vm_compute. lia.
Defined.

(** X18: in the result of [dfs], every node has a discovery time and a finish
    time, and the finish time is the discovery time plus one. *)
Theorem dfs_finish_is_discovery_plus_one (g : Graph) (fuel : nat) :
  WF g -> List.length (nodes g) < fuel ->
  exists r, dfs g fuel = Ok r /\
    forall x, has_node g x ->
      exists td, dget x (d_discovered r) = Some td /\
                 dget x (d_finished r) = Some (td + 1).
Proof.
  intros W F. destruct (dfs_final_records g W fuel F) as [r [E [All R]]].
  exists r. split; [exact E|].
  intros x Hx. apply (dr_times g r R x). apply All. exact Hx.
Qed.

Lemma dfs_finish_is_discovery_plus_one_witness :
  exists r, dfs fork_graph 10 = Ok r /\
    forall x, has_node fork_graph x ->
      exists td, dget x (d_discovered r) = Some td /\
                 dget x (d_finished r) = Some (td + 1).
Proof.
  apply dfs_finish_is_discovery_plus_one.
  - apply graph_of_WF.
  - vm_compute. lia.
Defined.

(** ** The depth [max_depth] returns *)

Lemma dset_dset (k : node) (a b : nat) (d : dict node nat) :
  dset k a (dset k b d) = dset k a d.
Proof.
  induction d as [|[k' v'] rest IH]; simpl.
  - rewrite key_eqb_refl. reflexivity.
  - destruct (key_eqb k' k) eqn:E; simpl; rewrite E; [reflexivity|].
    f_equal. exact IH.
Qed.

Lemma dvalues_dset_new (k : node) (a : nat) (d : dict node nat) :
  ~ In k (dkeys d) -> dvalues (dset k a d) = dvalues d ++ [a].
Proof.
  induction d as [|[k' v'] rest IH]; simpl; [reflexivity|].
  intros N. destruct (key_eqb k' k) eqn:E; simpl.
  - apply key_eqb_eq in E. tauto.
  - f_equal. apply IH. tauto.
Qed.

(** [get_shortest_path] returns for any two nodes of the graph. *)
Lemma get_shortest_path_returns (g : Graph) (fuel : nat) (s t : node) :
  WF g -> List.length (nodes g) < fuel -> has_node g s -> has_node g t ->
  exists p, get_shortest_path g fuel s t = Ok p.
Proof.
  intros W F Hs Ht. unfold get_shortest_path.
  rewrite (proj2 (dmem_In s (nodes g)) Hs).
  rewrite (proj2 (dmem_In t (nodes g)) Ht). simpl.
  destruct (bfs_total g W s Hs fuel F) as [k [m [E Inv]]].
  rewrite E. simpl.
  destruct (bi_total g s k m _ Inv t Ht) as [c Gc].
  destruct c.
  - destruct (bi_unexplored g s k m _ Inv t Gc) as [Dt _].
    unfold lookup. rewrite Dt. simpl. eauto.
  - exfalso. exact (final_no_discovered g s k m Inv t Gc).
  - destruct (bi_finished_level g s k m _ Inv t Gc) as [n [Dn _]].
    unfold lookup. rewrite Dn. simpl.
    destruct (path_walk_spec g s Hs k m Inv n t Gc Dn)
      as [p [L1 [L2 [L3 [L4 [L5 L6]]]]]].
    assert (B : List.length p <= List.length (nodes g)).
    { apply nodes_length_bound; auto. intros y Iy. apply (L5 y Iy). }
    rewrite L6 by lia. simpl. eauto.
Qed.

(** One turn of the inner loop overwrites the entry of the root. *)
Lemma depth_step_value (g : Graph) (fuel : nat) (r l : node)
    (p : list node) (depths : dict node nat) :
  get_shortest_path g fuel r l = Ok p ->
  depth_step g fuel r l depths = Ok (dset r (List.length p - 1) depths).
Proof.
  intros E. unfold depth_step. rewrite E. simpl.
  destruct p as [|x p'].
  - reflexivity.
  - unfold lookup. rewrite dget_dset_same. simpl.
    rewrite dset_dset. rewrite Nat.sub_0_r. reflexivity.
Qed.

(** The inner loop leaves for the root the value of its last turn. *)
Lemma depth_inner_last (g : Graph) (fuel : nat) (r l : node) (p : list node) :
  WF g -> List.length (nodes g) < fuel -> has_node g r ->
  get_shortest_path g fuel r l = Ok p ->
  forall ls depths,
    (forall y, In y ls -> has_node g y) ->
    foldM (depth_step g fuel r) (ls ++ [l]) depths
    = Ok (dset r (List.length p - 1) depths).
Proof.
  intros W F Hr E ls.
  induction ls as [|a ls IH]; intros depths Hl; simpl.
  - rewrite (depth_step_value g fuel r l p depths E). reflexivity.
  - destruct (get_shortest_path_returns g fuel r a W F Hr
                (Hl a (or_introl eq_refl))) as [q Eq].
    rewrite (depth_step_value g fuel r a q depths Eq). simpl.
    rewrite IH by (intros y Iy; apply Hl; right; exact Iy).
    rewrite dset_dset. reflexivity.
Qed.

(** The outer loop appends one value per root. *)
Lemma depth_outer (g : Graph) (fuel : nat) (ls : list node) (l : node) :
  WF g -> List.length (nodes g) < fuel ->
  leaves g = ls ++ [l] -> (forall y, In y (leaves g) -> has_node g y) ->
  forall rs depths,
    NoDup rs -> (forall r, In r rs -> has_node g r) ->
    (forall r, In r rs -> ~ In r (dkeys depths)) ->
    exists ds,
      Forall2 (fun r d => exists p, get_shortest_path g fuel r l = Ok p /\
                                    d = List.length p - 1) rs ds /\
      foldM (fun node_start depths =>
               foldM (depth_step g fuel node_start) (leaves g) depths)
            rs depths
      = Ok (depths ++ combine rs ds).
Proof.
  intros W F El Hl rs.
  induction rs as [|r rs IH]; intros depths ND Hr Fresh; simpl.
  - exists []. split; [constructor|]. rewrite app_nil_r. reflexivity.
  - assert (Hlast : has_node g l).
    { apply Hl. rewrite El. apply in_or_app. right. left. reflexivity. }
    destruct (get_shortest_path_returns g fuel r l W F
                (Hr r (or_introl eq_refl)) Hlast) as [p Ep].
    rewrite El.
    rewrite (depth_inner_last g fuel r l p W F (Hr r (or_introl eq_refl)) Ep)
      by (intros y Iy; apply Hl; rewrite El; apply in_or_app; auto).
    simpl. rewrite <- El.
    assert (Eset : dset r (List.length p - 1) depths
                   = depths ++ [(r, List.length p - 1)]).
    { clear - Fresh. specialize (Fresh r (or_introl eq_refl)).
      induction depths as [|[k' v'] rest IHd]; simpl; [reflexivity|].
      destruct (key_eqb k' r) eqn:E.
      - apply key_eqb_eq in E. simpl in Fresh. tauto.
      - f_equal. apply IHd. simpl in Fresh. tauto. }
    rewrite Eset. inversion ND as [|r0 rs0 Nr ND']. subst.
    destruct (IH (depths ++ [(r, List.length p - 1)]) ND')
      as [ds [F2 E2]].
    + intros y Iy. apply Hr. right. exact Iy.
    + intros y Iy. unfold dkeys. rewrite map_app. simpl.
      intros I. apply in_app_or in I. destruct I as [I|[I|[]]].
      * apply (Fresh y (or_intror Iy)). exact I.
      * subst y. contradiction.
    + exists ((List.length p - 1) :: ds). split.
      * constructor; [exists p; auto | exact F2].
      * rewrite E2. rewrite <- app_assoc. reflexivity.
Qed.

(** X19: on an acyclic directed graph obtained through the interface,
    [max_depth] computes one number per root, the edge count of the path
    [get_shortest_path] returns from that root to the leaf listed last (0 when
    it returns no path), and returns the maximum of these numbers. *)
Theorem max_depth_measures_last_leaf (ops : list op) (h : store) (g : Graph)
    (fuel : nat) (ls : list node) (l : node) :
  build true ops = Ok (h, g) -> acyclic g ->
  List.length (nodes g) < fuel -> leaves g = ls ++ [l] ->
  exists ds,
    Forall2 (fun r d => exists p, get_shortest_path g fuel r l = Ok p /\
                                  d = List.length p - 1) (roots g) ds /\
    max_depth g fuel = list_max ds.
Proof.
  intros B Acy F El.
  assert (W : WF g) by (eapply build_WF; eauto).
  destruct (build_inv (fun g => directed g = true /\ roots_leaves_exact g)
              roots_leaves_with_node roots_leaves_link true ops)
    as [h' [g' [E' [_ [_ RL]]]]].
  { split; [reflexivity | apply roots_leaves_init]. }
  rewrite B in E'. inversion E'. subst h' g'.
  destruct (depth_outer g fuel ls l W F El
              (fun y Iy => proj1 (proj1 (rl_leaves g RL y) Iy))
              (roots g) [] (rl_roots_nodup g RL)
              (fun y Iy => proj1 (proj1 (rl_roots g RL y) Iy))
              (fun y _ I => I))
    as [ds [F2 E2]].
  exists ds. split; [exact F2|].
  unfold max_depth. rewrite (is_acyclic_dag g W Acy fuel F). simpl.
  rewrite E2. simpl. f_equal.
  unfold dvalues. clear - F2.
  induction F2; simpl; [reflexivity | f_equal; assumption].
Qed.

Lemma max_depth_measures_last_leaf_witness :
  exists ds,
    Forall2 (fun r d => exists p,
               get_shortest_path fork_graph 10 r "C" = Ok p /\
               d = List.length p - 1) (roots fork_graph) ds /\
    max_depth fork_graph 10 = list_max ds.
Proof.
  apply (max_depth_measures_last_leaf
           [plain_edge "A" "B"; plain_edge "B" "D"; plain_edge "A" "C"]
           [[]; []; []; []; []; []; []] fork_graph 10 ["D"]).
  - vm_compute. reflexivity.
  - apply (acyclic_by_rank fork_graph letter_rank).
    vm_compute. intuition discriminate.
  - vm_compute. lia.
  - vm_compute. reflexivity.
Defined.

(** With no root or no leaf listed, [max_depth] takes the maximum of an
    empty sequence. *)
Lemma max_depth_no_pairs (g : Graph) (fuel : nat) :
  WF g -> List.length (nodes g) < fuel ->
  roots g = [] \/ leaves g = [] ->
  max_depth g fuel = Raise ValueError.
Proof.
  intros W F H.
  destruct (is_acyclic_decides g W fuel F) as [b [E _]].
  unfold max_depth. rewrite E. simpl.
  destruct b; simpl; [|reflexivity].
  assert (E0 : foldM (fun node_start depths =>
                        foldM (depth_step g fuel node_start) (leaves g) depths)
                     (roots g) [] = Ok []).
  { destruct H as [-> | ->]; [reflexivity|].
    induction (roots g) as [|r rs IH]; simpl; auto. }
  rewrite E0. reflexivity.
Qed.

(** X20: [max_depth] raises ValueError on every undirected graph obtained
    through the interface, and on the graph without node. *)
Theorem max_depth_undirected_or_empty (d : bool) (ops : list op) (h : store)
    (g : Graph) (fuel : nat) :
  build d ops = Ok (h, g) -> List.length (nodes g) < fuel ->
  d = false \/ ops = [] ->
  max_depth g fuel = Raise ValueError.
Proof.
  intros B F H.
  assert (W : WF g) by (eapply build_WF; eauto).
  apply max_depth_no_pairs; auto.
  destruct H as [-> | ->].
  - destruct (build_inv
                (fun g => directed g = false /\ roots g = [] /\ leaves g = [])
                no_roots_with_node no_roots_link false ops)
      as [h' [g' [E' [_ [_ [R _]]]]]].
    + simpl. auto.
    + rewrite B in E'. inversion E'. subst. left. exact R.
  - inversion B. left. reflexivity.
Qed.

Lemma max_depth_undirected_or_empty_witness :
  max_depth undirected_pair 10 = Raise ValueError.
Proof.
  apply (max_depth_undirected_or_empty false [plain_edge "A" "B"]
           [[]; []; []]).
  - vm_compute. reflexivity.
  - vm_compute. lia.
  - left. reflexivity.
Defined.

(** ** Descendants and ascendants on graphs without cycle *)

(** Induction along a relation that has no cycle on a finite carrier: [Rp]
    stands for one or more steps of [R]. *)
Lemma finite_chain_induction (carrier : list node)
    (R Rp : node -> node -> Prop) (P : node -> Prop) :
  (forall x y, In x carrier -> R x y -> In y carrier) ->
  (forall x y, R x y -> Rp x y) ->
  (forall a x y, Rp a x -> R x y -> Rp a y) ->
  (forall x, ~ Rp x x) ->
  (forall x, In x carrier -> (forall y, R x y -> P y) -> P x) ->
  forall x, In x carrier -> P x.
Proof.
  intros Cl S1 S2 Irr Step.
  assert (Main : forall n anc x,
    NoDup anc -> incl anc carrier -> (forall a, In a anc -> Rp a x) ->
    List.length carrier <= List.length anc + n -> In x carrier -> P x).
  { induction n as [|n IH]; intros anc x ND Inc Anc Len Hx.
    - exfalso.
      assert (ND' : NoDup (x :: anc)).
      { constructor; auto. intros I. apply (Irr x). apply Anc. exact I. }
      assert (Inc' : incl (x :: anc) carrier).
      { intros a [<-|Ia]; auto. }
      pose proof (NoDup_incl_length ND' Inc') as L. simpl in L. lia.
    - apply Step; auto. intros y Rxy. apply (IH (x :: anc) y).
      + constructor; auto. intros I. apply (Irr x). apply Anc. exact I.
      + intros a [<-|Ia]; auto.
      + intros a [<-|Ia]; [apply S1; exact Rxy|].
        apply (S2 a x y); auto.
      + simpl. lia.
      + apply (Cl x y); auto. }
  intros x Hx. apply (Main (List.length carrier) [] x); auto.
  - constructor.
  - intros a [].
  - intros a [].
Qed.

Lemma list_pop_snoc {A : Type} (st : list A) (x : A) :
  list_pop (st ++ [x]) = Some (x, st).
Proof.
  unfold list_pop. rewrite rev_app_distr. simpl.
  rewrite rev_involutive. reflexivity.
Qed.

Lemma fold_left_snoc (ns l : list node) :
  fold_left (fun l n => l ++ [n]) ns l = l ++ ns.
Proof.
  revert l. induction ns as [|n ns IH]; intros l; simpl.
  - rewrite app_nil_r. reflexivity.
  - rewrite IH. rewrite <- app_assoc. reflexivity.
Qed.

Lemma reach_left g x z y : edge g x z -> reach g z y -> reach g x y.
Proof.
  intros E R. induction R as [|y w R IH E'].
  - eapply reach_step; [apply reach_refl | exact E].
  - eapply reach_step; [exact IH | exact E'].
Qed.

Lemma reach_inv_left g z y :
  reach g z y -> z = y \/ exists w, edge g z w /\ reach g w y.
Proof.
  intros R. induction R as [|y t R IH E]; [left; reflexivity|].
  right. destruct IH as [->|[w [E1 R1]]].
  - exists t. split; [exact E | apply reach_refl].
  - exists w. split; [exact E1|]. eapply reach_step; eauto.
Qed.

Lemma descendants_loop_done g fuel descendants :
  descendants_loop g fuel descendants [] = Ok descendants.
Proof. destruct fuel; reflexivity. Qed.

Lemma descendants_loop_step g fuel descendants st x adj :
  dget x (edges g) = Some adj ->
  descendants_loop g (S fuel) descendants (st ++ [x])
  = descendants_loop g fuel (descendants ++ dkeys adj) (st ++ dkeys adj).
Proof.
  intros G. cbn [descendants_loop]. rewrite list_pop_snoc.
  unfold lookup. rewrite G. simpl. rewrite !fold_left_snoc. reflexivity.
Qed.

(** Working off a segment of the stack of [get_descendants]. *)
Lemma descendants_run_list g : forall ns,
  (forall z, In z ns -> exists n l,
     (forall k desc st,
        descendants_loop g (n + k) desc (st ++ [z])
        = descendants_loop g k (desc ++ l) st) /\
     (forall y, In y l <-> exists w, edge g z w /\ reach g w y)) ->
  exists n l,
    (forall k desc st,
       descendants_loop g (n + k) desc (st ++ ns)
       = descendants_loop g k (desc ++ l) st) /\
    (forall y, In y l <->
               exists z, In z ns /\ exists w, edge g z w /\ reach g w y).
Proof.
  intros ns. induction ns as [|a ns IH] using rev_ind; intros H.
  - exists 0, []. split.
    + intros k desc st. rewrite !app_nil_r. reflexivity.
    + intros y. split; [intros [] | intros [z [[] _]]].
  - destruct (H a) as [na [la [Ra Sa]]];
      [apply in_or_app; right; left; reflexivity|].
    destruct IH as [n' [l' [R' S']]].
    { intros z Iz. apply H. apply in_or_app. left. exact Iz. }
    exists (na + n'), (la ++ l'). split.
    + intros k desc st. rewrite app_assoc, <- Nat.add_assoc.
      rewrite Ra, R'. rewrite app_assoc. reflexivity.
    + intros y. rewrite in_app_iff, Sa, S'. split.
      * intros [Hy|[z [Iz Hy]]].
        -- exists a. split; [apply in_or_app; right; left; reflexivity|].
           exact Hy.
        -- exists z. split; [apply in_or_app; left; exact Iz | exact Hy].
      * intros [z [Iz Hy]]. apply in_app_or in Iz.
        destruct Iz as [Iz|[<-|[]]]; [right; exists z; auto | left; exact Hy].
Qed.

Lemma descendants_run g x0 :
  WF g ->
  (forall c p, reach g x0 c -> reach g c p -> edge g p c -> False) ->
  forall x, has_node g x -> reach g x0 x -> exists n l,
    (forall k desc st,
       descendants_loop g (n + k) desc (st ++ [x])
       = descendants_loop g k (desc ++ l) st) /\
    (forall y, In y l <-> exists w, edge g x w /\ reach g w y).
Proof.
  intros W Loc.
  apply (finite_chain_induction (dkeys (nodes g))
           (fun a b => reach g x0 a /\ edge g a b)
           (fun a y => reach g x0 a /\ exists p, reach g a p /\ edge g p y)
           (fun x => reach g x0 x -> exists n l,
              (forall k desc st,
                 descendants_loop g (n + k) desc (st ++ [x])
                 = descendants_loop g k (desc ++ l) st) /\
              (forall y, In y l <-> exists w, edge g x w /\ reach g w y))).
  - intros x y _ [_ E]. apply (edge_has_nodes g x y W E).
  - intros x y [Rx E]. split; [exact Rx|].
    exists x. split; [apply reach_refl | exact E].
  - intros a x y [Ra [p [R E]]] [_ E']. split; [exact Ra|].
    exists x. split; [|exact E']. eapply reach_step; eauto.
  - intros x [Rx [p [R E]]]. exact (Loc x p Rx R E).
  - intros x Hx IH Rx.
    destruct (has_node_adj g x W Hx) as [adj Ga].
    destruct (descendants_run_list g (dkeys adj)) as [n [l [Rn Sn]]].
    { intros z Iz.
      assert (E : edge g x z) by (apply edge_iff; eauto).
      apply IH; [split; assumption|]. eapply reach_step; eauto. }
    exists (S n), (dkeys adj ++ l). split.
    + intros k desc st. change (S n + k) with (S (n + k)).
      rewrite (descendants_loop_step g (n + k) desc st x adj Ga).
      rewrite Rn. rewrite app_assoc. reflexivity.
    + intros y. rewrite in_app_iff, Sn. split.
      * intros [Iy|[z [Iz [w [E R]]]]].
        -- exists y. split; [apply edge_iff; eauto | apply reach_refl].
        -- exists z. split; [apply edge_iff; eauto|].
           apply (reach_left g z w y E R).
      * intros [z [E R]].
        assert (Iz : In z (dkeys adj)).
        { apply edge_iff in E. destruct E as [adj' [Ga' Iz]]. congruence. }
        destruct (reach_inv_left g z y R) as [<-|Hw]; [left; exact Iz|].
        right. exists z. auto.
Qed.

(** X21: on a directed graph, when no cycle can be reached from the node,
    [get_descendants] returns, once the iteration budget is large enough, a
    list that holds exactly the nodes reached from the node by a path of at
    least one edge. *)
Theorem get_descendants_dag (g : Graph) (x : node) :
  WF g -> directed g = true -> has_node g x ->
  (forall c p, reach g x c -> reach g c p -> edge g p c -> False) ->
  exists n l,
    (forall fuel, n <= fuel -> get_descendants g fuel x = Ok l) /\
    (forall y, In y l <-> exists z, edge g x z /\ reach g z y).
Proof.
  intros W D Hx Loc.
  destruct (descendants_run g x W Loc x Hx (reach_refl g x))
    as [n [l [R S]]].
  exists n, l. split; [|exact S].
  intros fuel Le. unfold get_descendants. rewrite D.
  rewrite (proj2 (dmem_In x (edges g)));
    [|apply (has_node_edges g x W); exact Hx].
  simpl. replace fuel with (n + (fuel - n)) by lia.
  change [x] with ([] ++ [x]). rewrite R.
  apply descendants_loop_done.
Qed.

Lemma get_descendants_dag_witness :
  exists n l,
    (forall fuel, n <= fuel -> get_descendants fork_graph fuel "A" = Ok l) /\
    (forall y, In y l <->
               exists z, edge fork_graph "A" z /\ reach fork_graph z y).
Proof.
  apply get_descendants_dag.
  - apply graph_of_WF.
  - reflexivity.
  - vm_compute. auto.
  - intros c p _.
    apply (acyclic_by_rank fork_graph letter_rank). vm_compute. reflexivity.
Defined.

(** A node from which a cycle is reached has a successor of the same
    kind. *)
Lemma cycle_ahead_step g z c p :
  reach g z c -> reach g c p -> edge g p c ->
  exists w, edge g z w /\ reach g w c.
Proof.
  intros Rz Rc E.
  destruct (reach_inv_left g z c Rz) as [->|[w [E1 R1]]].
  - destruct (reach_inv_left g c p Rc) as [->|[w [E1 R1]]].
    + exists p. split; [exact E | apply reach_refl].
    + exists w. split; [exact E1|]. eapply reach_step; eauto.
  - exists w. auto.
Qed.

Lemma descendants_loop_cycle g c p :
  WF g -> reach g c p -> edge g p c ->
  forall fuel desc stack,
    (forall y, In y stack -> has_node g y) ->
    (exists z, In z stack /\ reach g z c) ->
    descendants_loop g fuel desc stack = OutOfFuel.
Proof.
  intros W Rc E fuel.
  induction fuel as [|fuel IH]; intros desc stack Hs [z [Iz Rz]].
  - destruct stack as [|a stack]; [destruct Iz|].
    destruct (@exists_last _ (a :: stack)) as [st [x Es]]; [discriminate|].
    rewrite Es. cbn [descendants_loop]. rewrite list_pop_snoc. reflexivity.
  - destruct stack as [|a stack]; [destruct Iz|].
    destruct (@exists_last _ (a :: stack)) as [st [x Es]]; [discriminate|].
    rewrite Es in *.
    assert (Hx : has_node g x).
    { apply Hs. apply in_or_app. right. left. reflexivity. }
    destruct (has_node_adj g x W Hx) as [adj Ga].
    rewrite (descendants_loop_step g fuel desc st x adj Ga).
    apply IH.
    + intros y Iy. apply in_app_or in Iy. destruct Iy as [Iy|Iy].
      * apply Hs. apply in_or_app. left. exact Iy.
      * eapply wf_adj_closed; eauto.
    + apply in_app_or in Iz. destruct Iz as [Iz|[<-|[]]].
      * exists z. split; [apply in_or_app; left; exact Iz | exact Rz].
      * destruct (cycle_ahead_step g x c p Rz Rc E) as [w [E1 R1]].
        exists w. split; [|exact R1]. apply in_or_app. right.
        apply edge_iff in E1. destruct E1 as [adj' [Ga' Iw]]. congruence.
Qed.

(** X24: [get_descendants] never returns for a node from which a cycle is
    reached: whatever the iteration budget, the loop is still running when
    it is used up. *)
Theorem get_descendants_cycle_diverges (g : Graph) (x c p : node) :
  WF g -> directed g = true ->
  reach g x c -> reach g c p -> edge g p c ->
  forall fuel, get_descendants g fuel x = OutOfFuel.
Proof.
  intros W D Rx Rc E fuel.
  destruct (cycle_ahead_step g x c p Rx Rc E) as [w [E1 _]].
  assert (Hx : has_node g x) by (apply (edge_has_nodes g x w W E1)).
  unfold get_descendants. rewrite D.
  rewrite (proj2 (dmem_In x (edges g)));
    [|apply (has_node_edges g x W); exact Hx].
  simpl. apply (descendants_loop_cycle g c p W Rc E).
  - intros y [<-|[]]. exact Hx.
  - exists x. split; [left; reflexivity | exact Rx].
Qed.

Lemma get_descendants_cycle_diverges_witness :
  get_descendants two_cycle_graph 10 "A" = OutOfFuel.
Proof.
  apply (get_descendants_cycle_diverges two_cycle_graph "A" "A" "B").
  - apply graph_of_WF.
  - reflexivity.
  - apply reach_refl.
  - eapply reach_step; [apply reach_refl | reflexivity].
  - reflexivity.
Defined.

Lemma ascendants_loop_done g fuel ascendants :
  ascendants_loop g fuel ascendants [] = Ok ascendants.
Proof. destruct fuel; reflexivity. Qed.

Lemma ascendants_loop_step g fuel ascendants st x :
  ascendants_loop g (S fuel) ascendants (st ++ [x])
  = ascendants_loop g fuel
      (ascendants ++ dkeys (filter (fun na => dmem x (snd na)) (edges g)))
      (st ++ dkeys (filter (fun na => dmem x (snd na)) (edges g))).
Proof.
  cbn [ascendants_loop]. rewrite list_pop_snoc.
  rewrite !append_parents_filter. reflexivity.
Qed.

(** Working off a segment of the stack of [get_ascendants]. *)
Lemma ascendants_run_list g : forall ns,
  (forall z, In z ns -> exists n l,
     (forall k asc st,
        ascendants_loop g (n + k) asc (st ++ [z])
        = ascendants_loop g k (asc ++ l) st) /\
     (forall y, In y l <-> exists w, reach g y w /\ edge g w z)) ->
  exists n l,
    (forall k asc st,
       ascendants_loop g (n + k) asc (st ++ ns)
       = ascendants_loop g k (asc ++ l) st) /\
    (forall y, In y l <->
               exists z, In z ns /\ exists w, reach g y w /\ edge g w z).
Proof.
  intros ns. induction ns as [|a ns IH] using rev_ind; intros H.
  - exists 0, []. split.
    + intros k asc st. rewrite !app_nil_r. reflexivity.
    + intros y. split; [intros [] | intros [z [[] _]]].
  - destruct (H a) as [na [la [Ra Sa]]];
      [apply in_or_app; right; left; reflexivity|].
    destruct IH as [n' [l' [R' S']]].
    { intros z Iz. apply H. apply in_or_app. left. exact Iz. }
    exists (na + n'), (la ++ l'). split.
    + intros k asc st. rewrite app_assoc, <- Nat.add_assoc.
      rewrite Ra, R'. rewrite app_assoc. reflexivity.
    + intros y. rewrite in_app_iff, Sa, S'. split.
      * intros [Hy|[z [Iz Hy]]].
        -- exists a. split; [apply in_or_app; right; left; reflexivity|].
           exact Hy.
        -- exists z. split; [apply in_or_app; left; exact Iz | exact Hy].
      * intros [z [Iz Hy]]. apply in_app_or in Iz.
        destruct Iz as [Iz|[<-|[]]]; [right; exists z; auto | left; exact Hy].
Qed.

Lemma reach_trans g a b c : reach g a b -> reach g b c -> reach g a c.
Proof.
  intros R1 R2. induction R2 as [|y z R2 IH E]; auto.
  eapply reach_step; eauto.
Qed.

Lemma ascendants_run g x0 :
  WF g ->
  (forall c p, reach g c x0 -> reach g c p -> edge g p c -> False) ->
  forall x, has_node g x -> reach g x x0 -> exists n l,
    (forall k asc st,
       ascendants_loop g (n + k) asc (st ++ [x])
       = ascendants_loop g k (asc ++ l) st) /\
    (forall y, In y l <-> exists w, reach g y w /\ edge g w x).
Proof.
  intros W Loc.
  apply (finite_chain_induction (dkeys (nodes g))
           (fun a b => reach g a x0 /\ edge g b a)
           (fun a y => reach g a x0 /\ exists p, edge g y p /\ reach g p a)
           (fun x => reach g x x0 -> exists n l,
              (forall k asc st,
                 ascendants_loop g (n + k) asc (st ++ [x])
                 = ascendants_loop g k (asc ++ l) st) /\
              (forall y, In y l <-> exists w, reach g y w /\ edge g w x))).
  - intros x y _ [_ E]. apply (edge_has_nodes g y x W E).
  - intros x y [Rx E]. split; [exact Rx|].
    exists x. split; [exact E | apply reach_refl].
  - intros a x y [Ra [p [E R]]] [_ E']. split; [exact Ra|].
    exists x. split; [exact E'|]. apply (reach_left g x p a E R).
  - intros x [Rx [p [E R]]]. apply (Loc p x); auto.
    apply (reach_trans g p x x0 R Rx).
  - intros x Hx IH Rx.
    set (ps := dkeys (filter (fun na => dmem x (snd na)) (edges g))).
    destruct (ascendants_run_list g ps) as [n [l [Rn Sn]]].
    { intros z Iz.
      assert (E : edge g z x) by (apply (In_parents g x z W); exact Iz).
      apply IH; [split; assumption|]. apply (reach_left g z x x0 E Rx). }
    exists (S n), (ps ++ l). split.
    + intros k asc st. change (S n + k) with (S (n + k)).
      rewrite (ascendants_loop_step g (n + k) asc st x). fold ps.
      rewrite Rn. rewrite app_assoc. reflexivity.
    + intros y. rewrite in_app_iff, Sn. split.
      * intros [Iy|[z [Iz [w [R E]]]]].
        -- exists y. split; [apply reach_refl|].
           apply (In_parents g x y W). exact Iy.
        -- exists z. split; [eapply reach_step; eauto|].
           apply (In_parents g x z W). exact Iz.
      * intros [z [R E]].
        assert (Iz : In z ps) by (apply (In_parents g x z W); exact E).
        inversion R as [|w t R' E']; subst.
        -- left. exact Iz.
        -- right. exists z. split; [exact Iz|]. exists w. auto.
Qed.

(** X22: on a directed graph, when the node cannot be reached from any
    cycle, [get_ascendants] returns, once the iteration budget is large
    enough, a list that holds exactly the nodes from which the node is
    reached by a path of at least one edge. *)
Theorem get_ascendants_dag (g : Graph) (x : node) :
  WF g -> directed g = true -> has_node g x ->
  (forall c p, reach g c x -> reach g c p -> edge g p c -> False) ->
  exists n l,
    (forall fuel, n <= fuel -> get_ascendants g fuel x = Ok l) /\
    (forall y, In y l <-> exists z, reach g y z /\ edge g z x).
Proof.
  intros W D Hx Loc.
  destruct (ascendants_run g x W Loc x Hx (reach_refl g x))
    as [n [l [R S]]].
  exists n, l. split; [|exact S].
  intros fuel Le. unfold get_ascendants. rewrite D.
  rewrite (proj2 (dmem_In x (nodes g)) Hx).
  simpl. replace fuel with (n + (fuel - n)) by lia.
  change [x] with ([] ++ [x]). rewrite R.
  apply ascendants_loop_done.
Qed.

Lemma get_ascendants_dag_witness :
  exists n l,
    (forall fuel, n <= fuel -> get_ascendants fork_graph fuel "D" = Ok l) /\
    (forall y, In y l <->
               exists z, reach fork_graph y z /\ edge fork_graph z "D").
Proof.
  apply get_ascendants_dag.
  - apply graph_of_WF.
  - reflexivity.
  - vm_compute. auto 10.
  - intros c p _.
    apply (acyclic_by_rank fork_graph letter_rank). vm_compute. reflexivity.
Defined.

(** A node reached from a cycle has a predecessor of the same kind. *)
Lemma cycle_behind_step g z c p :
  reach g c z -> reach g c p -> edge g p c ->
  exists u, edge g u z /\ reach g c u.
Proof.
  intros Rz Rc E. inversion Rz as [|y t R' E']; subst.
  - exists p. auto.
  - exists y. auto.
Qed.

Lemma ascendants_loop_cycle g c p :
  WF g -> reach g c p -> edge g p c ->
  forall fuel asc stack,
    (exists z, In z stack /\ reach g c z) ->
    ascendants_loop g fuel asc stack = OutOfFuel.
Proof.
  intros W Rc E fuel.
  induction fuel as [|fuel IH]; intros asc stack [z [Iz Rz]].
  - destruct stack as [|a stack]; [destruct Iz|].
    destruct (@exists_last _ (a :: stack)) as [st [x Es]]; [discriminate|].
    rewrite Es. cbn [ascendants_loop]. rewrite list_pop_snoc. reflexivity.
  - destruct stack as [|a stack]; [destruct Iz|].
    destruct (@exists_last _ (a :: stack)) as [st [x Es]]; [discriminate|].
    rewrite Es in *.
    rewrite (ascendants_loop_step g fuel asc st x).
    apply IH.
    apply in_app_or in Iz. destruct Iz as [Iz|[<-|[]]].
    + exists z. split; [apply in_or_app; left; exact Iz | exact Rz].
    + destruct (cycle_behind_step g x c p Rz Rc E) as [u [E1 R1]].
      exists u. split; [|exact R1]. apply in_or_app. right.
      apply (In_parents g x u W). exact E1.
Qed.

(** X25: [get_ascendants] never returns for a node that is reached from a
    cycle: whatever the iteration budget, the loop is still running when it
    is used up. *)
Theorem get_ascendants_cycle_diverges (g : Graph) (x c p : node) :
  WF g -> directed g = true ->
  reach g c x -> reach g c p -> edge g p c ->
  forall fuel, get_ascendants g fuel x = OutOfFuel.
Proof.
  intros W D Rx Rc E fuel.
  destruct (cycle_behind_step g x c p Rx Rc E) as [u [E1 _]].
  assert (Hx : has_node g x) by (apply (edge_has_nodes g u x W E1)).
  unfold get_ascendants. rewrite D.
  rewrite (proj2 (dmem_In x (nodes g)) Hx).
  simpl. apply (ascendants_loop_cycle g c p W Rc E).
  exists x. split; [left; reflexivity | exact Rx].
Qed.

Lemma get_ascendants_cycle_diverges_witness :
  get_ascendants two_cycle_graph 10 "A" = OutOfFuel.
Proof.
  apply (get_ascendants_cycle_diverges two_cycle_graph "A" "A" "B").
  - apply graph_of_WF.
  - reflexivity.
  - apply reach_refl.
  - eapply reach_step; [apply reach_refl | reflexivity].
  - reflexivity.
Defined.

(** ** Discovery times of depth-first search *)

Section DfsDepths.
Variable g : Graph.
Hypothesis W : WF g.

Lemma unexplored_back (r r' : dfs_maps) (x : node) :
  dfs_ok g r -> dfs_frame r r' -> has_node g x ->
  dget x (d_state r') = Some UNEXPLORED ->
  dget x (d_state r) = Some UNEXPLORED.
Proof.
  intros Ok0 Fr Hx U.
  destruct (do_total g r Ok0 x Hx) as [c Gc].
  destruct c; auto.
  - destruct (Fr x (or_introl Gc)) as [S1 _]. congruence.
  - destruct (Fr x (or_intror Gc)) as [S1 _]. congruence.
Qed.

Lemma dfs_visit_depths fuel : forall v t r r',
  dfs_ok g r -> dget v (d_state r) = Some UNEXPLORED -> has_node g v ->
  unexplored_count g (d_state r) < fuel ->
  dfs_depths g r ->
  (forall p, dget v (d_predecessor r) = Some (Some p) ->
             dget p (d_discovered r) = Some t) ->
  (dget v (d_predecessor r) = Some None -> t = 0) ->
  dfs_visit g fuel v t r = Ok r' ->
  dfs_depths g r' /\
  (forall x, explored (dget x (d_state r)) ->
             dget x (d_discovered r') = dget x (d_discovered r)) /\
  (forall x, has_node g x -> dget x (d_state r') = Some UNEXPLORED ->
             dget x (d_predecessor r') = dget x (d_predecessor r)).
Proof.
  induction fuel as [|fuel IH]; intros v t r r' Ok0 Uv Hv F R Ep Er E; [lia|].
  destruct (has_node_adj g v W Hv) as [adj Ga].
  simpl in E. unfold lookup at 1 in E. rewrite Ga in E. simpl in E.
  apply bind_Ok in E. destruct E as [r2 [E2 E3]].
  inversion E3. subst r'. clear E3.
  assert (Nv : forall x, explored (dget x (d_state r)) -> v <> x).
  { intros x Ex ->. apply explored_not_unexplored in Ex. congruence. }
  pose (I := fun (rest : list node) (rc : dfs_maps) =>
    dfs_inside g v r rc /\ dfs_depths g rc /\
    dget v (d_discovered rc) = Some (t + 1) /\
    (forall x, explored (dget x (d_state r)) ->
               dget x (d_discovered rc) = dget x (d_discovered r)) /\
    (forall x, has_node g x -> dget x (d_state rc) = Some UNEXPLORED ->
               dget x (d_predecessor rc) = dget x (d_predecessor r)) /\
    (forall x, In x rest -> has_node g x)).
  assert (Fin : I [] r2).
  { apply (foldM_inv_partial
             (dfs_edge (dfs_visit g fuel) v (t + 1)) I (dkeys adj)
             (dfs_enter v t r) r2 E2).
    - destruct R as [K0 K1 K2 K3].
      unfold I. split; [apply dfs_enter_inside; auto|]. split.
      { constructor; simpl.
        - exact K0.
        - intros x y P. rewrite dget_dset.
          key_cases v x; [left; reflexivity | apply (K1 x y P)].
        - intros x y P. rewrite !dget_dset.
          pose proof (Nv x (K1 x y P)) as Nx.
          rewrite (proj2 (key_eqb_neq v x) Nx).
          destruct (key_eqb v y) eqn:Q.
          + apply key_eqb_eq in Q. subst y. intros _.
            exists t. split; [apply Ep; exact P | reflexivity].
          + apply (K2 x y P).
        - intros y P. rewrite !dget_dset.
          destruct (key_eqb v y) eqn:Q.
          + apply key_eqb_eq in Q. subst y. intros _.
            rewrite (Er P). reflexivity.
          + apply (K3 y P). }
      split; [simpl; apply dget_dset_same|].
      split; [intros x Ex; simpl; apply dget_dset_other; auto|].
      split; [intros x _ _; reflexivity|].
      intros x Ix. eapply wf_adj_closed; eauto.
    - intros w rest rc rc' [Inc [Rc [Dv [Frd [Frp Hrest]]]]] Ew.
      assert (Hw : has_node g w) by (apply Hrest; left; reflexivity).
      pose proof (di_vertex g v r rc Inc) as Sv.
      pose proof (di_count g v r rc Inc) as Cc.
      assert (Fc : unexplored_count g (d_state rc) < fuel) by lia.
      assert (Inc' : dfs_inside g v r rc').
      { destruct (dfs_edge_step g fuel v (t + 1) r w rc
                    (dfs_visit_total g W fuel) Uv Inc Hw Fc)
          as [rc1 [E1 In1]].
        rewrite Ew in E1. inversion E1. subst. exact In1. }
      assert (Hrest' : forall x, In x rest -> has_node g x).
      { intros x Ix. apply Hrest. right. exact Ix. }
      unfold I. split; [exact Inc'|].
      assert (Same : forall c,
        dfs_depths g (classify rc v w c) /\
        dget v (d_discovered (classify rc v w c)) = Some (t + 1) /\
        (forall x, explored (dget x (d_state r)) ->
           dget x (d_discovered (classify rc v w c))
           = dget x (d_discovered r)) /\
        (forall x, has_node g x ->
           dget x (d_state (classify rc v w c)) = Some UNEXPLORED ->
           dget x (d_predecessor (classify rc v w c))
           = dget x (d_predecessor r)) /\
        (forall x, In x rest -> has_node g x)).
      { intros c. destruct Rc as [K0 K1 K2 K3].
        split; [constructor; simpl; auto|]. simpl. auto. }
      destruct (do_total g rc (di_ok g v r rc Inc) w Hw) as [c Gw].
      unfold dfs_edge, lookup in Ew. rewrite Gw in Ew. simpl in Ew.
      destruct c.
      + (* tree edge *)
        set (rt := {| d_state := d_state rc;
                      d_predecessor := dset w (Some v) (d_predecessor rc);
                      d_discovered := d_discovered rc;
                      d_classification :=
                        dset (v, w) TREE_EDGE (d_classification rc);
                      d_finished := d_finished rc |}) in *.
        assert (Okt : dfs_ok g rt).
        { destruct (di_ok g v r rc Inc) as [T D]. constructor; simpl; auto. }
        assert (Rt : dfs_depths g rt).
        { destruct Rc as [K0 K1 K2 K3]. constructor; simpl.
          - intros x y. rewrite dget_dset.
            destruct (key_eqb w y) eqn:Q; [|apply K0].
            apply key_eqb_eq in Q. subst y. intros _. exact Hw.
          - intros x y. rewrite dget_dset.
            destruct (key_eqb w y) eqn:Q; [|apply K1].
            intros P. inversion P. subst x. left. exact Sv.
          - intros x y. rewrite dget_dset.
            destruct (key_eqb w y) eqn:Q; [|apply K2].
            apply key_eqb_eq in Q. subst y. intros _ Ex.
            apply explored_not_unexplored in Ex. congruence.
          - intros y. rewrite dget_dset.
            destruct (key_eqb w y) eqn:Q; [discriminate | apply K3]. }
        destruct (IH w (t + 1) rt rc' Okt Gw Hw Fc Rt) as [R' [Frd' Frp']].
        { simpl. rewrite dget_dset_same. intros p P. inversion P. subst p.
          exact Dv. }
        { simpl. rewrite dget_dset_same. discriminate. }
        { exact Ew. }
        pose proof (dfs_visit_post g W fuel w (t + 1) rt rc' Okt Gw Hw Fc Ew)
          as [_ Fr' Fw' _ _].
        split; [exact R'|].
        split; [rewrite (Frd' v (or_introl Sv)); exact Dv|].
        split.
        { intros x Ex. destruct (di_frame g v r rc Inc x Ex) as [S1 _].
          rewrite Frd'; [apply Frd; exact Ex|].
          simpl. rewrite S1. exact Ex. }
        split; [|exact Hrest'].
        intros x Hx Ux. rewrite (Frp' x Hx Ux).
        pose proof (unexplored_back rt rc' x Okt Fr' Hx Ux) as Ut.
        simpl. rewrite dget_dset.
        destruct (key_eqb w x) eqn:Q.
        * apply key_eqb_eq in Q. subst x. congruence.
        * apply Frp; auto.
      + inversion Ew. subst rc'. apply (Same BACK_EDGE).
      + apply bind_Ok in Ew. destruct Ew as [tv [_ Ew]].
        apply bind_Ok in Ew. destruct Ew as [tw [_ Ew]].
        destruct (Nat.ltb tw tv); inversion Ew;
          [apply (Same CROSS_EDGE) | apply (Same FORWARD_EDGE)]. }
  destruct Fin as [In2 [[K0 K1 K2 K3] [Dv [Frd [Frp _]]]]].
  pose proof (di_vertex g v r r2 In2) as Sv.
  split; [|split].
  - constructor; simpl.
    + exact K0.
    + intros x y P. rewrite dget_dset.
      key_cases v x; [right; reflexivity | apply (K1 x y P)].
    + intros x y P. rewrite dget_dset.
      destruct (key_eqb v y) eqn:Q; [|apply (K2 x y P)].
      apply key_eqb_eq in Q. subst y. intros _.
      apply (K2 x v P). left. exact Sv.
    + intros y P. rewrite dget_dset.
      destruct (key_eqb v y) eqn:Q; [|apply (K3 y P)].
      apply key_eqb_eq in Q. subst y. intros _.
      apply (K3 v P). left. exact Sv.
  - intros x Ex. simpl. apply Frd. exact Ex.
  - intros x Hx. simpl. rewrite dget_dset.
    destruct (key_eqb v x) eqn:Q; [discriminate|].
    apply Frp. exact Hx.
Qed.

(** [dfs] enters every root of its forest at time 0. *)
Lemma dfs_final_depths fuel :
  List.length (nodes g) < fuel ->
  exists r, dfs g fuel = Ok r /\
    (forall x, has_node g x -> dget x (d_state r) = Some FINISHED) /\
    dfs_depths g r.
Proof.
  intros F. unfold dfs.
  destruct (foldM_inv_total (dfs_root g fuel)
              (fun rest rc =>
                 dfs_ok g rc /\
                 (forall x, dget x (d_state rc) <> Some DISCOVERED) /\
                 (forall x, In x rest -> has_node g x) /\
                 (forall x, has_node g x ->
                    In x rest \/ dget x (d_state rc) = Some FINISHED) /\
                 dfs_depths g rc /\
                 (forall x, has_node g x ->
                    dget x (d_state rc) = Some UNEXPLORED ->
                    dget x (d_predecessor rc) = Some None))
              (dkeys (nodes g)) (dfs_init g))
    as [r [E [Okr [_ [_ [All [R _]]]]]]].
  - split; [apply dfs_init_ok|]. split.
    { intros x. rewrite dfs_init_state.
      destruct (list_mem x (dkeys (nodes g))); discriminate. }
    split; [auto|]. split; [auto|].
    assert (NE : forall x, ~ explored (dget x (d_state (dfs_init g)))).
    { intros x. rewrite dfs_init_state.
      destruct (list_mem x (dkeys (nodes g)));
        intros [D|D]; discriminate. }
    assert (NP : forall x y,
               dget y (d_predecessor (dfs_init g)) <> Some (Some x)).
    { intros x y. simpl. rewrite dget_dict_from_keys.
      destruct (list_mem y (dkeys (nodes g))); discriminate. }
    split.
    + constructor.
      * intros x y P. exfalso. exact (NP x y P).
      * intros x y P. exfalso. exact (NP x y P).
      * intros x y P. exfalso. exact (NP x y P).
      * intros y _ Ey. exfalso. exact (NE y Ey).
    + intros x Hx _. simpl. rewrite dget_dict_from_keys.
      apply list_mem_In in Hx. rewrite Hx. reflexivity.
  - intros v rest rc [Okc [ND [Hrest [All [Rc Up]]]]].
    assert (Hv : has_node g v) by (apply Hrest; left; reflexivity).
    assert (Hrest' : forall x, In x rest -> has_node g x).
    { intros x Ix. apply Hrest. right. exact Ix. }
    destruct (do_total g rc Okc v Hv) as [c Gv].
    unfold dfs_root, lookup. rewrite Gv. simpl.
    destruct c.
    + assert (Fc : unexplored_count g (d_state rc) < fuel).
      { pose proof (unexplored_count_le g (d_state rc)). lia. }
      destruct (dfs_visit_total g W fuel v 0 rc Okc Gv Hv Fc)
        as [r' [E' [Ok' Fr' Fi' Cn' Gr']]].
      destruct (dfs_visit_depths fuel v 0 rc r' Okc Gv Hv Fc Rc)
        as [R' [_ Frp']]; auto.
      { intros p P. rewrite (Up v Hv Gv) in P. discriminate. }
      exists r'. split; [exact E'|]. split; [exact Ok'|].
      split; [intros x Dx; apply (ND x); apply Gr'; exact Dx|].
      split; [exact Hrest'|]. split.
      { intros x Hx. destruct (All x Hx) as [[<-|Ix]|Fx]; auto.
        right. destruct (Fr' x (or_intror Fx)) as [S1 _]. congruence. }
      split; [exact R'|].
      intros x Hx Ux. rewrite (Frp' x Hx Ux).
      apply Up; auto. apply (unexplored_back rc r' x Okc Fr' Hx Ux).
    + exfalso. exact (ND v Gv).
    + exists rc. split; [reflexivity|]. split; [exact Okc|].
      split; [exact ND|].
      split; [exact Hrest'|]. split; [|split; [exact Rc | exact Up]].
      intros x Hx. destruct (All x Hx) as [[<-|Ix]|Fx]; auto.
  - exists r. split; [exact E|]. split; [|exact R].
    intros x Hx. destruct (All x Hx) as [[]|Fx]. exact Fx.
Qed.
End DfsDepths.

(** X23: in the result of [dfs] the discovery time of a node is its depth in
    the search forest plus one: a node without predecessor is discovered at
    time 1, and any other node one tick after its predecessor, however many
    nodes were visited in between. *)
Theorem dfs_discovery_is_forest_depth (g : Graph) (fuel : nat) :
  WF g -> List.length (nodes g) < fuel ->
  exists r, dfs g fuel = Ok r /\
    (forall y, has_node g y -> dget y (d_predecessor r) = Some None ->
               dget y (d_discovered r) = Some 1) /\
    (forall x y, dget y (d_predecessor r) = Some (Some x) ->
       exists td, dget x (d_discovered r) = Some td /\
                  dget y (d_discovered r) = Some (td + 1)).
Proof.
  intros W F. destruct (dfs_final_depths g W fuel F) as [r [E [All R]]].
  exists r. split; [exact E|]. split.
  - intros y Hy P. apply (dd_root g r R y P). right. apply All. exact Hy.
  - intros x y P. apply (dd_child g r R x y P). right. apply All.
    apply (dd_node g r R x y P).
Qed.

Lemma dfs_discovery_is_forest_depth_witness :
  exists r, dfs fork_graph 10 = Ok r /\
    (forall y, has_node fork_graph y ->
               dget y (d_predecessor r) = Some None ->
               dget y (d_discovered r) = Some 1) /\
    (forall x y, dget y (d_predecessor r) = Some (Some x) ->
       exists td, dget x (d_discovered r) = Some td /\
                  dget y (d_discovered r) = Some (td + 1)).
Proof.
  apply dfs_discovery_is_forest_depth.
  - apply graph_of_WF.
  - vm_compute. lia.
Defined.
